(** * Autopart (cross-associations graph partitioning): model and properties

    Shallow embedding of [src/algorithms/autopart.py].

    Conventions of the embedding.
    - Python floats are read as exact numbers: cached block weights are
      integers ([Z]), cached densities are rationals ([Q]) and every cost
      is a real ([R]); [math.log] is the real logarithm and raises
      [ValueError] outside its domain.  Comparisons of costs (in [min],
      in [max] and against [epsilon]) and the ceiling of a logarithm are
      therefore exact, where the floats of the program can differ in the
      last digit: which of two groups of equal cost is taken, and
      [ceil(log2(x))] at a large power of two, are not settled by the
      embedding.
    - An exception is a value [Raise e]; a method that mutates [self]
      returns the object as it is left behind, also when it raises.
    - Nodes are numbered; a Python [set] of nodes is a duplicate-free list
      whose order stands for the iteration order of the set (the list
      keeps the order of insertion, a Python [set] iterates by hash;
      what is stated below for every object or every graph holds for
      every order); the dictionary
      [map_g_n], whose keys are always [0 .. k-1] in insertion order, is
      the list of its values. *)

From Stdlib Require Import Reals QArith Qreals ZArith Lra Lia List.
From stdpp Require Import gmap list sorting.

Close Scope Q_scope.
Close Scope R_scope.
Open Scope nat_scope.

(** ** Exceptions and results *)

Inductive exn : Type :=
| ValueError
| ZeroDivisionError
| AssertionError
| KeyError
| IndexError.

Inductive result (A : Type) : Type :=
| Ok (a : A)
| Raise (e : exn).

Arguments Ok {A} a.
Arguments Raise {A} e.

#[global] Instance result_ret : MRet result := @Ok.
#[global] Instance result_bind : MBind result :=
  fun A B f m => match m with Ok a => f a | Raise e => Raise e end.
#[global] Instance result_fmap : FMap result :=
  fun A B f m => match m with Ok a => Ok (f a) | Raise e => Raise e end.

Definition is_ok {A} (r : result A) : Prop := exists a, r = Ok a.

Definition of_option {A} (e : exn) (o : option A) : result A :=
  match o with Some a => Ok a | None => Raise e end.

(** ** Numbers *)

Abbreviation node := nat (only parsing).
Abbreviation matrix := (list (list Z)) (only parsing).

Definition epsilon : R := (1 / 10000)%R.

Definition log2R (x : R) : R := (ln x / ln 2)%R.

(** [log2(x)] on a rational argument: [math.log(x, 2)]. *)
Definition log2 (x : Q) : result R :=
  if Qle_bool x 0 then Raise ValueError else Ok (log2R (Q2R x)).

(** [ceil(log2(a))] on an integer argument. *)
Definition ceil_log2 (a : Z) : result Z :=
  if (a <=? 0)%Z then Raise ValueError else Ok (Z.log2_up a).

(** The loop of [log_star]: [while val > epsilon: res += val; val = log(val, 2)]. *)
Fixpoint log_star_loop (fuel : nat) (val res : R) : option R :=
  match fuel with
  | O => None
  | S fuel' =>
      if Rgt_dec val epsilon
      then log_star_loop fuel' (log2R val) (res + val)%R
      else Some res
  end.

(** More rounds than the loop can take on [x] (see [log_star_total]). *)
Definition log_star_fuel (x : Z) : nat := S (Z.to_nat (3 * x)).

Definition log_star (x : Z) : result R :=
  if (x <=? 0)%Z then Raise ValueError
  else Ok (default 0%R (log_star_loop (log_star_fuel x) (log2R (IZR x)) 0%R)).

Definition Rsum (l : list R) : R := fold_left Rplus l 0%R.
Definition Zsum (l : list Z) : Z := fold_left Z.add l 0%Z.
Definition nsum (l : list nat) : nat := fold_left Nat.add l 0.

(** ** The object *)

Record Autopart : Type := mkAutopart {
  graph : list node;               (* graph.nodes(), in iteration order *)
  adj_matrix : matrix;
  k : nat;
  map_g_n : list (list node);
  map_n_g : gmap node nat;
  map_n_r : gmap node nat;
  step : nat;
  w : list (list Z);
  P : list (list Q)
}.

Definition set_adj_matrix (a : matrix) (self : Autopart) : Autopart :=
  mkAutopart (graph self) a (k self) (map_g_n self) (map_n_g self)
    (map_n_r self) (step self) (w self) (P self).
Definition set_k (x : nat) (self : Autopart) : Autopart :=
  mkAutopart (graph self) (adj_matrix self) x (map_g_n self) (map_n_g self)
    (map_n_r self) (step self) (w self) (P self).
Definition set_map_g_n (x : list (list node)) (self : Autopart) : Autopart :=
  mkAutopart (graph self) (adj_matrix self) (k self) x (map_n_g self)
    (map_n_r self) (step self) (w self) (P self).
Definition set_map_n_g (x : gmap node nat) (self : Autopart) : Autopart :=
  mkAutopart (graph self) (adj_matrix self) (k self) (map_g_n self) x
    (map_n_r self) (step self) (w self) (P self).
Definition set_map_n_r (x : gmap node nat) (self : Autopart) : Autopart :=
  mkAutopart (graph self) (adj_matrix self) (k self) (map_g_n self)
    (map_n_g self) x (step self) (w self) (P self).
Definition set_step (x : nat) (self : Autopart) : Autopart :=
  mkAutopart (graph self) (adj_matrix self) (k self) (map_g_n self)
    (map_n_g self) (map_n_r self) x (w self) (P self).
Definition set_w (x : list (list Z)) (self : Autopart) : Autopart :=
  mkAutopart (graph self) (adj_matrix self) (k self) (map_g_n self)
    (map_n_g self) (map_n_r self) (step self) x (P self).
Definition set_P (x : list (list Q)) (self : Autopart) : Autopart :=
  mkAutopart (graph self) (adj_matrix self) (k self) (map_g_n self)
    (map_n_g self) (map_n_r self) (step self) (w self) x.

(** ** Read-only methods *)

Definition groups (self : Autopart) : list nat := seq 0 (k self).

Definition nodes (self : Autopart) : list node := graph self.

Definition group_size (self : Autopart) (group_i : nat) : result nat :=
  s ← of_option KeyError (map_g_n self !! group_i); Ok (length s).

Definition group_sizes (self : Autopart) : list nat := length <$> map_g_n self.

Definition group_start_idx (self : Autopart) (group_i : nat) : result nat :=
  nsum <$> mapM (group_size self) (seq 0 group_i).

Definition block_size (self : Autopart) (group_i group_j : nat) : result nat :=
  a ← group_size self group_i; b ← group_size self group_j; Ok (a * b).

(** [t[i][j]] and [t[i][j] = v] on a list of lists. *)
Definition table_get {A} (t : list (list A)) (i j : nat) : result A :=
  row ← of_option IndexError (t !! i);
  of_option IndexError (row !! j).

Definition table_set {A} (t : list (list A)) (i j : nat) (v : A) : result (list (list A)) :=
  row ← of_option IndexError (t !! i);
  if decide (j < length row) then Ok (<[i := <[j := v]> row]> t)
  else Raise IndexError.

Definition block_weight (self : Autopart) (group_i group_j : nat) : result Z :=
  table_get (w self) group_i group_j.

Definition block_density (self : Autopart) (group_i group_j : nat) : result Q :=
  table_get (P self) group_i group_j.

(** [adj_matrix[row, c_from:c_to].sum()]: the row index is checked, the
    slice is clipped. *)
Definition row_slice_sum (a : matrix) (row c_from c_to : nat) : result Z :=
  r ← of_option IndexError (a !! row);
  Ok (Zsum (take (c_to - c_from) (drop c_from r))).

(** [adj_matrix[r_from:r_to, col].sum()]. *)
Definition col_slice_sum (a : matrix) (r_from r_to col : nat) : result Z :=
  Zsum <$> mapM (fun r : list Z => of_option IndexError (r !! col))
                (take (r_to - r_from) (drop r_from a)).

Definition cell (self : Autopart) (row col : nat) : result Z :=
  r ← of_option IndexError (adj_matrix self !! row);
  of_option IndexError (r !! col).

Definition row_weight (self : Autopart) (row group_i : nat) : result Z :=
  c_from ← group_start_idx self group_i;
  n ← group_size self group_i;
  let c_to := c_from + n in
  if c_from <? c_to then row_slice_sum (adj_matrix self) row c_from c_to
  else Ok 0%Z.

Definition col_weight (self : Autopart) (col group_i : nat) : result Z :=
  r_from ← group_start_idx self group_i;
  n ← group_size self group_i;
  let r_to := r_from + n in
  if r_from <? r_to then col_slice_sum (adj_matrix self) r_from r_to col
  else Ok 0%Z.

Definition _block_weight (self : Autopart) (group_i group_j : nat) : result Z :=
  r_from ← group_start_idx self group_i;
  ni ← group_size self group_i;
  let r_to := r_from + ni in
  c_from ← group_start_idx self group_j;
  nj ← group_size self group_j;
  let c_to := c_from + nj in
  if (r_from <? r_to) && (c_from <? c_to)
  then Zsum <$> mapM (fun r => row_slice_sum (adj_matrix self) r c_from c_to)
                     (seq r_from (r_to - r_from))
  else Ok 0%Z.

(** The smoothed density [(w + 0.5) / (n + 1)]. *)
Definition smoothed (wt : Z) (n : Z) : Q :=
  ((inject_Z wt + (1 # 2)) / (inject_Z n + 1))%Q.

Definition _block_density (self : Autopart) (group_i group_j : nat) : result Q :=
  wt ← block_weight self group_i group_j;
  n ← block_size self group_i group_j;
  Ok (smoothed wt (Z.of_nat n)).

(** ** The cost model *)

Definition block_code_cost (self : Autopart) (group_i group_j : nat) : result R :=
  wt ← block_weight self group_i group_j;
  p ← block_density self group_i group_j;
  l1 ← log2 p;
  let cost := (0 - IZR wt * l1)%R in
  n ← block_size self group_i group_j;
  wt' ← block_weight self group_i group_j;
  p' ← block_density self group_i group_j;
  l2 ← log2 (1 - p')%Q;
  Ok (cost - IZR (Z.of_nat n - wt') * l2)%R.

Definition pairs (self : Autopart) : list (nat * nat) :=
  i ← groups self; j ← groups self; [(i, j)].

Definition code_cost (self : Autopart) : result R :=
  Rsum <$> mapM (fun ij => block_code_cost self ij.1 ij.2) (pairs self).

Definition description_cost_block_weights (self : Autopart) : result Z :=
  Zsum <$> mapM (fun ij => n ← block_size self ij.1 ij.2;
                           ceil_log2 (Z.of_nat n + 1)) (pairs self).

(** [sorted(..., reverse=True)] on integers. *)
Definition sorted_reverse (l : list nat) : list nat := merge_sort (flip le) l.

(** The inner function [a] of [description_cost_group_sizes]. *)
Definition a_val (self : Autopart) (sizes : list nat) (group_i : nat) : result Z :=
  fold_left
    (fun (acc : result Z) (g : nat) =>
       val ← acc;
       s ← of_option IndexError (sizes !! g);
       Ok (val + Z.of_nat s)%Z)
    (seq group_i (k self - group_i))
    (Ok (1 - Z.of_nat (k self) + Z.of_nat group_i)%Z).

Definition description_cost_group_sizes (self : Autopart) : result Z :=
  if decide (k self = 1) then Ok 0%Z
  else
    sizes ← sorted_reverse <$> mapM (group_size self) (groups self);
    fold_left
      (fun (acc : result Z) (grp : nat) =>
         res ← acc;
         v ← a_val self sizes grp;
         c ← ceil_log2 v;
         Ok (res + c)%Z)
      (seq 0 (k self - 1))
      (Ok 0%Z).

Definition description_cost (self : Autopart) : result R :=
  cost ← log_star (Z.of_nat (k self));
  gs ← description_cost_group_sizes self;
  let cost := (cost + IZR gs)%R in
  bw ← description_cost_block_weights self;
  Ok (cost + IZR bw)%R.

Definition total_cost (self : Autopart) : result R :=
  d ← description_cost self;
  c ← code_cost self;
  Ok (d + c)%R.

Definition rearrange_cost (self : Autopart) (nd : node) (next_group : nat) : result R :=
  g ← of_option KeyError (map_n_g self !! nd);
  x ← of_option KeyError (map_n_r self !! nd);
  let i := next_group in
  fold_left
    (fun (acc : result R) (j : nat) =>
       cost ← acc;
       rw ← row_weight self x j;
       pij ← block_density self i j;
       l1 ← log2 pij;
       nj ← group_size self j;
       rw' ← row_weight self x j;
       pij' ← block_density self i j;
       l2 ← log2 (1 - pij')%Q;
       let cost := (cost - (IZR rw * l1 + IZR (Z.of_nat nj - rw') * l2))%R in
       cw ← col_weight self x j;
       pji ← block_density self j i;
       l3 ← log2 pji;
       nj' ← group_size self j;
       cw' ← col_weight self x j;
       pji' ← block_density self j i;
       l4 ← log2 (1 - pji')%Q;
       Ok (cost - (IZR cw * l3 + IZR (Z.of_nat nj' - cw') * l4))%R)
    (groups self)
    (Ok 0%R).

Definition group_entropy_per_node (self : Autopart) (group_i : nat) : result R :=
  n ← group_size self group_i;
  if decide (n = 0) then Ok 0%R
  else
    entropy ← Rsum <$> mapM (fun g => c1 ← block_code_cost self group_i g;
                                       c2 ← block_code_cost self g group_i;
                                       Ok (c1 + c2)%R) (groups self);
    n' ← group_size self group_i;
    Ok (entropy / INR n')%R.

(** One round of the loop of [group_entropy_per_node_exclude]: the block
    sizes, weights and densities of the three cases for group [j]. *)
Definition exclude_block (self : Autopart) (group_i x j : nat)
  : result (Z * Z * Z * Z * Q * Q) :=
  if decide (j = group_i) then
    ni ← group_size self group_i;
    if 1 <? ni then
      nj ← group_size self j;
      nj' ← group_size self j;
      let n := ((Z.of_nat nj - 1) * (Z.of_nat nj' - 1))%Z in
      bw ← block_weight self j j;
      rw ← row_weight self x group_i;
      cw ← col_weight self x group_i;
      c ← cell self x x;
      let wt := (bw - rw - cw + c)%Z in
      Ok (n, n, wt, wt, smoothed wt n, smoothed wt n)
    else Ok (0, 0, 0, 0, 0%Q, 0%Q)%Z
  else if decide (j = k self - 1) then
    ni ← group_size self group_i;
    if 1 <? ni then
      ni' ← group_size self group_i;
      nj ← group_size self j;
      let n := ((Z.of_nat ni' - 1) * (Z.of_nat nj + 1))%Z in
      bw ← block_weight self group_i j;
      rw ← row_weight self x j;
      cw ← col_weight self x group_i;
      let w_rj := (bw - rw + cw)%Z in
      bw' ← block_weight self j group_i;
      cw' ← col_weight self x j;
      rw' ← row_weight self x group_i;
      let w_jr := (bw' - cw' + rw')%Z in
      Ok (n, n, w_rj, w_jr, smoothed w_rj n, smoothed w_jr n)
    else Ok (0, 0, 0, 0, 0%Q, 0%Q)%Z
  else
    ni ← group_size self group_i;
    nj ← (if 1 <? ni then group_size self j else Ok 0);
    if (1 <? ni) && (0 <? nj) then
      ni' ← group_size self group_i;
      nj' ← group_size self j;
      let n := ((Z.of_nat ni' - 1) * Z.of_nat nj')%Z in
      bw ← block_weight self group_i j;
      rw ← row_weight self x j;
      let w_rj := (bw - rw)%Z in
      bw' ← block_weight self j group_i;
      cw ← col_weight self x j;
      let w_jr := (bw' - cw)%Z in
      Ok (n, n, w_rj, w_jr, smoothed w_rj n, smoothed w_jr n)
    else Ok (0, 0, 0, 0, 0%Q, 0%Q)%Z.

Definition group_entropy_per_node_exclude (self : Autopart) (group_i : nat) (nd : node)
  : result R :=
  n ← group_size self group_i;
  if decide (n = 1) then Ok 0%R
  else
    n0 ← group_size self group_i;
    if decide (n0 = 0) then Ok 0%R
    else
      x ← of_option KeyError (map_n_r self !! nd);
      entropy ←
        fold_left
          (fun (acc : result R) (j : nat) =>
             entropy ← acc;
             '(n_rj, n_jr, w_rj, w_jr, p_rj, p_jr) ← exclude_block self group_i x j;
             l1 ← log2 p_rj;
             l2 ← log2 (1 - p_rj)%Q;
             let entropy := (entropy - (IZR w_rj * l1 + IZR (n_rj - w_rj) * l2))%R in
             l3 ← log2 p_jr;
             l4 ← log2 (1 - p_jr)%Q;
             Ok (entropy - (IZR w_jr * l3 + IZR (n_jr - w_jr) * l4))%R)
          (groups self)
          (Ok 0%R);
      m ← group_size self group_i;
      Ok (entropy / IZR (Z.of_nat m - 1))%R.

(** ** Methods that mutate the object *)

Definition M (A : Type) : Type := Autopart → result A * Autopart.

#[global] Instance M_ret : MRet M := fun A a self => (Ok a, self).
#[global] Instance M_bind : MBind M :=
  fun A B f m self =>
    match m self with
    | (Ok a, self') => f a self'
    | (Raise e, self') => (Raise e, self')
    end.

Definition reading {A} (f : Autopart → result A) : M A := fun self => (f self, self).
Definition modify (f : Autopart → Autopart) : M unit := fun self => (Ok tt, f self).
Definition assert (b : bool) : M unit :=
  fun self => (if b then Ok tt else Raise AssertionError, self).

Definition compute_w (self : Autopart) : result (list (list Z)) :=
  mapM (fun i => mapM (fun j => _block_weight self i j) (groups self)) (groups self).
Definition compute_P (self : Autopart) : result (list (list Q)) :=
  mapM (fun i => mapM (fun j => _block_density self i j) (groups self)) (groups self).

Definition _recalculate_block_properties : M unit :=
  w' ← reading compute_w;
  modify (set_w w');;
  P' ← reading compute_P;
  modify (set_P P').

(** [d[key] = value] on a dictionary with keys [0 .. len-1]. *)
Definition dict_set {A} (key : nat) (v : A) (d : list A) : list A :=
  if decide (key < length d) then <[key := v]> d else d ++ [v].

Definition _add_new_group : M unit :=
  new_group ← reading (fun self => Ok (k self));
  modify (fun self => set_map_g_n (dict_set new_group [] (map_g_n self)) self);;
  modify (fun self => set_k (k self + 1) self);;
  _recalculate_block_properties.

Definition set_remove (nd : node) (s : list node) : result (list node) :=
  if decide (nd ∈ s) then Ok (filter (fun x => x ≠ nd) s) else Raise KeyError.
Definition set_add (nd : node) (s : list node) : list node :=
  if decide (nd ∈ s) then s else s ++ [nd].

Definition get_row (a : matrix) (i : nat) : result (list Z) :=
  of_option IndexError (a !! i).
Definition set_row (a : matrix) (i : nat) (r : list Z) : result matrix :=
  if decide (i < length a) then Ok (<[i := r]> a) else Raise IndexError.
Definition get_col (a : matrix) (j : nat) : result (list Z) :=
  mapM (fun r : list Z => of_option IndexError (r !! j)) a.
Definition set_col (a : matrix) (j : nat) (c : list Z) : result matrix :=
  if forallb (fun r : list Z => j <? length r) a
  then Ok (zip_with (fun r v => <[j := v]> r) a c)
  else Raise IndexError.

(** The two loops of [_rearrange_matrix_and_mappings] ("switch rows",
    "switch columns"), over the way a line is read and written. *)
Fixpoint switch (get : matrix → nat → result (list Z))
    (set : matrix → nat → list Z → result matrix)
    (order : list nat) (idx : nat) (temp : gmap nat (list Z)) (used : gset nat)
    (a : matrix) : result (gset nat) * matrix :=
  match order with
  | [] => (Ok used, a)
  | num :: rest =>
      if decide (idx = num)
      then switch get set rest (S idx) temp ({[num]} ∪ used) a
      else
        match (if decide (idx ∈ used) then Ok temp
               else line ← get a idx; Ok (<[idx := line]> temp)) with
        | Raise e => (Raise e, a)
        | Ok temp' =>
            match (match temp' !! num with
                   | Some line => set a idx line
                   | None => line ← get a num; set a idx line
                   end) with
            | Raise e => (Raise e, a)
            | Ok a' => switch get set rest (S idx) temp' ({[num]} ∪ used) a'
            end
        end
  end.

Definition switch_lines (get : matrix → nat → result (list Z))
    (set : matrix → nat → list Z → result matrix) (order : list nat) : M (gset nat) :=
  fun self =>
    let '(r, a) := switch get set order 0 ∅ ∅ (adj_matrix self) in
    (r, set_adj_matrix a self).

(** [dict((node, idx) for idx, node in enumerate(order_node))]. *)
Definition enumerate_map (order_node : list node) : gmap node nat :=
  fold_left (fun m p => <[p.2 := p.1]> m) (imap (fun idx nd => (idx, nd)) order_node) ∅.

Definition _rearrange_matrix_and_mappings
    (map_g_n' : list (list node)) (map_n_g' : gmap node nat) : M unit :=
  assert (bool_decide (size map_n_g' = nsum (length <$> map_g_n')));;
  let order_node := concat map_g_n' in
  order_row ← reading (fun self =>
                 mapM (fun nd => of_option KeyError (map_n_r self !! nd)) order_node);
  used ← switch_lines get_row set_row order_row;
  order ← reading (fun self => Ok (length (graph self)));
  assert (bool_decide (size used = order));;
  used ← switch_lines get_col set_col order_row;
  order ← reading (fun self => Ok (length (graph self)));
  assert (bool_decide (size used = order));;
  modify (set_map_g_n map_g_n');;
  modify (set_map_n_g map_n_g');;
  modify (set_map_n_r (enumerate_map order_node));;
  _recalculate_block_properties.

Definition _move_node_to_new_group (nd : node) : M unit :=
  g ← reading (fun self => of_option KeyError (map_n_g self !! nd));
  s ← reading (fun self => of_option KeyError (map_g_n self !! g));
  s' ← reading (fun _ => set_remove nd s);
  modify (fun self => set_map_g_n (<[g := s']> (map_g_n self)) self);;
  newest ← reading (fun self => if decide (k self = 0) then Raise KeyError
                                else Ok (k self - 1));
  t ← reading (fun self => of_option KeyError (map_g_n self !! newest));
  modify (fun self => set_map_g_n (<[newest := set_add nd t]> (map_g_n self)) self);;
  modify (fun self => set_map_n_g (<[nd := newest]> (map_n_g self)) self);;
  self ← reading Ok;
  _rearrange_matrix_and_mappings (map_g_n self) (map_n_g self);;
  _recalculate_block_properties.

Definition outlier_score (group_i group_j : nat) : M R :=
  w0 ← reading (fun self => table_get (w self) group_i group_j);
  if (w0 =? 0)%Z then mret 0%R
  else
    w_orig ← reading (fun self => table_get (w self) group_i group_j);
    P_orig ← reading (fun self => table_get (P self) group_i group_j);
    cost ← reading total_cost;
    cur ← reading (fun self => table_get (w self) group_i group_j);
    w' ← reading (fun self => table_set (w self) group_i group_j (cur - 1)%Z);
    modify (set_w w');;
    num ← reading (fun self => table_get (w self) group_i group_j);
    n ← reading (fun self => block_size self group_i group_j);
    q ← reading (fun _ => if decide (n = 0) then Raise ZeroDivisionError
                          else Ok (inject_Z num / inject_Z (Z.of_nat n))%Q);
    P' ← reading (fun self => table_set (P self) group_i group_j q);
    modify (set_P P');;
    cost' ← reading total_cost;
    let score := (cost - cost')%R in
    w'' ← reading (fun self => table_set (w self) group_i group_j w_orig);
    modify (set_w w'');;
    P'' ← reading (fun self => table_set (P self) group_i group_j P_orig);
    modify (set_P P'');;
    mret score.

Definition clusters (self : Autopart) : list (list node) := map_g_n self.

(** ** Logging, snapshots and the two loops *)

Inductive loop_name : Type := inner | outer.

Inductive event : Type :=
| Debug_move (nd : node) (from to : nat)
| Info_after_inner (sizes : list nat)
| Debug_iteration_inner (it : nat)
| Info_after_splitting (sizes : list nat)
| Debug_iteration_outer (it : nat)
| Debug_code_cost (stp : nat) (c : R)
| Saved_figure (stp : nat) (name : loop_name) (it : nat) (a : matrix) (lines : list nat).

Definition DEBUG : Z := 10.
Definition INFO : Z := 20.
Definition ERROR : Z := 40.

(** The object together with the global logger and what was written. *)
Record World : Type := mkWorld {
  obj : Autopart;
  log_level : Z;
  emitted : list event
}.

Definition MW (A : Type) : Type := World → result A * World.

#[global] Instance MW_ret : MRet MW := fun A a wd => (Ok a, wd).
#[global] Instance MW_bind : MBind MW :=
  fun A B f m wd =>
    match m wd with
    | (Ok a, wd') => f a wd'
    | (Raise e, wd') => (Raise e, wd')
    end.

Definition on_obj {A} (m : M A) : MW A :=
  fun wd => let '(r, self) := m (obj wd) in (r, mkWorld self (log_level wd) (emitted wd)).

Definition raiseW {A} (e : exn) : MW A := fun wd => (Raise e, wd).

Definition write (ev : event) : MW unit :=
  fun wd => (Ok tt, mkWorld (obj wd) (log_level wd) (emitted wd ++ [ev])).

(** What runs only when the logger's level is at most [level]. *)
Definition when_level (level : Z) (m : MW unit) : MW unit :=
  fun wd => if (log_level wd <=? level)%Z then m wd else (Ok tt, wd).

Definition emit (level : Z) (ev : event) : MW unit := when_level level (write ev).

Definition logging_debug : event → MW unit := emit DEBUG.
Definition logging_info : event → MW unit := emit INFO.

Definition _report_code_cost : MW unit :=
  stp ← on_obj (reading (fun self => Ok (step self)));
  c ← on_obj (reading code_cost);
  logging_debug (Debug_code_cost stp c).

Definition _plot_adj_matrix (self : Autopart) : result (matrix * list nat) :=
  idxs ← mapM (group_start_idx self) (groups self);
  Ok (adj_matrix self, filter (fun idx => 0 < idx) idxs).

Definition _report_adj_matrix (name : loop_name) (it_num : nat) : MW unit :=
  when_level INFO
    (plot ← on_obj (reading _plot_adj_matrix);
     stp ← on_obj (reading (fun self => Ok (step self)));
     write (Saved_figure stp name it_num plot.1 plot.2));;
  on_obj (modify (fun self => set_step (step self + 1) self)).

(** [min(seq, key=...)] and [max(seq, key=...)] over already computed
    keys: the first extremal element wins. *)
Definition py_min (keys : list (nat * R)) : result nat :=
  match keys with
  | [] => Raise ValueError
  | first :: rest =>
      Ok (fold_left (fun best x => if Rlt_dec x.2 best.2 then x else best) rest first).1
  end.

Definition py_max (keys : list (nat * R)) : result nat :=
  match keys with
  | [] => Raise ValueError
  | first :: rest =>
      Ok (fold_left (fun best x => if Rgt_dec x.2 best.2 then x else best) rest first).1
  end.

Definition next_group_of (self : Autopart) (nd : node) : result nat :=
  keys ← mapM (fun g => c ← rearrange_cost self nd g; Ok (g, c)) (groups self);
  py_min keys.

(** STEP 1 of the inner loop: the [for node in self.nodes()] loop. *)
Fixpoint assign_nodes (nds : list node) (n_g : gmap node nat) (g_n : list (list node))
  : MW (gmap node nat * list (list node)) :=
  match nds with
  | [] => mret (n_g, g_n)
  | nd :: rest =>
      next_grp ← on_obj (reading (fun self => next_group_of self nd));
      let n_g := <[nd := next_grp]> n_g in
      s ← on_obj (reading (fun _ => of_option KeyError (g_n !! next_grp)));
      let g_n := <[next_grp := set_add nd s]> g_n in
      cur ← on_obj (reading (fun self => of_option KeyError (map_n_g self !! nd)));
      logging_debug (Debug_move nd cur next_grp);;
      assign_nodes rest n_g g_n
  end.

(** The body of [while True] in [_inner_loop], up to the test; it returns
    [prev_total_cost] and the total cost the test reads. *)
Definition inner_iteration (inner_loop_it : nat) : MW (R * R) :=
  self ← on_obj (reading Ok);
  '(n_g, g_n) ← assign_nodes (nodes self) ∅ (replicate (k self) []);
  prev_total_cost ← on_obj (reading total_cost);
  on_obj (_rearrange_matrix_and_mappings g_n n_g);;
  sizes ← on_obj (reading (fun self => Ok (group_sizes self)));
  logging_info (Info_after_inner sizes);;
  _report_adj_matrix inner inner_loop_it;;
  cur ← on_obj (reading total_cost);
  mret (prev_total_cost, cur).

Fixpoint inner_loop_from (fuel : nat) (inner_loop_it : nat) (wd : World)
  : option (result unit * World) :=
  match fuel with
  | O => None
  | S fuel' =>
      match inner_iteration inner_loop_it wd with
      | (Raise e, wd') => Some (Raise e, wd')
      | (Ok (prev_total_cost, cur), wd') =>
          if Rlt_dec (prev_total_cost - cur) epsilon then Some (Ok tt, wd')
          else inner_loop_from fuel' (S inner_loop_it)
                 (logging_debug (Debug_iteration_inner (S inner_loop_it)) wd').2
      end
  end.

Definition _inner_loop (fuel : nat) : World → option (result unit * World) :=
  inner_loop_from fuel 0.

Definition max_entropy_group (self : Autopart) : result nat :=
  keys ← mapM (fun g => e ← group_entropy_per_node self g; Ok (g, e)) (groups self);
  py_max keys.

(** STEP 2 of the outer loop: [for node in list(self.map_g_n[group_r])]. *)
Fixpoint seed_split (group_r : nat) (members : list node) : M unit :=
  match members with
  | [] => mret tt
  | nd :: rest =>
      e_excl ← reading (fun self => group_entropy_per_node_exclude self group_r nd);
      e_cur ← reading (fun self => group_entropy_per_node self group_r);
      (if Rlt_dec e_excl e_cur then _move_node_to_new_group nd else mret tt);;
      seed_split group_r rest
  end.

(** The body of [while True] in [_run] before the inner loop is called;
    it returns [prev_total_cost]. *)
Definition split_phase (outer_loop_it : nat) : MW R :=
  prev_total_cost ← on_obj (reading total_cost);
  group_r ← on_obj (reading max_entropy_group);
  on_obj _add_new_group;;
  members ← on_obj (reading (fun self => of_option KeyError (map_g_n self !! group_r)));
  on_obj (seed_split group_r members);;
  sizes ← on_obj (reading (fun self => Ok (group_sizes self)));
  logging_info (Info_after_splitting sizes);;
  _report_adj_matrix outer outer_loop_it;;
  mret prev_total_cost.

Fixpoint run_from (fuel : nat) (outer_loop_it : nat) (wd : World)
  : option (result unit * World) :=
  match fuel with
  | O => None
  | S fuel' =>
      match split_phase outer_loop_it wd with
      | (Raise e, wd1) => Some (Raise e, wd1)
      | (Ok prev_total_cost, wd1) =>
          match _inner_loop fuel' wd1 with
          | None => None
          | Some (Raise e, wd2) => Some (Raise e, wd2)
          | Some (Ok _, wd2) =>
              match (_report_code_cost;; on_obj (reading total_cost)) wd2 with
              | (Raise e, wd3) => Some (Raise e, wd3)
              | (Ok cur, wd3) =>
                  if Rlt_dec (prev_total_cost - cur) epsilon then Some (Ok tt, wd3)
                  else run_from fuel' (S outer_loop_it)
                         (logging_debug (Debug_iteration_outer (S outer_loop_it)) wd3).2
              end
          end
      end
  end.

Definition _run (fuel : nat) : World → option (result unit * World) :=
  run_from fuel 0.

(** The input: the nodes of the graph in iteration order and
    [nx.adjacency_matrix(graph, graph.nodes())]. *)
Record Graph : Type := mkGraph {
  graph_nodes : list node;
  graph_adjacency : matrix
}.

(** The fields as [__init__] sets them before the caches are computed. *)
Definition initial_fields (gr : Graph) : Autopart :=
  mkAutopart (graph_nodes gr) (graph_adjacency gr) 1
    [graph_nodes gr]
    (fold_left (fun m nd => <[nd := 0]> m) (graph_nodes gr) ∅)
    (enumerate_map (graph_nodes gr))
    0 [] [].

Definition initial_object (gr : Graph) : result unit * Autopart :=
  _recalculate_block_properties (initial_fields gr).

(** [Autopart(graph, log_level)]. *)
Definition __init__ (fuel : nat) (gr : Graph) (level : Z)
  : option (result unit * World) :=
  match initial_object gr with
  | (Raise e, self) => Some (Raise e, mkWorld self level [])
  | (Ok _, self) => _run fuel (mkWorld self level [])
  end.

(** * Definitions used by the statements and the proofs *)

(** ** Sums, [mapM] and the cost of the group sizes *)

Definition spec_remaining (kk : nat) (sizes : list nat) (g : nat) : Z :=
  (1 - Z.of_nat kk + Z.of_nat g + Zsum (Z.of_nat <$> take (kk - g) (drop g sizes)))%Z.

Definition spec_description_cost_group_sizes (kk : nat) (sizes : list nat) : result Z :=
  if decide (kk = 1) then Ok 0%Z
  else Zsum <$> mapM (fun g => ceil_log2 (spec_remaining kk (sorted_reverse sizes) g))
                     (seq 0 (kk - 1)).

Definition smallest (m : nat) (sizes : list nat) : list nat := take m (merge_sort le sizes).

(** ** When the cost of the group sizes has no value *)

Definition too_small (kk : nat) (sizes : list nat) : Prop :=
  ∃ m, 2 ≤ m ≤ kk ∧ nsum (smallest m sizes) < m.

Definition st_empty_single : Autopart :=
  mkAutopart [0] [[0%Z]] 2 [[]; [0]] {[0 := 1]} {[0 := 0]} 0
    [[0; 0]; [0; 0]]%Z [[1 # 2; 1 # 2]; [1 # 2; 1 # 4]]%Q.

(** ** The cache tables *)

(** [t] with the entry [(i, j)] overwritten, where that entry exists. *)
Definition poke {A} (t : list (list A)) (i j : nat) (v : A) : list (list A) :=
  match t !! i with
  | Some row => <[i := <[j := v]> row]> t
  | None => t
  end.

(** The object during the what-if evaluation of [outlier_score]. *)
Definition what_if (self : Autopart) (i j : nat) (wt : Z) (p : Q) : Autopart :=
  set_P (poke (P self) i j p) (set_w (poke (w self) i j wt) self).

(** Nothing but the two cache entries of the block [(i, j)] differs. *)
Definition only_block_changed (self self' : Autopart) (i j : nat) : Prop :=
  graph self' = graph self ∧ adj_matrix self' = adj_matrix self
  ∧ k self' = k self ∧ map_g_n self' = map_g_n self
  ∧ map_n_g self' = map_n_g self ∧ map_n_r self' = map_n_r self
  ∧ step self' = step self
  ∧ ∀ i' j', (i', j') ≠ (i, j) →
      table_get (w self') i' j' = table_get (w self) i' j'
      ∧ table_get (P self') i' j' = table_get (P self) i' j'.

(** ** Cached weights and densities *)

Definition single_edge : Graph := mkGraph [0; 1] [[0; 1]; [0; 0]]%Z.

Definition st_single_edge : Autopart :=
  Eval vm_compute in
  mkAutopart [0; 1] [[0; 1]; [0; 0]]%Z 2 [[]; [0; 1]]
    (<[1 := 1]> (<[0 := 1]> ∅)) (<[1 := 1]> (<[0 := 0]> ∅)) 2
    [[0; 0]; [0; 1]]%Z [[1 # 2; 1 # 2]; [1 # 2; 3 # 10]]%Q.

Definition binary (a : matrix) : Prop :=
  Forall (Forall (fun x => 0 <= x <= 1)%Z) a.

(** ** Rearranging the matrix *)

Definition rows_ok (self : Autopart) : Prop :=
  NoDup (graph self)
  ∧ length (adj_matrix self) = length (graph self)
  ∧ Forall (fun r : list Z => length r = length (graph self)) (adj_matrix self)
  ∧ (∀ nd, nd ∈ graph self ↔ is_Some (map_n_r self !! nd))
  ∧ (∀ nd r, map_n_r self !! nd = Some r → r < length (graph self))
  ∧ (∀ n1 n2 r, map_n_r self !! n1 = Some r → map_n_r self !! n2 = Some r → n1 = n2).

Definition in_group (g_n : list (list node)) (nd : node) (g : nat) : Prop :=
  ∃ s, g_n !! g = Some s ∧ nd ∈ s.

Definition partition_ok (self : Autopart) : Prop :=
  length (map_g_n self) = k self
  ∧ Forall NoDup (map_g_n self)
  ∧ (∀ nd g, map_n_g self !! nd = Some g ↔ in_group (map_g_n self) nd g)
  ∧ (∀ nd, nd ∈ graph self ↔ is_Some (map_n_g self !! nd)).

Definition wf (self : Autopart) : Prop := rows_ok self ∧ partition_ok self.

Definition square (gr : Graph) : Prop :=
  NoDup (graph_nodes gr)
  ∧ length (graph_adjacency gr) = length (graph_nodes gr)
  ∧ Forall (fun r : list Z => length r = length (graph_nodes gr)) (graph_adjacency gr).

(** The state in which [_rearrange_matrix_and_mappings] leaves the fields
    before it recomputes the caches. *)
Definition rearranged (g_n : list (list node)) (n_g : gmap node nat) (a : matrix)
    (self : Autopart) : Autopart :=
  set_map_n_r (enumerate_map (concat g_n))
    (set_map_n_g n_g (set_map_g_n g_n (set_adj_matrix a self))).

Definition order_row_of (self : Autopart) (g_n : list (list node)) : result (list nat) :=
  mapM (fun nd => of_option KeyError (map_n_r self !! nd)) (concat g_n).

Definition square_n (n : nat) (a : matrix) : Prop :=
  length a = n ∧ Forall (fun r : list Z => length r = n) a.

(** ** The matrix after the rows and columns were moved *)

(** The entry of the matrix for a pair of nodes. *)
Definition adjacency (self : Autopart) (n1 n2 : node) : result Z :=
  r1 ← of_option KeyError (map_n_r self !! n1);
  r2 ← of_option KeyError (map_n_r self !! n2);
  cell self r1 r2.

(** [self'] stands for the same graph as [self]: the same nodes, and the
    same matrix entry for every pair of them. *)
Definition same_graph (self self' : Autopart) : Prop :=
  graph self' = graph self
  ∧ ∀ n1 n2, n1 ∈ graph self → n2 ∈ graph self →
      adjacency self' n1 n2 = adjacency self n1 n2.

(** ** The partition invariant *)

(** What the partition invariant says, in the words of the specification. *)
Definition exactly_one_group (self : Autopart) : Prop :=
  ∀ nd, nd ∈ graph self →
    ∃ g, in_group (map_g_n self) nd g ∧ ∀ g', in_group (map_g_n self) nd g' → g' = g.

Definition sizes_add_up (self : Autopart) : Prop :=
  nsum (group_sizes self) = length (graph self).

(** The group-to-nodes mapping after [nd] left [g] for [newest]. *)
Definition moved (g_n : list (list node)) (nd : node) (g newest : nat)
    (s t : list node) : list (list node) :=
  <[newest := set_add nd t]> (<[g := filter (fun x => x ≠ nd) s]> g_n).

Definition assigned (n_g : gmap node nat) (g_n : list (list node)) (seen : list node) : Prop :=
  Forall NoDup g_n
  ∧ (∀ nd g, n_g !! nd = Some g ↔ in_group g_n nd g)
  ∧ (∀ nd, nd ∈ seen ↔ is_Some (n_g !! nd)).

(** ** Independence of the logger *)

(** The keys of [map_g_n] are the groups. *)
Definition keys_ok (self : Autopart) : Prop := length (map_g_n self) = k self.

(** A computation whose result and whose effect on the object do not
    depend on the logger, from objects that satisfy [Pre]. *)
Definition blind {A} (Pre : Autopart → Prop) (m : MW A) (Post : A → Autopart → Prop)
  : Prop :=
  ∀ wd1 wd2, obj wd1 = obj wd2 → Pre (obj wd1) →
    (m wd1).1 = (m wd2).1
    ∧ obj (m wd1).2 = obj (m wd2).2
    ∧ (∀ a, (m wd1).1 = Ok a → Post a (obj (m wd1).2)).

Definition blind_loop (f : World → option (result unit * World)) : Prop :=
  ∀ wd1 wd2, obj wd1 = obj wd2 → keys_ok (obj wd1) →
    match f wd1, f wd2 with
    | None, None => True
    | Some (r1, wd1'), Some (r2, wd2') =>
        r1 = r2 ∧ obj wd1' = obj wd2' ∧ (is_ok r1 → keys_ok (obj wd1'))
    | _, _ => False
    end.

(** What a caller can observe of a finished construction. *)
Definition outcome (o : option (result unit * World))
  : option (result unit * list (list node) * result R) :=
  match o with
  | None => None
  | Some (r, wd) => Some (r, clusters (obj wd), total_cost (obj wd))
  end.

Definition keeps_keys {A} (m : M A) : Prop :=
  ∀ self a self', keys_ok self → m self = (Ok a, self') → keys_ok self'.

(** ** Deciding comparisons between sums of logarithms *)

Inductive lexpr : Type :=
| LZ (z : Z)
| LN (n : nat)
| LQ (q : Q)
| LLogQ (q : Q)
| LLogZ (z : Z)
| LAdd (a b : lexpr)
| LSub (a b : lexpr)
| LMul (a b : lexpr)
| LDiv (a b : lexpr)
| LOpp (a : lexpr).

Fixpoint denote (e : lexpr) : R :=
  match e with
  | LZ z => IZR z
  | LN n => INR n
  | LQ q => Q2R q
  | LLogQ q => log2R (Q2R q)
  | LLogZ z => log2R (IZR z)
  | LAdd a b => denote a + denote b
  | LSub a b => denote a - denote b
  | LMul a b => denote a * denote b
  | LDiv a b => denote a / denote b
  | LOpp a => - denote a
  end%R.

(** A constant plus a sum of [coefficient * log2 argument]. *)
Definition lin : Type := Q * list (Q * Q).

Definition lsum (l : list (Q * Q)) : R :=
  fold_right (fun cq acc => Q2R cq.1 * log2R (Q2R cq.2) + acc)%R 0%R l.

Definition lin_eval (l : lin) : R := (Q2R l.1 + lsum l.2)%R.

Definition lin_scale (s : Q) (l : lin) : lin :=
  ((s * l.1)%Q, (fun cq : Q * Q => ((s * cq.1)%Q, cq.2)) <$> l.2).

Definition lin_add (a b : lin) : lin := ((a.1 + b.1)%Q, a.2 ++ b.2).

Fixpoint norm (e : lexpr) : option lin :=
  match e with
  | LZ z => Some (inject_Z z, [])
  | LN n => Some (inject_Z (Z.of_nat n), [])
  | LQ q => Some (q, [])
  | LLogQ q => Some (0%Q, [(1%Q, q)])
  | LLogZ z => Some (0%Q, [(1%Q, inject_Z z)])
  | LAdd a b => la ← norm a; lb ← norm b; Some (lin_add la lb)
  | LSub a b => la ← norm a; lb ← norm b; Some (lin_add la (lin_scale (-1) lb))
  | LOpp a => la ← norm a; Some (lin_scale (-1) la)
  | LMul a b =>
      la ← norm a; lb ← norm b;
      match la.2, lb.2 with
      | [], _ => Some (lin_scale la.1 lb)
      | _, [] => Some (lin_scale lb.1 la)
      | _, _ => None
      end
  | LDiv a b =>
      la ← norm a; lb ← norm b;
      match lb.2 with
      | [] => if Qeq_bool lb.1 0 then None else Some (lin_scale (/ lb.1) la)
      | _ => None
      end
  end.

Definition qpow_pos (q : Q) (p : positive) : Q := Pos.iter (Qmult q) 1%Q p.

Definition qpow (q : Q) (z : Z) : Q :=
  match z with
  | Z0 => 1%Q
  | Zpos p => qpow_pos q p
  | Zneg p => (/ qpow_pos q p)%Q
  end.

(** The integer a rational is, when it is one. *)
Definition Qint (x : Q) : option Z :=
  if (Qnum x mod Zpos (Qden x) =? 0)%Z then Some (Qnum x / Zpos (Qden x))%Z else None.

(** A common denominator of the constant and the coefficients. *)
Definition lin_den (l : lin) : positive :=
  fold_right (fun cq acc => Z.to_pos (Z.lcm (Zpos (Qden cq.1)) (Zpos acc))) (Qden l.1) l.2.

(** [2 ^ (d * c) * prod (q_i ^ (d * c_i))] where all exponents are integers
    and all [q_i] are positive. *)
Fixpoint terms_power (d : Q) (l : list (Q * Q)) : option Q :=
  match l with
  | [] => Some 1%Q
  | (c, q) :: rest =>
      n ← Qint (d * c)%Q;
      p ← terms_power d rest;
      if Qle_bool q 0 then None else Some (qpow q n * p)%Q
  end.

Definition lin_power (l : lin) : option Q :=
  let d := inject_Z (Zpos (lin_den l)) in
  n ← Qint (d * l.1)%Q;
  p ← terms_power d l.2;
  Some (qpow 2 n * p)%Q.

Definition Qlt_bool (x y : Q) : bool := (Qnum x * Zpos (Qden y) <? Qnum y * Zpos (Qden x))%Z.

Definition check_lt (a b : lexpr) : bool :=
  match norm (LSub a b) with
  | Some l => match lin_power l with Some p => Qlt_bool p 1 | None => false end
  | None => false
  end.

Definition check_le (a b : lexpr) : bool :=
  match norm (LSub a b) with
  | Some l => match lin_power l with Some p => Qle_bool p 1 | None => false end
  | None => false
  end.

(** ** Stepping through the loops *)

(** STEP 1 of the inner loop without its log messages. *)
Fixpoint assignment (self : Autopart) (nds : list node) (n_g : gmap node nat)
    (g_n : list (list node)) : result (gmap node nat * list (list node)) :=
  match nds with
  | [] => Ok (n_g, g_n)
  | nd :: rest =>
      next_grp ← next_group_of self nd;
      s ← of_option KeyError (g_n !! next_grp);
      cur ← of_option KeyError (map_n_g self !! nd);
      assignment self rest (<[nd := next_grp]> n_g) (<[next_grp := set_add nd s]> g_n)
  end.

(** ** The graph with one node *)

Definition single_node : Graph := mkGraph [0] [[0%Z]].

Definition single_node_start : Autopart :=
  Eval vm_compute in (initial_object single_node).2.

Definition single_node_added : Autopart :=
  Eval vm_compute in (_add_new_group single_node_start).2.

Definition single_node_split : Autopart :=
  Eval vm_compute in (_move_node_to_new_group 0 single_node_added).2.

(** ** Graphs with a self-loop *)

(** A self-loop on node 0 and the edges 0-2 and 1-2. *)
Definition loop_triangle : Graph :=
  mkGraph [0; 1; 2] [[1; 0; 1]; [0; 0; 1]; [1; 1; 0]]%Z.

Definition loop_triangle_added : Autopart :=
  Eval vm_compute in (_add_new_group (initial_object loop_triangle).2).2.

Definition loop_triangle_moved : Autopart :=
  Eval vm_compute in (_move_node_to_new_group 0 loop_triangle_added).2.

(** A self-loop on node 0 and the edge 0-1. *)
Definition loop_edge : Graph := mkGraph [0; 1] [[1; 1]; [1; 0]]%Z.

Definition loop_edge_start : Autopart :=
  Eval vm_compute in (initial_object loop_edge).2.

Definition loop_edge_added : Autopart :=
  Eval vm_compute in (_add_new_group loop_edge_start).2.

Definition loop_edge_moved : Autopart :=
  Eval vm_compute in (_move_node_to_new_group 0 loop_edge_added).2.

(** ** The cost along the inner loop *)

(** Three nodes with the arcs 1->0, 1->2, 2->0, 2->1. *)
Definition two_sources : Graph :=
  mkGraph [0; 1; 2] [[0; 0; 0]; [1; 0; 1]; [1; 1; 0]]%Z.

Definition two_sources_start : Autopart :=
  Eval vm_compute in (initial_object two_sources).2.

Definition two_sources_added : Autopart :=
  Eval vm_compute in (_add_new_group two_sources_start).2.

Definition two_sources_moved0 : Autopart :=
  Eval vm_compute in (_move_node_to_new_group 0 two_sources_added).2.

Definition two_sources_moved1 : Autopart :=
  Eval vm_compute in (_move_node_to_new_group 1 two_sources_moved0).2.

Definition two_sources_split : Autopart :=
  Eval vm_compute in (_move_node_to_new_group 2 two_sources_moved1).2.

(** The pairs (total cost before, total cost after) of the rounds the inner
    loop runs. *)
Fixpoint inner_loop_trace (fuel : nat) (inner_loop_it : nat) (wd : World) : list (R * R) :=
  match fuel with
  | O => []
  | S fuel' =>
      match inner_iteration inner_loop_it wd with
      | (Raise e, wd') => []
      | (Ok (prev_total_cost, cur), wd') =>
          (prev_total_cost, cur) ::
          (if Rlt_dec (prev_total_cost - cur) epsilon then []
           else inner_loop_trace fuel' (S inner_loop_it)
                  (logging_debug (Debug_iteration_inner (S inner_loop_it)) wd').2)
      end
  end.

(** Two nodes, and one arc from node 1 to itself. *)
Definition lone_loop : Graph := mkGraph [0; 1] [[0; 0]; [0; 1]]%Z.

Definition lone_loop_start : Autopart :=
  Eval vm_compute in (initial_object lone_loop).2.

Definition lone_loop_added : Autopart :=
  Eval vm_compute in (_add_new_group lone_loop_start).2.

Definition lone_loop_moved0 : Autopart :=
  Eval vm_compute in (_move_node_to_new_group 0 lone_loop_added).2.

Definition lone_loop_split : Autopart :=
  Eval vm_compute in (_move_node_to_new_group 1 lone_loop_moved0).2.

(** ** Small objects *)

(** Six nodes in three groups of sizes 3, 1 and 2; the matrix has no edge. *)
Definition st_three_groups : Autopart :=
  Eval vm_compute in
  mkAutopart [0; 1; 2; 3; 4; 5] (replicate 6 (replicate 6 0%Z)) 3
    [[0; 1; 2]; [3]; [4; 5]]
    (list_to_map [(0, 0); (1, 0); (2, 0); (3, 1); (4, 2); (5, 2)])
    (enumerate_map [0; 1; 2; 3; 4; 5]) 0 [] [].

(** Two nodes joined by the arcs 0->1 and 1->0. *)
Definition two_cycle : Graph := mkGraph [0; 1] [[0; 1]; [1; 0]]%Z.

Definition two_cycle_start : Autopart :=
  Eval vm_compute in (initial_object two_cycle).2.

Definition single_edge_start : Autopart :=
  Eval vm_compute in (initial_object single_edge).2.

(** [two_cycle] with its two nodes in two groups. *)
Definition two_cycle_split : Autopart :=
  Eval vm_compute in
    (_move_node_to_new_group 1 (_add_new_group two_cycle_start).2).2.

(** ** A whole construction *)

Definition single_edge_added : Autopart :=
  Eval vm_compute in (_add_new_group single_edge_start).2.

Definition single_edge_moved0 : Autopart :=
  Eval vm_compute in (_move_node_to_new_group 0 single_edge_added).2.

Definition single_edge_split : Autopart :=
  Eval vm_compute in (_move_node_to_new_group 1 single_edge_moved0).2.

(** ** The costs are not negative *)

(** The cached weights and densities are the ones [_block_weight] and
    [_block_density] compute. *)
Definition up_to_date (self : Autopart) : Prop :=
  compute_w self = Ok (w self) ∧ compute_P self = Ok (P self).

(** Every cached weight lies between 0 and the size of its block. *)
Definition weights_ok (self : Autopart) : Prop :=
  ∀ i j wt n, block_weight self i j = Ok wt → block_size self i j = Ok n →
    (0 <= wt <= Z.of_nat n)%Z.

(** ** What every step of a construction keeps *)

(** A triple for the computations on the world: from an object that
    satisfies [Pre], a result [a] comes with an object that satisfies
    [Post a], and an exception with one that satisfies [Exc]. *)
Definition triple {A} (Pre : Autopart → Prop) (m : MW A)
    (Post : A → Autopart → Prop) (Exc : Autopart → Prop) : Prop :=
  ∀ wd, Pre (obj wd) →
    match m wd with
    | (Ok a, wd') => Post a (obj wd')
    | (Raise _, wd') => Exc (obj wd')
    end.

(** The object is well formed, stands for the graph of [self0], and its
    cached weights are up to date. *)
Definition stands_for (self0 self : Autopart) : Prop :=
  wf self ∧ same_graph self0 self ∧ up_to_date self.

(** The entry (i, j) of the adjacency matrix the constructor was given. *)
Definition input_cell (gr : Graph) (i j : nat) : result Z :=
  row ← of_option IndexError (graph_adjacency gr !! i);
  of_option IndexError (row !! j).

(** ** What the cached weights count *)

(** The matrix entry for a pair of nodes, 0 where there is none. *)
Definition weight_of (self : Autopart) (a b : node) : Z :=
  match adjacency self a b with
  | Ok v => v
  | Raise _ => 0%Z
  end.

(** The number of edges from the nodes [s] to the nodes [t]. *)
Definition edges_between (self : Autopart) (s t : list node) : Z :=
  Zsum ((fun a => Zsum (weight_of self a <$> t)) <$> s).

(** The rows are in the order of the groups. *)
Definition rows_by_group (self : Autopart) : Prop :=
  NoDup (concat (map_g_n self))
  ∧ map_n_r self = enumerate_map (concat (map_g_n self))
  ∧ square_n (length (concat (map_g_n self))) (adj_matrix self).

(** ** The prediction of the entropy without a node *)

(** One round of the loop of [group_entropy_per_node_exclude]. *)
Definition exclude_step (self : Autopart) (group_i x : nat) (acc : result R) (j : nat)
  : result R :=
  entropy ← acc;
  '(n_rj, n_jr, w_rj, w_jr, p_rj, p_jr) ← exclude_block self group_i x j;
  l1 ← log2 p_rj;
  l2 ← log2 (1 - p_rj)%Q;
  let entropy := (entropy - (IZR w_rj * l1 + IZR (n_rj - w_rj) * l2))%R in
  l3 ← log2 p_jr;
  l4 ← log2 (1 - p_jr)%Q;
  Ok (entropy - (IZR w_jr * l3 + IZR (n_jr - w_jr) * l4))%R.

(** ** The cost of shifting a node *)

(** One round of the loop of [rearrange_cost]. *)
Definition rearrange_step (self : Autopart) (i x : nat) (acc : result R) (j : nat)
  : result R :=
  cost ← acc;
  rw ← row_weight self x j;
  pij ← block_density self i j;
  l1 ← log2 pij;
  nj ← group_size self j;
  rw' ← row_weight self x j;
  pij' ← block_density self i j;
  l2 ← log2 (1 - pij')%Q;
  let cost := (cost - (IZR rw * l1 + IZR (Z.of_nat nj - rw') * l2))%R in
  cw ← col_weight self x j;
  pji ← block_density self j i;
  l3 ← log2 pji;
  nj' ← group_size self j;
  cw' ← col_weight self x j;
  pji' ← block_density self j i;
  l4 ← log2 (1 - pji')%Q;
  Ok (cost - (IZR cw * l3 + IZR (Z.of_nat nj' - cw') * l4))%R.

(** * Lemmas *)

(** ** Sums, [mapM] and the cost of the group sizes *)

Lemma Zsum_from (l : list Z) (a : Z) : fold_left Z.add l a = (a + Zsum l)%Z.
Proof.
  unfold Zsum. revert a. induction l as [|x l IH]; intros a; simpl; [lia|].
  rewrite (IH (a + x)%Z), (IH (0 + x)%Z). lia.
Qed.

Lemma Zsum_nil : Zsum [] = 0%Z. Proof. reflexivity. Qed.

Lemma Zsum_cons x l : Zsum (x :: l) = (x + Zsum l)%Z.
Proof. unfold Zsum at 1. simpl. apply Zsum_from. Qed.

Lemma Zsum_app l1 l2 : Zsum (l1 ++ l2) = (Zsum l1 + Zsum l2)%Z.
Proof. induction l1; simpl; rewrite ?Zsum_nil, ?Zsum_cons; lia. Qed.

Lemma Zsum_reverse l : Zsum (reverse l) = Zsum l.
Proof. induction l; [done|]. rewrite reverse_cons, Zsum_app, !Zsum_cons, Zsum_nil. lia. Qed.

Lemma nsum_from (l : list nat) (a : nat) : fold_left Nat.add l a = a + nsum l.
Proof.
  unfold nsum. revert a. induction l as [|x l IH]; intros a; simpl; [lia|].
  rewrite (IH (a + x)), (IH x). lia.
Qed.

Lemma nsum_nil : nsum [] = 0. Proof. reflexivity. Qed.

Lemma nsum_cons x l : nsum (x :: l) = x + nsum l.
Proof. unfold nsum at 1. simpl. apply nsum_from. Qed.

Lemma nsum_app l1 l2 : nsum (l1 ++ l2) = nsum l1 + nsum l2.
Proof. induction l1; simpl; rewrite ?nsum_nil, ?nsum_cons; lia. Qed.

Lemma nsum_reverse l : nsum (reverse l) = nsum l.
Proof. induction l; [done|]. rewrite reverse_cons, nsum_app, !nsum_cons, nsum_nil. lia. Qed.

Lemma Zsum_of_nat l : Zsum (Z.of_nat <$> l) = Z.of_nat (nsum l).
Proof. induction l; [done|]. rewrite fmap_cons, Zsum_cons, nsum_cons. lia. Qed.

Lemma mapM_nil {A B} (f : A → result B) : mapM f [] = Ok [].
Proof. reflexivity. Qed.

Lemma mapM_cons {A B} (f : A → result B) x l :
  mapM f (x :: l) = y ← f x; ys ← mapM f l; Ok (y :: ys).
Proof. reflexivity. Qed.

Lemma mapM_Ok_fmap {A B} (f : A → result B) (g : A → B) l :
  (∀ x, x ∈ l → f x = Ok (g x)) → mapM f l = Ok (g <$> l).
Proof.
  induction l as [|x l IH]; intros H; [done|].
  rewrite mapM_cons, H by left. simpl. rewrite IH; [done|].
  intros y Hy. apply H. by right.
Qed.

Lemma mapM_Ok_inv {A B} (f : A → result B) l ys :
  mapM f l = Ok ys → Forall2 (fun x y => f x = Ok y) l ys.
Proof.
  revert ys. induction l as [|x l IH]; intros ys; rewrite ?mapM_nil, ?mapM_cons.
  - intros [= <-]. constructor.
  - destruct (f x) as [y|e] eqn:E; simpl; [|done].
    destruct (mapM f l) as [zs|e]; simpl; [|done].
    intros [= <-]. constructor; auto.
Qed.

Lemma mapM_Raise_inv {A B} (f : A → result B) l e :
  mapM f l = Raise e → ∃ x, x ∈ l ∧ f x = Raise e.
Proof.
  induction l as [|x l IH]; rewrite ?mapM_nil, ?mapM_cons; [done|].
  destruct (f x) as [y|e'] eqn:E; simpl.
  - destruct (mapM f l) as [zs|e']; simpl; [done|].
    intros [= ->]. destruct IH as (z & ? & ?); [done|]. exists z. split; [by right|done].
  - intros [= ->]. exists x. split; [by left|done].
Qed.

Lemma mapM_is_ok {A B} (f : A → result B) l :
  (∀ x, x ∈ l → is_ok (f x)) → is_ok (mapM f l).
Proof.
  induction l as [|x l IH]; intros H; [by eexists|].
  rewrite mapM_cons. destruct (H x) as [y ->]; [by left|]. simpl.
  destruct IH as [ys ->]; [intros; apply H; by right|]. by eexists.
Qed.

Lemma fold_left_Raise {A B} (step : result B → A → result B) l e :
  (∀ x, step (Raise e) x = Raise e) → fold_left step l (Raise e) = Raise e.
Proof. intros H. induction l; simpl; [done|]. by rewrite H. Qed.

Lemma fold_sum_mapM {A} (step : result Z → A → result Z) (f : A → result Z) l (a : Z) :
  (∀ res x, step (Ok res) x = c ← f x; Ok (res + c)%Z) →
  (∀ e x, step (Raise e) x = Raise e) →
  fold_left step l (Ok a) = (fun s => a + s)%Z <$> (Zsum <$> mapM f l).
Proof.
  intros Hok Herr. revert a. induction l as [|x l IH]; intros a.
  - simpl. f_equal. rewrite Zsum_nil. lia.
  - rewrite mapM_cons. simpl. rewrite Hok. destruct (f x) as [c|e]; simpl.
    + rewrite IH. destruct (mapM f l); simpl; [|done]. f_equal. rewrite Zsum_cons. lia.
    + by apply fold_left_Raise.
Qed.

Lemma group_size_Ok self g s :
  map_g_n self !! g = Some s → group_size self g = Ok (length s).
Proof. unfold group_size. by intros ->. Qed.

Lemma group_sizes_mapM self :
  length (map_g_n self) = k self →
  mapM (group_size self) (groups self) = Ok (group_sizes self).
Proof.
  intros Hlen. unfold groups, group_sizes.
  assert (∀ l n, l = map_g_n self → n = length l →
     mapM (group_size self) (seq 0 n) = Ok (length <$> l)) as Hgen.
  { intros l n -> ->.
    rewrite (mapM_Ok_fmap _ (fun g => length (default [] (map_g_n self !! g)))).
    - f_equal. apply list_eq. intros i. rewrite !list_lookup_fmap.
      destruct (decide (i < length (map_g_n self))) as [Hi|Hi].
      + rewrite lookup_seq_lt by done. simpl.
        destruct (lookup_lt_is_Some_2 _ _ Hi) as [s Hs]. by rewrite Hs.
      + rewrite lookup_seq_ge by lia. rewrite lookup_ge_None_2 by lia. done.
    - intros g Hg. apply elem_of_seq in Hg.
      destruct (lookup_lt_is_Some_2 (map_g_n self) g) as [s Hs]; [lia|].
      rewrite Hs. by apply group_size_Ok. }
  rewrite <- Hlen. by apply Hgen.
Qed.

Lemma length_sorted_reverse l : length (sorted_reverse l) = length l.
Proof. unfold sorted_reverse. by rewrite merge_sort_Permutation. Qed.

Lemma a_val_fold (sizes : list nat) n g (acc : Z) :
  g + n ≤ length sizes →
  fold_left (fun (acc : result Z) (g : nat) =>
       val ← acc; s ← of_option IndexError (sizes !! g); Ok (val + Z.of_nat s)%Z)
    (seq g n) (Ok acc)
  = Ok (acc + Zsum (Z.of_nat <$> take n (drop g sizes)))%Z.
Proof.
  revert g acc. induction n as [|n IH]; intros g acc Hlen.
  - simpl. rewrite Zsum_nil. f_equal. lia.
  - simpl seq. simpl fold_left.
    destruct (lookup_lt_is_Some_2 sizes g) as [s Hs]; [lia|].
    rewrite Hs. simpl. rewrite IH by lia. f_equal.
    rewrite (drop_S _ _ _ Hs), firstn_cons, fmap_cons, Zsum_cons. lia.
Qed.

Lemma a_val_spec self sizes g :
  length sizes = k self → g ≤ k self →
  a_val self sizes g = Ok (spec_remaining (k self) sizes g).
Proof.
  intros Hlen Hg. unfold a_val, spec_remaining. rewrite a_val_fold by lia. done.
Qed.

Lemma description_cost_group_sizes_eq (self : Autopart) :
  length (map_g_n self) = k self →
  description_cost_group_sizes self
  = spec_description_cost_group_sizes (k self) (group_sizes self).
Proof.
  intros Hlen. unfold description_cost_group_sizes, spec_description_cost_group_sizes.
  destruct (decide (k self = 1)) as [|Hk]; [done|].
  rewrite group_sizes_mapM by done. simpl.
  rewrite (fold_sum_mapM _
    (fun g => v ← a_val self (sorted_reverse (group_sizes self)) g; ceil_log2 v)).
  2:{ intros res x. simpl. destruct (a_val _ _ x); simpl; [|done]. by destruct (ceil_log2 _). }
  2:{ done. }
  assert (length (sorted_reverse (group_sizes self)) = k self) as Hs.
  { rewrite length_sorted_reverse. unfold group_sizes. by rewrite length_fmap. }
  assert (∀ l, (∀ g, g ∈ l → g ≤ k self) →
     mapM (fun x => v ← a_val self (sorted_reverse (group_sizes self)) x; ceil_log2 v) l
     = mapM (fun g => ceil_log2 (spec_remaining (k self) (sorted_reverse (group_sizes self)) g)) l)
    as Hgen.
  { induction l as [|x l IH]; intros Hl; [done|].
    rewrite !mapM_cons, a_val_spec by (try done; apply Hl; by left). simpl.
    rewrite IH; [done|]. intros; apply Hl; by right. }
  rewrite Hgen by (intros g Hg; apply elem_of_seq in Hg; lia).
  destruct (mapM _ _) as [zs|]; simpl; [|done]. f_equal.
Qed.

(** ** When the cost of the group sizes has no value *)

Lemma ceil_log2_Raise a : ceil_log2 a = Raise ValueError ↔ (a <= 0)%Z.
Proof.
  unfold ceil_log2. destruct (Z.leb_spec a 0); split; try done; lia.
Qed.

Lemma ceil_log2_Ok a : is_ok (ceil_log2 a) ↔ (0 < a)%Z.
Proof.
  unfold ceil_log2, is_ok. destruct (Z.leb_spec a 0) as [Ha|Ha]; split; intros Hx; try lia.
  - by destruct Hx.
  - by eexists.
Qed.

Lemma sorted_reverse_ascending (l : list nat) :
  reverse (sorted_reverse l) = merge_sort le l.
Proof.
  apply (Sorted_unique le).
  - unfold sorted_reverse.
    refine (Sorted_reverse (flip le) _ _). apply Sorted_merge_sort.
    intros x y. unfold flip. lia.
  - apply Sorted_merge_sort. intros x y. lia.
  - rewrite reverse_Permutation. unfold sorted_reverse.
    by rewrite !merge_sort_Permutation.
Qed.

Lemma remaining_smallest (sizes : list nat) (m : nat) :
  m ≤ length sizes →
  spec_remaining (length sizes) (sorted_reverse sizes) (length sizes - m)
  = (1 - Z.of_nat m + Z.of_nat (nsum (smallest m sizes)))%Z.
Proof.
  intros Hm. unfold spec_remaining, smallest.
  rewrite <- sorted_reverse_ascending, take_reverse, nsum_reverse.
  rewrite length_sorted_reverse, Zsum_of_nat.
  rewrite take_ge by (rewrite length_drop, length_sorted_reverse; lia).
  lia.
Qed.

Lemma group_sizes_cost_Raise (self : Autopart) :
  length (map_g_n self) = k self → 1 < k self →
  (description_cost_group_sizes self = Raise ValueError
   ↔ too_small (k self) (group_sizes self)).
Proof.
  intros Hlen Hk. rewrite description_cost_group_sizes_eq by done.
  unfold spec_description_cost_group_sizes, too_small.
  destruct (decide (k self = 1)); [lia|].
  assert (length (group_sizes self) = k self) as Hl
    by (unfold group_sizes; by rewrite length_fmap).
  split.
  - destruct (mapM _ _) as [zs|e] eqn:E; simpl; [done|]. intros [= ->].
    apply mapM_Raise_inv in E as (g & Hg & HR).
    apply elem_of_seq in Hg. apply ceil_log2_Raise in HR.
    exists (k self - g). split; [lia|].
    rewrite <- Hl in HR at 1.
    replace g with (length (group_sizes self) - (k self - g)) in HR by lia.
    rewrite remaining_smallest in HR by lia. lia.
  - intros (m & Hm & Hsum).
    destruct (mapM _ _) as [zs|e] eqn:E; simpl.
    + apply mapM_Ok_inv in E.
      assert (k self - m < length (seq 0 (k self - 1))) as Hi by (rewrite length_seq; lia).
      destruct (lookup_lt_is_Some_2 _ _ Hi) as [g Hg].
      destruct (Forall2_lookup_l _ _ _ _ _ E Hg) as (c & _ & Hc).
      apply lookup_seq in Hg as [-> _]. simpl in Hc.
      assert (is_ok (ceil_log2 (spec_remaining (k self) (sorted_reverse (group_sizes self))
                                   (k self - m)))) as Hok by (by eexists).
      apply ceil_log2_Ok in Hok.
      rewrite <- Hl in Hok. rewrite remaining_smallest in Hok by lia. lia.
    + apply mapM_Raise_inv in E as (g & _ & HR).
      unfold ceil_log2 in HR. by destruct (_ <=? _)%Z; simplify_eq.
Qed.

Lemma log_star_is_ok (x : Z) : (0 < x)%Z → is_ok (log_star x).
Proof.
  intros Hx. unfold log_star. destruct (Z.leb_spec x 0); [lia|]. by eexists.
Qed.

(** ** The cache tables *)

Lemma table_set_poke {A} (t t' : list (list A)) i j v :
  table_set t i j v = Ok t' → t' = poke t i j v.
Proof.
  unfold table_set, poke. destruct (t !! i) as [row|]; simpl; [|done].
  case_decide; [|done]. by intros [= <-].
Qed.

Lemma table_get_set {A} (t t' : list (list A)) i j v :
  table_set t i j v = Ok t' → table_get t' i j = Ok v.
Proof.
  unfold table_set, table_get. destruct (t !! i) as [row|] eqn:E; simpl; [|done].
  case_decide; [|done]. intros [= <-].
  rewrite list_lookup_insert_eq by (by eapply lookup_lt_Some). simpl.
  by rewrite list_lookup_insert_eq.
Qed.

Lemma table_set_restore {A} (t t' : list (list A)) i j v x :
  table_get t i j = Ok v → table_set t i j x = Ok t' → table_set t' i j v = Ok t.
Proof.
  unfold table_set, table_get. destruct (t !! i) as [row|] eqn:E; simpl; [|done].
  destruct (row !! j) as [v0|] eqn:E2; simpl; [|done]. intros [= ->].
  case_decide; [|done]. intros [= <-].
  rewrite list_lookup_insert_eq by (by eapply lookup_lt_Some). simpl.
  rewrite length_insert. case_decide; [|done]. f_equal.
  rewrite list_insert_insert_eq, list_insert_insert_eq.
  rewrite (list_insert_id row) by done. by rewrite list_insert_id.
Qed.

Lemma table_get_poke_ne {A} (t : list (list A)) i j i' j' v :
  (i', j') ≠ (i, j) → table_get (poke t i j v) i' j' = table_get t i' j'.
Proof.
  intros Hne. unfold poke, table_get.
  destruct (t !! i) as [row|] eqn:E; [|done].
  destruct (decide (i' = i)) as [->|Hi].
  - rewrite list_lookup_insert_eq by (by eapply lookup_lt_Some). rewrite E. simpl.
    rewrite list_lookup_insert_ne; [done|]. congruence.
  - by rewrite list_lookup_insert_ne.
Qed.

Lemma block_size_set_w self x i j : block_size (set_w x self) i j = block_size self i j.
Proof. reflexivity. Qed.

Lemma only_block_changed_refl self i j : only_block_changed self self i j.
Proof. by repeat split. Qed.

Lemma only_block_changed_w self i j wt :
  only_block_changed self (set_w (poke (w self) i j wt) self) i j.
Proof.
  repeat split; try done. by apply table_get_poke_ne.
Qed.

Lemma only_block_changed_what_if self i j wt p :
  only_block_changed self (what_if self i j wt p) i j.
Proof.
  repeat split; try done; by apply table_get_poke_ne.
Qed.

Lemma table_set_is_ok {A} (t : list (list A)) i j v x :
  table_get t i j = Ok v → ∃ t', table_set t i j x = Ok t'.
Proof.
  unfold table_set, table_get. destruct (t !! i) as [row|] eqn:E; simpl; [|done].
  destruct (row !! j) as [v0|] eqn:E2; simpl; [|done]. intros _.
  rewrite decide_True by (by eapply lookup_lt_Some). by eexists.
Qed.

(** The ways in which [outlier_score] raises. *)
Lemma outlier_score_raises i j self e self' :
  outlier_score i j self = (Raise e, self') →
  only_block_changed self self' i j
  ∧ (self' = self
       ∧ (table_get (w self) i j = Raise e
          ∨ table_get (P self) i j = Raise e
          ∨ total_cost self = Raise e)
     ∨ ∃ wt, table_get (w self) i j = Ok wt ∧ wt ≠ 0%Z
         ∧ is_ok (table_get (P self) i j) ∧ is_ok (total_cost self)
         ∧ table_get (w self') i j = Ok (wt - 1)%Z
         ∧ (P self' = P self
              ∧ self' = set_w (poke (w self) i j (wt - 1)%Z) self
              ∧ (block_size self i j = Raise e
                 ∨ block_size self i j = Ok 0 ∧ e = ZeroDivisionError)
            ∨ ∃ n, block_size self i j = Ok n ∧ n ≠ 0
                ∧ self' = what_if self i j (wt - 1)
                            (inject_Z (wt - 1) / inject_Z (Z.of_nat n))%Q
                ∧ table_get (P self') i j
                  = Ok (inject_Z (wt - 1) / inject_Z (Z.of_nat n))%Q
                ∧ total_cost self' = Raise e)).
Proof.
  intros Hrun.
  unfold outlier_score, mbind, M_bind, reading, modify, mret, M_ret in Hrun.
  destruct (table_get (w self) i j) as [wt|e0] eqn:Ew.
  2:{ injection Hrun as <- <-. split; [apply only_block_changed_refl|].
      left. split; [done|]. by left. }
  destruct (Z.eqb_spec wt 0) as [->|Hwt]; [discriminate Hrun|].
  cbn beta iota in Hrun. rewrite ?Ew in Hrun. cbn beta iota in Hrun.
  destruct (table_get (P self) i j) as [p|e0] eqn:Ep; cbn beta iota in Hrun.
  2:{ injection Hrun as <- <-. split; [apply only_block_changed_refl|].
      left. split; [done|]. right. by left. }
  destruct (total_cost self) as [cost|e0] eqn:Ec; cbn beta iota in Hrun.
  2:{ injection Hrun as <- <-. split; [apply only_block_changed_refl|].
      left. split; [done|]. right. by right. }
  rewrite ?Ew in Hrun. cbn beta iota in Hrun.
  destruct (table_set_is_ok (w self) i j wt (wt - 1)%Z Ew) as [w' Ew'].
  rewrite Ew' in Hrun. cbn beta iota in Hrun. cbn [w set_w] in Hrun.
  rewrite (table_get_set _ _ _ _ _ Ew'), block_size_set_w in Hrun.
  cbn beta iota in Hrun.
  pose proof (table_get_set _ _ _ _ _ Ew') as Hget.
  pose proof (table_set_poke _ _ _ _ _ Ew') as Hw'.
  destruct (block_size self i j) as [n|e0] eqn:En; cbn beta iota in Hrun.
  2:{ injection Hrun as <- <-. subst w'. split; [apply only_block_changed_w|].
      right. exists wt. split; [done|]. split; [done|].
      split; [by eexists|]. split; [by eexists|]. split; [done|].
      left. split; [done|]. split; [done|]. by left. }
  destruct (decide (n = 0)) as [->|Hn]; cbn beta iota in Hrun.
  { injection Hrun as <- <-. subst w'. split; [apply only_block_changed_w|].
    right. exists wt. split; [done|]. split; [done|].
    split; [by eexists|]. split; [by eexists|]. split; [done|].
    left. split; [done|]. split; [done|]. by right. }
  cbn [P set_w set_P] in Hrun.
  destruct (table_set_is_ok (P self) i j p
              (inject_Z (wt - 1) / inject_Z (Z.of_nat n))%Q Ep) as [P' EP'].
  rewrite EP' in Hrun. cbn beta iota in Hrun.
  pose proof (table_get_set _ _ _ _ _ EP') as HgetP.
  pose proof (table_set_poke _ _ _ _ _ EP') as HP'.
  destruct (total_cost (set_P P' (set_w w' self))) as [cost'|e0] eqn:Ec';
    cbn beta iota in Hrun.
  { cbn [w set_w set_P P] in Hrun.
    rewrite (table_set_restore _ _ _ _ _ _ Ew Ew') in Hrun. cbn beta iota in Hrun.
    rewrite (table_set_restore _ _ _ _ _ _ Ep EP') in Hrun. discriminate Hrun. }
  injection Hrun as <- <-. subst w' P'.
  split; [apply only_block_changed_what_if|].
  right. exists wt. split; [done|]. split; [done|].
  split; [by eexists|]. split; [by eexists|]. split; [done|].
  right. exists n. split; [done|]. split; [done|]. split; [done|]. split; [done|]. done.
Qed.

Lemma outlier_score_fails_early i j self wt e :
  table_get (w self) i j = Ok wt → wt ≠ 0%Z → is_ok (table_get (P self) i j) →
  total_cost self = Raise e →
  outlier_score i j self = (Raise e, self).
Proof.
  intros Ew Hwt [p Ep] Ec.
  unfold outlier_score, mbind, M_bind, reading, modify, mret, M_ret.
  rewrite Ew. destruct (Z.eqb_spec wt 0) as [E0|_]; [by destruct Hwt|].
  cbn beta iota. rewrite Ep. cbn beta iota. rewrite Ec. cbn beta iota. by rewrite Ew.
Qed.

Lemma outlier_score_fails_late i j self wt n e :
  table_get (w self) i j = Ok wt → wt ≠ 0%Z → is_ok (table_get (P self) i j) →
  is_ok (total_cost self) → block_size self i j = Ok n → n ≠ 0 →
  total_cost (what_if self i j (wt - 1) (inject_Z (wt - 1) / inject_Z (Z.of_nat n))%Q)
  = Raise e →
  outlier_score i j self
  = (Raise e, what_if self i j (wt - 1) (inject_Z (wt - 1) / inject_Z (Z.of_nat n))%Q).
Proof.
  intros Ew Hwt [p Ep] [cost Ec] En Hn Ec'.
  destruct (table_set_is_ok (w self) i j wt (wt - 1)%Z Ew) as [w' Ew'].
  destruct (table_set_is_ok (P self) i j p
              (inject_Z (wt - 1) / inject_Z (Z.of_nat n))%Q Ep) as [P' EP'].
  unfold what_if in *.
  rewrite <- (table_set_poke _ _ _ _ _ Ew'), <- (table_set_poke _ _ _ _ _ EP') in *.
  unfold outlier_score, mbind, M_bind, reading, modify, mret, M_ret.
  rewrite Ew. destruct (Z.eqb_spec wt 0) as [E0|_]; [by destruct Hwt|].
  cbn beta iota. rewrite Ep. cbn beta iota. rewrite Ec. cbn beta iota.
  rewrite ?Ew. cbn beta iota. rewrite ?Ew. cbn beta iota.
  rewrite Ew'. cbn beta iota. cbn [w set_w].
  rewrite (table_get_set _ _ _ _ _ Ew'), block_size_set_w. cbn beta iota.
  rewrite En. cbn beta iota. rewrite decide_False by done. cbn beta iota.
  cbn [P set_w set_P]. rewrite EP'. cbn beta iota. by rewrite Ec'.
Qed.

(** ** Cached weights and densities *)

Ltac eval_model :=
  cbv -[Rplus Rminus Rmult Rdiv Ropp Rinv IZR INR Q2R log2R ln Rlt_dec Rgt_dec
        Rle_dec Rge_dec epsilon gmap_empty].

Lemma smoothed_bounds (wt n : Z) :
  (0 <= wt <= n)%Z → (0 < smoothed wt n)%Q ∧ (smoothed wt n < 1)%Q.
Proof.
  intros [H0 Hn]. unfold smoothed.
  assert (0 < inject_Z n + 1)%Q as Hpos.
  { unfold Qlt, inject_Z, Qplus. simpl. lia. }
  split.
  - apply Qlt_shift_div_l; [done|]. rewrite Qmult_0_l.
    unfold Qlt, inject_Z, Qplus. simpl. lia.
  - apply Qlt_shift_div_r; [done|]. rewrite Qmult_1_l.
    unfold Qlt, inject_Z, Qplus. simpl. lia.
Qed.

Lemma Zsum_bounds (l : list Z) (b : Z) :
  Forall (fun x => 0 <= x <= b)%Z l → (0 <= Zsum l <= Z.of_nat (length l) * b)%Z.
Proof.
  induction 1 as [|x l Hx Hl IH]; [rewrite Zsum_nil; simpl; lia|].
  rewrite Zsum_cons. cbn [length]. lia.
Qed.

Lemma row_slice_sum_bounds a row c_from c_to s :
  binary a → row_slice_sum a row c_from c_to = Ok s →
  (0 <= s <= Z.of_nat (c_to - c_from))%Z.
Proof.
  intros Hb. unfold row_slice_sum.
  destruct (a !! row) as [r|] eqn:E; simpl; [|done]. intros [= <-].
  assert (Forall (fun x => 0 <= x <= 1)%Z r) as Hr.
  { eapply (proj1 (Forall_forall _ _) Hb). by eapply list_elem_of_lookup_2. }
  assert (0 <= Zsum (take (c_to - c_from) (drop c_from r))
          <= Z.of_nat (length (take (c_to - c_from) (drop c_from r))) * 1)%Z as Hs'.
  { apply Zsum_bounds. by apply Forall_take, Forall_drop. }
  rewrite length_take in Hs'. lia.
Qed.

Lemma _block_weight_bounds self i j wt n :
  binary (adj_matrix self) →
  _block_weight self i j = Ok wt → block_size self i j = Ok n →
  (0 <= wt <= Z.of_nat n)%Z.
Proof.
  intros Hb. unfold _block_weight, block_size.
  destruct (group_start_idx self i) as [r_from|]; simpl; [|done].
  destruct (group_size self i) as [ni|]; simpl; [|done].
  destruct (group_start_idx self j) as [c_from|]; simpl; [|done].
  destruct (group_size self j) as [nj|]; simpl; [|done].
  intros Hw [= <-].
  destruct (_ && _); [|injection Hw as <-; lia].
  destruct (mapM _ _) as [sums|] eqn:E; simpl in Hw; [|done].
  injection Hw as <-.
  apply mapM_Ok_inv in E.
  assert (Forall (fun x => 0 <= x <= Z.of_nat nj)%Z sums) as Hs.
  { apply Forall_forall. intros s Hin.
    apply list_elem_of_lookup in Hin as [idx Hidx].
    destruct (Forall2_lookup_r _ _ _ _ _ E Hidx) as (r & _ & Hr).
    apply row_slice_sum_bounds in Hr; [|done]. lia. }
  apply Zsum_bounds in Hs.
  apply Forall2_length in E. rewrite length_seq in E.
  rewrite <- E in Hs. nia.
Qed.

Lemma mapM2_lookup {A} (f : nat → nat → result A) (l1 l2 : list nat) t i j v :
  mapM (fun x => mapM (fun y => f x y) l2) l1 = Ok t →
  table_get t i j = Ok v →
  ∃ x y, l1 !! i = Some x ∧ l2 !! j = Some y ∧ f x y = Ok v.
Proof.
  intros Hm Hg. apply mapM_Ok_inv in Hm. unfold table_get in Hg.
  destruct (t !! i) as [row|] eqn:Ei; simpl in Hg; [|done].
  destruct (row !! j) as [v'|] eqn:Ej; simpl in Hg; [|done]. injection Hg as ->.
  destruct (Forall2_lookup_r _ _ _ _ _ Hm Ei) as (x & Hx & Hrow).
  apply mapM_Ok_inv in Hrow.
  destruct (Forall2_lookup_r _ _ _ _ _ Hrow Ej) as (y & Hy & Hv).
  eauto.
Qed.

Lemma recalculate_inv self self' :
  _recalculate_block_properties self = (Ok tt, self') →
  ∃ w' P', compute_w self = Ok w' ∧ compute_P (set_w w' self) = Ok P'
           ∧ self' = set_P P' (set_w w' self).
Proof.
  unfold _recalculate_block_properties, mbind, M_bind, reading, modify. intros Hrun.
  destruct (compute_w self) as [w'|] eqn:Ew; [|done]. cbn beta iota in Hrun.
  destruct (compute_P (set_w w' self)) as [P'|] eqn:EP; [|done]. cbn beta iota in Hrun.
  injection Hrun as <-. by exists w', P'.
Qed.

(** ** Rearranging the matrix *)

Lemma switch_used get set order idx temp used a used' a' :
  switch get set order idx temp used a = (Ok used', a') →
  used' = list_to_set order ∪ used.
Proof.
  revert idx temp used a. induction order as [|num rest IH]; intros idx temp used a; simpl.
  - intros [= <- <-]. set_solver.
  - case_decide.
    + intros H'. apply IH in H'. set_solver.
    + destruct (if decide (idx ∈ used) then _ else _) as [temp'|]; [|done].
      destruct (match temp' !! num with Some _ => _ | None => _ end) as [a1|]; [|done].
      intros H'. apply IH in H'. set_solver.
Qed.

Lemma set_row_length a i r a' : set_row a i r = Ok a' → length a' = length a.
Proof. unfold set_row. case_decide; [|done]. intros [= <-]. apply length_insert. Qed.

Lemma switch_rows_bound n order idx temp used a used' a' :
  (∀ r, r ∈ order → r < n) → (∀ u, u ∈ used → u < n) → length a = n → idx ≤ n →
  switch get_row set_row order idx temp used a = (Ok used', a') →
  idx + length order ≤ n.
Proof.
  revert idx temp used a. induction order as [|num rest IH];
    intros idx temp used a Ho Hu Ha Hidx; simpl; [lia|].
  assert (num < n) as Hnum by (apply Ho; by left).
  assert (∀ r, r ∈ rest → r < n) as Ho' by (intros; apply Ho; by right).
  assert (∀ u, u ∈ ({[num]} ∪ used : gset nat) → u < n) as Hu'.
  { intros u [->%elem_of_singleton|?]%elem_of_union; auto. }
  case_decide as Heq.
  - intros H'. apply IH in H'; try done; lia.
  - destruct (decide (idx ∈ used)) as [Hin|Hin].
    + destruct (match temp !! num with Some _ => _ | None => _ end) as [a1|] eqn:E1; [|done].
      intros H'. apply IH in H'; try done.
      * lia.
      * transitivity (length a); [|done].
        destruct (temp !! num); [by eapply set_row_length|].
        unfold get_row in E1. destruct (a !! num) eqn:Ean; rewrite ?Ean in E1; simpl in E1; [|done].
        by eapply set_row_length.
      * apply Hu in Hin. lia.
    + unfold get_row at 1. destruct (a !! idx) as [line|] eqn:El; simpl; [|done].
      apply lookup_lt_Some in El.
      destruct (match <[idx:=line]> temp !! num with Some _ => _ | None => _ end)
        as [a1|] eqn:E1; [|done].
      intros H'. apply IH in H'; try done.
      * lia.
      * transitivity (length a); [|done].
        destruct (<[idx:=line]> temp !! num); [by eapply set_row_length|].
        unfold get_row in E1. destruct (a !! num) eqn:Ean; rewrite ?Ean in E1; simpl in E1; [|done].
        by eapply set_row_length.
      * lia.
Qed.

Lemma size_list_to_set_le (l : list nat) : size (list_to_set l : gset nat) ≤ length l.
Proof.
  induction l as [|x l IH]; [done|]. simpl.
  rewrite size_union_alt, size_singleton.
  assert (size (list_to_set (C:=gset nat) l ∖ {[x]}) ≤ size (list_to_set (C:=gset nat) l)) as Hd.
  { apply subseteq_size. set_solver. }
  lia.
Qed.

Lemma NoDup_of_size (l : list nat) :
  size (list_to_set l : gset nat) = length l → NoDup l.
Proof.
  induction l as [|x l IH]; [constructor|]. simpl. intros Hs.
  pose proof (size_list_to_set_le l) as Hle.
  destruct (decide (x ∈ l)) as [Hin|Hin].
  - exfalso.
    assert ({[x]} ∪ list_to_set l = (list_to_set l : gset nat)) as E by set_solver.
    rewrite E in Hs. lia.
  - constructor; [done|]. apply IH.
    rewrite size_union, size_singleton in Hs by set_solver. lia.
Qed.

Lemma rearrange_unfold g_n n_g self :
  _rearrange_matrix_and_mappings g_n n_g self =
  if bool_decide (size n_g = nsum (length <$> g_n)) then
    match order_row_of self g_n with
    | Raise e => (Raise e, self)
    | Ok order_row =>
        match switch get_row set_row order_row 0 ∅ ∅ (adj_matrix self) with
        | (Raise e, a1) => (Raise e, set_adj_matrix a1 self)
        | (Ok used, a1) =>
            if bool_decide (size used = length (graph self)) then
              match switch get_col set_col order_row 0 ∅ ∅ a1 with
              | (Raise e, a2) => (Raise e, set_adj_matrix a2 self)
              | (Ok used2, a2) =>
                  if bool_decide (size used2 = length (graph self)) then
                    _recalculate_block_properties (rearranged g_n n_g a2 self)
                  else (Raise AssertionError, set_adj_matrix a2 self)
              end
            else (Raise AssertionError, set_adj_matrix a1 self)
        end
    end
  else (Raise AssertionError, self).
Proof.
  unfold _rearrange_matrix_and_mappings, order_row_of, mbind, M_bind, assert, reading,
    modify, switch_lines.
  destruct (bool_decide _); [|done]. cbn beta iota.
  destruct (mapM _ _) as [order_row|]; [|done]. cbn beta iota.
  destruct (switch get_row _ _ _ _ _ _) as [[used|] a1]; [|done]. cbn beta iota.
  cbn [graph set_adj_matrix adj_matrix].
  destruct (bool_decide _); [|done]. cbn beta iota.
  destruct (switch get_col _ _ _ _ _ _) as [[used2|] a2]; [|by destruct self].
  cbn beta iota. cbn [graph set_adj_matrix adj_matrix].
  destruct (bool_decide _); [|by destruct self]. cbn beta iota.
  by destruct self.
Qed.

Lemma order_row_spec self g_n order_row :
  order_row_of self g_n = Ok order_row →
  Forall2 (fun nd r => map_n_r self !! nd = Some r) (concat g_n) order_row.
Proof.
  intros H. apply mapM_Ok_inv in H. eapply Forall2_impl; [done|].
  intros nd r. simpl. destruct (map_n_r self !! nd); simpl; congruence.
Qed.

(** Once the row pass and its assertion went through, the order is a
    permutation of the nodes. *)
Lemma row_pass_covers g_n self order_row used a1 :
  rows_ok self →
  order_row_of self g_n = Ok order_row →
  switch get_row set_row order_row 0 ∅ ∅ (adj_matrix self) = (Ok used, a1) →
  size used = length (graph self) →
  concat g_n ≡ₚ graph self.
Proof.
  intros (Hnd & Hlen & Hrows & Hdom & Hlt & Hinj) Eo Es Hused.
  apply order_row_spec in Eo.
  assert (∀ r, r ∈ order_row → r < length (graph self)) as Hbound.
  { intros r Hr. apply list_elem_of_lookup in Hr as [i Hi].
    destruct (Forall2_lookup_r _ _ _ _ _ Eo Hi) as (nd & _ & Hnd'). eauto. }
  pose proof (switch_used _ _ _ _ _ _ _ _ _ Es) as Hu.
  assert (0 + length order_row ≤ length (graph self)) as Hb.
  { eapply (switch_rows_bound (length (graph self))); [exact Hbound| |exact Hlen|lia|exact Es].
    intros u Hin. set_solver. }
  rewrite Hu, union_empty_r_L in Hused.
  pose proof (size_list_to_set_le order_row) as Hle.
  assert (NoDup order_row) as Hndr by (apply NoDup_of_size; simpl in *; lia).
  assert (length order_row = length (graph self)) as Hl by (simpl in *; lia).
  assert (NoDup (concat g_n)) as Hndn.
  { apply NoDup_alt. intros i j nd Hi Hj.
    destruct (Forall2_lookup_l _ _ _ _ _ Eo Hi) as (r1 & Hr1 & Hm1).
    destruct (Forall2_lookup_l _ _ _ _ _ Eo Hj) as (r2 & Hr2 & Hm2).
    assert (r1 = r2) as -> by congruence.
    eapply NoDup_lookup; eauto. }
  apply submseteq_length_Permutation.
  - apply NoDup_submseteq; [done|]. intros nd Hin. apply Hdom.
    apply list_elem_of_lookup in Hin as [i Hi].
    destruct (Forall2_lookup_l _ _ _ _ _ Eo Hi) as (r & _ & Hm). by eexists.
  - apply Forall2_length in Eo. lia.
Qed.

(** A successful rearrangement was given a partition of the nodes. *)
Lemma rearrange_Ok_covers g_n n_g self self' :
  rows_ok self →
  _rearrange_matrix_and_mappings g_n n_g self = (Ok tt, self') →
  concat g_n ≡ₚ graph self.
Proof.
  intros Hrows. rewrite rearrange_unfold.
  case_bool_decide as Hcount; [|done].
  destruct (order_row_of self g_n) as [order_row|] eqn:Eo; [|done].
  destruct (switch get_row _ _ _ _ _ _) as [[used|] a1] eqn:Es; [|done].
  case_bool_decide as Hused; [|done]. intros _.
  by eapply row_pass_covers.
Qed.

Section switch_succeeds.
Variable n : nat.
Variables (get : matrix → nat → result (list Z))
          (set : matrix → nat → list Z → result matrix).
Variables (Inv : matrix → Prop) (Line : list Z → Prop).
Hypothesis get_ok : ∀ a i, Inv a → i < n → ∃ line, get a i = Ok line ∧ Line line.
Hypothesis set_ok : ∀ a i line, Inv a → i < n → Line line →
                      ∃ a', set a i line = Ok a' ∧ Inv a'.

Lemma switch_succeeds order idx temp used a :
  Inv a → (∀ r, r ∈ order → r < n) → idx + length order ≤ n →
  map_Forall (fun _ line => Line line) temp →
  ∃ used' a', switch get set order idx temp used a = (Ok used', a') ∧ Inv a'.
Proof.
  revert idx temp used a. induction order as [|num rest IH];
    intros idx temp used a Ha Ho Hidx Ht; simpl.
  - by exists used, a.
  - assert (num < n) as Hnum by (apply Ho; by left).
    assert (∀ r, r ∈ rest → r < n) as Ho' by (intros; apply Ho; by right).
    simpl in Hidx. case_decide as Heq.
    + apply IH; try done. lia.
    + assert (∃ temp', (if decide (idx ∈ used) then Ok temp
                        else line ← get a idx; Ok (<[idx:=line]> temp)) = Ok temp'
                       ∧ map_Forall (fun _ line => Line line) temp') as (temp' & -> & Ht').
      { case_decide; [by exists temp|].
        destruct (get_ok a idx) as (line & -> & Hline); [done|lia|]. simpl.
        eexists. split; [done|]. by apply map_Forall_insert_2. }
      assert (∃ a1, (match temp' !! num with
                     | Some line => set a idx line
                     | None => line ← get a num; set a idx line
                     end) = Ok a1 ∧ Inv a1) as (a1 & -> & Ha1).
      { destruct (temp' !! num) as [line|] eqn:El.
        - apply set_ok; [done|lia|]. by eapply (Ht' num).
        - destruct (get_ok a num) as (line & -> & Hline); [done|lia|]. simpl.
          apply set_ok; [done|lia|done]. }
      apply IH; try done. lia.
Qed.
End switch_succeeds.

Lemma get_row_ok n a i :
  square_n n a → i < n → ∃ line, get_row a i = Ok line ∧ length line = n.
Proof.
  intros [Hl Hr] Hi. unfold get_row.
  destruct (lookup_lt_is_Some_2 a i) as [line Hline]; [lia|]. rewrite Hline.
  exists line. split; [done|].
  eapply (proj1 (Forall_forall _ _) Hr). by eapply list_elem_of_lookup_2.
Qed.

Lemma set_row_ok n a i line :
  square_n n a → i < n → length line = n →
  ∃ a', set_row a i line = Ok a' ∧ square_n n a'.
Proof.
  intros [Hl Hr] Hi Hline. unfold set_row. case_decide; [|lia].
  eexists. split; [done|]. split; [by rewrite length_insert|].
  apply Forall_insert; done.
Qed.

Lemma get_col_ok n a j :
  square_n n a → j < n → ∃ line, get_col a j = Ok line ∧ length line = n.
Proof.
  intros [Hl Hr] Hj. unfold get_col.
  exists ((fun r : list Z => default 0%Z (r !! j)) <$> a). split.
  - apply mapM_Ok_fmap. intros r Hin.
    assert (length r = n) as Hlr by (by eapply (proj1 (Forall_forall _ _) Hr)).
    destruct (lookup_lt_is_Some_2 r j) as [v Hv]; [lia|]. by rewrite Hv.
  - by rewrite length_fmap.
Qed.

Lemma set_col_ok n a j line :
  square_n n a → j < n → length line = n →
  ∃ a', set_col a j line = Ok a' ∧ square_n n a'.
Proof.
  intros [Hl Hr] Hj Hline. unfold set_col.
  assert (forallb (fun r : list Z => j <? length r) a = true) as ->.
  { apply forallb_forall. intros r Hin. apply Nat.ltb_lt.
    apply list_elem_of_In in Hin.
    rewrite (proj1 (Forall_forall _ _) Hr r Hin). done. }
  eexists. split; [done|]. split.
  - rewrite length_zip_with. lia.
  - apply Forall_forall. intros r Hin.
    apply list_elem_of_lookup in Hin as [i Hi].
    apply lookup_zip_with_Some in Hi as (r0 & v & -> & Hr0 & _).
    rewrite length_insert.
    eapply (proj1 (Forall_forall _ _) Hr). by eapply list_elem_of_lookup_2.
Qed.

Lemma switch_rows_ok n order a :
  square_n n a → (∀ r, r ∈ order → r < n) → length order ≤ n →
  ∃ used a', switch get_row set_row order 0 ∅ ∅ a = (Ok used, a') ∧ square_n n a'.
Proof.
  intros Ha Ho Hl.
  apply (switch_succeeds n get_row set_row (square_n n) (fun l => length l = n));
    first [ done | by intros; apply get_row_ok | by intros; apply set_row_ok
          | apply map_Forall_empty ].
Qed.

Lemma switch_cols_ok n order a :
  square_n n a → (∀ r, r ∈ order → r < n) → length order ≤ n →
  ∃ used a', switch get_col set_col order 0 ∅ ∅ a = (Ok used, a') ∧ square_n n a'.
Proof.
  intros Ha Ho Hl.
  apply (switch_succeeds n get_col set_col (square_n n) (fun l => length l = n));
    first [ done | by intros; apply get_col_ok | by intros; apply set_col_ok
          | apply map_Forall_empty ].
Qed.

Lemma enumerate_map_snoc (l : list node) (x : node) :
  enumerate_map (l ++ [x]) = <[x := length l]> (enumerate_map l).
Proof.
  unfold enumerate_map. rewrite imap_app, fold_left_app. simpl.
  by rewrite Nat.add_0_r.
Qed.

Lemma enumerate_map_lookup (l : list node) (nd : node) (i : nat) :
  NoDup l → (enumerate_map l !! nd = Some i ↔ l !! i = Some nd).
Proof.
  induction l as [|x l IH] using rev_ind; intros Hnd.
  - unfold enumerate_map. simpl. rewrite lookup_empty. done.
  - apply NoDup_app in Hnd as (Hl & Hx & _). rewrite enumerate_map_snoc.
    destruct (decide (x = nd)) as [->|Hne].
    + rewrite lookup_insert_eq. split.
      * intros [= <-]. rewrite lookup_app_r by lia. by rewrite Nat.sub_diag.
      * intros Hi. f_equal.
        destruct (decide (i < length l)) as [Hlt|Hge].
        -- rewrite lookup_app_l in Hi by done. exfalso.
           apply (Hx nd); [by eapply list_elem_of_lookup_2|by left].
        -- apply lookup_lt_Some in Hi. rewrite length_app in Hi. simpl in Hi. lia.
    + rewrite lookup_insert_ne by done. rewrite IH by done. split.
      * intros Hi. rewrite lookup_app_l; [done|]. by eapply lookup_lt_Some.
      * intros Hi. destruct (decide (i < length l)) as [Hlt|Hge].
        -- by rewrite lookup_app_l in Hi.
        -- rewrite lookup_app_r in Hi by lia.
           destruct (i - length l) as [|?]; simpl in Hi; [congruence|done].
Qed.

Lemma rows_ok_enumerate (nds : list node) (order_node : list node) (a : matrix)
    kk g_n n_g stp wt pt :
  NoDup nds → order_node ≡ₚ nds → square_n (length nds) a →
  rows_ok (mkAutopart nds a kk g_n n_g (enumerate_map order_node) stp wt pt).
Proof.
  intros Hnd Hperm [Hl Hr].
  assert (NoDup order_node) as Hndo by (by rewrite Hperm).
  assert (length order_node = length nds) as Hlen by (by rewrite Hperm).
  repeat split; cbn [graph adj_matrix map_n_r]; try done.
  - intros Hin. rewrite <- Hperm in Hin.
    apply list_elem_of_lookup in Hin as [i Hi].
    exists i. by apply enumerate_map_lookup.
  - intros [i Hi]. apply enumerate_map_lookup in Hi; [|done].
    rewrite <- Hperm. by eapply list_elem_of_lookup_2.
  - intros nd r Hi. apply enumerate_map_lookup in Hi; [|done].
    apply lookup_lt_Some in Hi. lia.
  - intros n1 n2 r H1 H2. apply enumerate_map_lookup in H1, H2; try done. congruence.
Qed.

Lemma mapM_length {A B} (f : A → result B) l ys : mapM f l = Ok ys → length ys = length l.
Proof. intros H. apply mapM_Ok_inv in H. by apply Forall2_length in H. Qed.

Lemma group_size_lookup self g :
  g < length (map_g_n self) →
  group_size self g = Ok (default 0 (group_sizes self !! g)).
Proof.
  intros Hg. destruct (lookup_lt_is_Some_2 _ _ Hg) as [s Hs].
  unfold group_size, group_sizes. rewrite list_lookup_fmap, Hs. done.
Qed.

Lemma group_start_idx_Ok self i :
  i ≤ length (map_g_n self) →
  group_start_idx self i = Ok (nsum (take i (group_sizes self))).
Proof.
  intros Hi. unfold group_start_idx.
  rewrite (mapM_Ok_fmap _ (fun g => default 0 (group_sizes self !! g))).
  - simpl. do 2 f_equal. apply list_eq. intros j.
    rewrite list_lookup_fmap.
    destruct (decide (j < i)) as [Hj|Hj].
    + rewrite lookup_seq_lt, lookup_take_lt by done. simpl.
      destruct (lookup_lt_is_Some_2 (group_sizes self) j) as [x ->]; [|done].
      unfold group_sizes. rewrite length_fmap. lia.
    + rewrite lookup_seq_ge, lookup_take_ge by lia. done.
  - intros g Hg. apply elem_of_seq in Hg. apply group_size_lookup. lia.
Qed.

Lemma nsum_take_S (l : list nat) i x :
  l !! i = Some x → nsum (take (S i) l) = nsum (take i l) + x.
Proof.
  intros Hi. rewrite (take_S_r _ _ _ Hi), nsum_app, nsum_cons, nsum_nil. lia.
Qed.

Lemma nsum_take_le (l : list nat) i : nsum (take i l) ≤ nsum l.
Proof.
  rewrite <- (take_drop i l) at 2. rewrite nsum_app. lia.
Qed.

Lemma nsum_concat_length {A} (ls : list (list A)) :
  nsum (length <$> ls) = length (concat ls).
Proof.
  induction ls as [|l ls IH]; [done|].
  rewrite fmap_cons, nsum_cons. simpl. rewrite length_app. lia.
Qed.

Lemma _block_weight_is_ok self i j :
  length (map_g_n self) = k self →
  length (concat (map_g_n self)) ≤ length (adj_matrix self) →
  i < k self → j < k self → is_ok (_block_weight self i j).
Proof.
  intros Hk Hn Hi Hj. unfold _block_weight.
  rewrite !group_start_idx_Ok by lia. simpl.
  rewrite !group_size_lookup by lia. simpl.
  destruct (_ && _); [|by eexists].
  match goal with |- is_ok (Zsum <$> ?m) =>
    assert (is_ok m) as [zs ->]; [|by eexists] end.
  apply mapM_is_ok. intros r Hr. apply elem_of_seq in Hr.
  unfold row_slice_sum.
  destruct (lookup_lt_is_Some_2 (group_sizes self) i) as [x Hx].
  { unfold group_sizes. rewrite length_fmap. lia. }
  rewrite Hx in Hr. simpl in Hr.
  pose proof (nsum_take_S _ _ _ Hx) as HS.
  pose proof (nsum_take_le (group_sizes self) (S i)) as Hle.
  unfold group_sizes in Hle at 2. rewrite nsum_concat_length in Hle.
  destruct (lookup_lt_is_Some_2 (adj_matrix self) r) as [row ->]; [lia|].
  by eexists.
Qed.

Lemma recalculate_succeeds self :
  length (map_g_n self) = k self →
  length (concat (map_g_n self)) ≤ length (adj_matrix self) →
  ∃ w' P', _recalculate_block_properties self = (Ok tt, set_P P' (set_w w' self))
           ∧ compute_w self = Ok w' ∧ compute_P (set_w w' self) = Ok P'.
Proof.
  intros Hk Hn.
  assert (is_ok (compute_w self)) as [w' Hw].
  { apply mapM_is_ok. intros i Hi. apply elem_of_seq in Hi.
    apply mapM_is_ok. intros j Hj. apply elem_of_seq in Hj.
    apply _block_weight_is_ok; done || lia. }
  assert (is_ok (compute_P (set_w w' self))) as [P' HP].
  { apply mapM_is_ok. intros i Hi. apply elem_of_seq in Hi.
    apply mapM_is_ok. intros j Hj. apply elem_of_seq in Hj.
    cbn [k set_w] in Hi, Hj.
    unfold _block_density, block_weight, table_get. cbn [w set_w].
    unfold compute_w in Hw. pose proof (mapM_length _ _ _ Hw) as Hlw.
    unfold groups in Hlw. rewrite length_seq in Hlw.
    destruct (lookup_lt_is_Some_2 w' i) as [row Hrow]; [lia|]. rewrite Hrow. simpl.
    apply mapM_Ok_inv in Hw.
    destruct (Forall2_lookup_r _ _ _ _ _ Hw Hrow) as (i' & _ & Hrow').
    apply mapM_length in Hrow'. unfold groups in Hrow'. rewrite length_seq in Hrow'.
    destruct (lookup_lt_is_Some_2 row j) as [v Hv]; [lia|]. rewrite Hv. simpl.
    unfold block_size. rewrite !group_size_lookup by (cbn [map_g_n set_w]; lia).
    simpl. by eexists. }
  exists w', P'. split; [|done].
  unfold _recalculate_block_properties, mbind, M_bind, reading, modify.
  rewrite Hw. cbn beta iota. rewrite HP. done.
Qed.

Lemma rows_ok_set_cache self w' P' :
  rows_ok self → rows_ok (set_P P' (set_w w' self)).
Proof. done. Qed.

Lemma rows_ok_square self : rows_ok self → square_n (length (graph self)) (adj_matrix self).
Proof. intros (_ & Hl & Hr & _). by split. Qed.

(** A partition of the nodes is always accepted, and the object it leaves
    has the new mappings. *)
Lemma rearrange_succeeds g_n n_g self :
  rows_ok self → concat g_n ≡ₚ graph self →
  size n_g = length (graph self) → length g_n = k self →
  ∃ self',
    _rearrange_matrix_and_mappings g_n n_g self = (Ok tt, self')
    ∧ rows_ok self' ∧ map_g_n self' = g_n ∧ map_n_g self' = n_g
    ∧ k self' = k self ∧ graph self' = graph self ∧ step self' = step self.
Proof.
  intros Hrows Hperm Hsize Hk. pose proof Hrows as (Hnd & Hlen & Hr & Hdom & Hlt & Hinj).
  rewrite rearrange_unfold.
  assert (length (concat g_n) = length (graph self)) as Hl by (by rewrite Hperm).
  rewrite bool_decide_eq_true_2 by (rewrite nsum_concat_length; lia).
  assert (∃ order_row, order_row_of self g_n = Ok order_row) as [order_row Eo].
  { apply mapM_is_ok. intros nd Hin. rewrite Hperm in Hin.
    apply Hdom in Hin as [r ->]. by eexists. }
  rewrite Eo. pose proof (order_row_spec _ _ _ Eo) as Ho.
  assert (length order_row = length (graph self)) as Hlo
    by (apply Forall2_length in Ho; lia).
  assert (∀ r, r ∈ order_row → r < length (graph self)) as Hbound.
  { intros r Hin. apply list_elem_of_lookup in Hin as [i Hi].
    destruct (Forall2_lookup_r _ _ _ _ _ Ho Hi) as (nd & _ & Hm). eauto. }
  assert (NoDup order_row) as Hndr.
  { apply NoDup_alt. intros i j r Hi Hj.
    destruct (Forall2_lookup_r _ _ _ _ _ Ho Hi) as (n1 & Hn1 & Hm1).
    destruct (Forall2_lookup_r _ _ _ _ _ Ho Hj) as (n2 & Hn2 & Hm2).
    assert (n1 = n2) as -> by eauto.
    assert (NoDup (concat g_n)) as Hc by (by rewrite Hperm).
    eapply NoDup_lookup; eauto. }
  destruct (switch_rows_ok (length (graph self)) order_row (adj_matrix self))
    as (used & a1 & Es & Ha1); [by apply rows_ok_square|done|lia|].
  rewrite Es. pose proof (switch_used _ _ _ _ _ _ _ _ _ Es) as ->.
  rewrite union_empty_r_L, size_list_to_set by done.
  rewrite bool_decide_eq_true_2 by done.
  destruct (switch_cols_ok (length (graph self)) order_row a1)
    as (used2 & a2 & Es2 & Ha2); [done|done|lia|].
  rewrite Es2. pose proof (switch_used _ _ _ _ _ _ _ _ _ Es2) as ->.
  rewrite union_empty_r_L, size_list_to_set by done.
  rewrite bool_decide_eq_true_2 by done.
  destruct (recalculate_succeeds (rearranged g_n n_g a2 self)) as (w' & P' & -> & _).
  { done. }
  { cbn [map_g_n adj_matrix rearranged set_map_n_r set_map_n_g set_map_g_n set_adj_matrix].
    destruct Ha2 as [-> _]. lia. }
  eexists. split; [done|]. split; [|done].
  apply rows_ok_set_cache. unfold rearranged, set_map_n_r, set_map_n_g, set_map_g_n,
    set_adj_matrix. cbn [graph adj_matrix k map_g_n map_n_g map_n_r step w P].
  by apply rows_ok_enumerate.
Qed.

(** ** The matrix after the rows and columns were moved *)

Section switch_permutes.
Variables (get : matrix → nat → result (list Z))
          (set : matrix → nat → list Z → result matrix).
Variables (Inv : matrix → Prop) (Line : list Z → Prop).
Hypothesis get_line : ∀ a i line, Inv a → get a i = Ok line → Line line.
Hypothesis set_spec : ∀ a i line a', Inv a → Line line → set a i line = Ok a' →
  Inv a' ∧ get a' i = Ok line ∧ ∀ j, j ≠ i → get a' j = get a j.

(** The loop after the lines [pre] have been placed: the lines placed hold
    what the original had at their source, the others are untouched, and
    every line that was overwritten is in [temp] or has been used. *)
Lemma switch_invariant (a0 : matrix) (rest : list nat) :
  ∀ pre temp used a used' a',
    Inv a → NoDup (pre ++ rest) →
    (∀ i r, pre !! i = Some r → get a i = get a0 r) →
    (∀ i, length pre ≤ i → get a i = get a0 i) →
    (∀ i line, temp !! i = Some line → get a0 i = Ok line ∧ Line line) →
    (∀ i, i < length pre → is_Some (temp !! i) ∨ i ∈ used) →
    (∀ u, u ∈ used → u ∈ pre) →
    switch get set rest (length pre) temp used a = (Ok used', a') →
    Inv a'
    ∧ (∀ i r, (pre ++ rest) !! i = Some r → get a' i = get a0 r)
    ∧ (∀ i, length (pre ++ rest) ≤ i → get a' i = get a0 i).
Proof.
  induction rest as [|num rest IH];
    intros pre temp used a used' a' Ha Hnd Hpre Hpost Htemp Hsaved Hused; cbn [switch].
  - intros [= <- <-]. rewrite app_nil_r. done.
  - assert (pre ++ num :: rest = (pre ++ [num]) ++ rest) as Happ by (by rewrite <- app_assoc).
    assert (length (pre ++ [num]) = S (length pre)) as Hlen
      by (rewrite length_app; simpl; lia).
    assert (num ∉ pre) as Hfresh.
    { apply NoDup_app in Hnd as (_ & Hd & _). intros Hin. apply (Hd num Hin). by left. }
    rewrite Happ in Hnd |- *. rewrite <- Hlen.
    case_decide as Heq.
    + apply IH; try done.
      * intros i r Hi. apply lookup_snoc_Some in Hi as [[Hi Hr]|[Hi <-]].
        -- by apply Hpre.
        -- rewrite Hi, Heq. apply Hpost. lia.
      * intros i Hi. apply Hpost. lia.
      * intros i Hi. rewrite Hlen in Hi.
        destruct (decide (i = length pre)) as [->|Hne]; [right; set_solver|].
        destruct (Hsaved i) as [?|?]; [lia|by left|right; set_solver].
      * intros u [->%elem_of_singleton|Hu]%elem_of_union; [set_solver|].
        apply elem_of_app. left. by apply Hused.
    + destruct (if decide (length pre ∈ used) then Ok temp
                else line ← get a (length pre); Ok (<[length pre:=line]> temp))
        as [temp'|] eqn:Etemp; [|done].
      assert ((∀ i line, temp' !! i = Some line → get a0 i = Ok line ∧ Line line)
              ∧ (∀ i, is_Some (temp !! i) → is_Some (temp' !! i))
              ∧ (length pre ∈ used ∨ is_Some (temp' !! length pre))
              ∧ (temp' !! num = None → temp !! num = None)) as (Htemp' & Hmono & Hidx & Hnone).
      { case_decide as Hin.
        - injection Etemp as <-. split; [done|]. split; [done|]. split; [by left|done].
        - destruct (get a (length pre)) as [line|] eqn:Eg; [|done]. injection Etemp as <-.
          split; [|split; [|split]].
          + intros i l Hl. apply lookup_insert_Some in Hl as [[<- <-]|[_ Hl]]; [|by apply Htemp].
            split; [|by eapply get_line]. rewrite <- Eg. symmetry. by apply Hpost.
          + intros i [l Hl]. destruct (decide (i = length pre)) as [->|Hne].
            * rewrite lookup_insert_eq. by eexists.
            * rewrite lookup_insert_ne by done. by eexists.
          + right. rewrite lookup_insert_eq. by eexists.
          + rewrite lookup_insert_ne by done. done. }
      assert (∃ line, get a0 num = Ok line ∧ Line line
                      ∧ (match temp' !! num with
                         | Some line => set a (length pre) line
                         | None => line ← get a num; set a (length pre) line
                         end) = set a (length pre) line
              ∨ (match temp' !! num with
                 | Some line => set a (length pre) line
                 | None => line ← get a num; set a (length pre) line
                 end) = Raise IndexError ∨ ∃ e, get a num = Raise e ∧ temp' !! num = None)
        as Hsrc.
      { destruct (temp' !! num) as [line|] eqn:El.
        - destruct (Htemp' _ _ El) as [? ?]. exists line. by left.
        - assert (get a num = get a0 num) as Hsame.
          { destruct (decide (length pre ≤ num)) as [Hle|Hlt]; [by apply Hpost|].
            destruct (Hsaved num) as [[l Hl]|Hin]; [lia| |].
            - rewrite Hnone in Hl by done. done.
            - apply Hused in Hin. done. }
          destruct (get a num) as [line|e] eqn:Eg.
          + exists line. left. split; [done|]. split; [by eapply get_line|done].
          + exists []. right. right. by exists e. }
      destruct Hsrc as (line & [(Hsrc & Hline & ->)|[->|(e & Eg & El)]]);
        [|done|by rewrite El, Eg].
      destruct (set a (length pre) line) as [a1|] eqn:Eset; [|done].
      destruct (set_spec _ _ _ _ Ha Hline Eset) as (Ha1 & Hget1 & Hother).
      apply IH; try done.
      * intros i r Hi. apply lookup_snoc_Some in Hi as [[Hi Hr]|[Hi <-]].
        -- rewrite Hother by lia. by apply Hpre.
        -- rewrite Hi, Hget1. done.
      * intros i Hi. rewrite Hother by lia. apply Hpost. lia.
      * intros i Hi. rewrite Hlen in Hi.
        destruct (decide (i = length pre)) as [->|Hne].
        -- destruct Hidx; [right; set_solver|by left].
        -- destruct (Hsaved i) as [?|?]; [lia|left; by apply Hmono|right; set_solver].
      * intros u [->%elem_of_singleton|Hu]%elem_of_union; [set_solver|].
        apply elem_of_app. left. by apply Hused.
Qed.

Lemma switch_permutes (a0 : matrix) (order : list nat) used a' :
  Inv a0 → NoDup order →
  switch get set order 0 ∅ ∅ a0 = (Ok used, a') →
  Inv a'
  ∧ (∀ i r, order !! i = Some r → get a' i = get a0 r)
  ∧ (∀ i, length order ≤ i → get a' i = get a0 i).
Proof.
  intros Ha Hnd Hrun.
  apply (switch_invariant a0 order [] ∅ ∅ a0 used a'); try done.
  - simpl. lia.
Qed.
End switch_permutes.

(** The two instances: rows, and columns of a matrix with [m] rows. *)
Lemma set_row_spec (a : matrix) i line a' :
  set_row a i line = Ok a' →
  get_row a' i = Ok line ∧ ∀ j, j ≠ i → get_row a' j = get_row a j.
Proof.
  unfold set_row, get_row. case_decide; [|done]. intros [= <-]. split.
  - by rewrite list_lookup_insert_eq.
  - intros j Hj. by rewrite list_lookup_insert_ne.
Qed.

Lemma get_col_lookup (a : matrix) j col i row :
  get_col a j = Ok col → a !! i = Some row → row !! j = col !! i ∧ is_Some (col !! i).
Proof.
  unfold get_col. intros Hc Hi. apply mapM_Ok_inv in Hc.
  destruct (Forall2_lookup_l _ _ _ _ _ Hc Hi) as (v & Hv & Hrow).
  rewrite Hv. destruct (row !! j); simpl in Hrow; [|done]. split; [congruence|by eexists].
Qed.

Lemma get_col_ext (a b : matrix) j j' :
  length a = length b →
  (∀ i ra rb, a !! i = Some ra → b !! i = Some rb → ra !! j = rb !! j') →
  get_col a j = get_col b j'.
Proof.
  revert b. induction a as [|ra a IH]; intros [|rb b] Hl Hrows; try done.
  unfold get_col in *. rewrite !mapM_cons.
  rewrite (Hrows 0 ra rb eq_refl eq_refl).
  rewrite (IH b); [done|simpl in Hl; lia|].
  intros i xa xb Ha Hb. by apply (Hrows (S i)).
Qed.

Lemma set_col_spec (a : matrix) j line a' :
  length line = length a → set_col a j line = Ok a' →
  length a' = length a
  ∧ get_col a' j = Ok line ∧ ∀ j', j' ≠ j → get_col a' j' = get_col a j'.
Proof.
  unfold set_col. intros Hlen.
  destruct (forallb _ a) eqn:Hall; [|done]. intros [= <-].
  assert (∀ r, r ∈ a → j < length r) as Hj.
  { intros r Hr. apply list_elem_of_In in Hr.
    by apply Nat.ltb_lt, (proj1 (forallb_forall _ _) Hall). }
  split; [rewrite length_zip_with; lia|]. split.
  - clear Hall. revert line Hlen. induction a as [|r a IH]; intros [|v line] Hlen; try done.
    unfold get_col in *. cbn [zip_with]. rewrite mapM_cons.
    rewrite list_lookup_insert_eq by (apply Hj; by left). simpl.
    rewrite IH; [done| |simpl in Hlen; lia]. intros; apply Hj; by right.
  - intros j' Hne. apply get_col_ext; [rewrite length_zip_with; lia|].
    intros i ra rb Ha Hb. apply lookup_zip_with_Some in Ha as (r0 & v & -> & Hr0 & _).
    rewrite list_lookup_insert_ne by done. congruence.
Qed.

Lemma switch_rows_permutes (a0 : matrix) (order : list nat) used a' :
  NoDup order →
  switch get_row set_row order 0 ∅ ∅ a0 = (Ok used, a') →
  ∀ i r, order !! i = Some r → get_row a' i = get_row a0 r.
Proof.
  intros Hnd Hrun.
  apply (switch_permutes get_row set_row (fun _ => True) (fun _ => True)) in Hrun
    as (_ & H & _); try done.
  intros a i line a1 _ _ Hset. split; [done|]. by apply set_row_spec.
Qed.

Lemma switch_cols_permutes (a0 : matrix) (order : list nat) used a' :
  NoDup order →
  switch get_col set_col order 0 ∅ ∅ a0 = (Ok used, a') →
  length a' = length a0
  ∧ ∀ j c, order !! j = Some c → get_col a' j = get_col a0 c.
Proof.
  intros Hnd Hrun.
  apply (switch_permutes get_col set_col (fun a => length a = length a0)
           (fun line => length line = length a0)) in Hrun as (? & H & _); try done.
  - intros a i line Ha Hg. apply mapM_length in Hg. lia.
  - intros a i line a1 Ha Hline Hset.
    destruct (set_col_spec a i line a1) as (? & ? & ?); [lia|done|].
    split; [lia|done].
Qed.

Lemma NoDup_bounded_length (l : list nat) (n : nat) :
  NoDup l → (∀ r, r ∈ l → r < n) → length l ≤ n.
Proof.
  intros Hnd Hb. rewrite <- (size_list_to_set (C := gset nat) l Hnd).
  rewrite <- (size_set_seq (C := gset nat) 0 n).
  apply subseteq_size. intros x Hx. apply elem_of_list_to_set in Hx.
  apply elem_of_set_seq. specialize (Hb x Hx). lia.
Qed.

(** The matrix after both passes: entry (i, j) is the entry of the original
    at the rows and columns the order names. *)
Lemma switch_both_cells (n : nat) (a0 a1 a2 : matrix) (order : list nat) used1 used2 :
  square_n n a0 → NoDup order → (∀ r, r ∈ order → r < n) →
  switch get_row set_row order 0 ∅ ∅ a0 = (Ok used1, a1) →
  switch get_col set_col order 0 ∅ ∅ a1 = (Ok used2, a2) →
  ∀ i j r c, order !! i = Some r → order !! j = Some c →
    ∃ row row', a2 !! i = Some row' ∧ a0 !! r = Some row ∧ row' !! j = row !! c
                ∧ is_Some (row !! c).
Proof.
  intros [Hl Hrows] Hnd Hb Hr Hc i j r c Hi Hj.
  pose proof (switch_rows_permutes a0 order used1 a1 Hnd Hr i r Hi) as Hrow.
  destruct (switch_cols_permutes a1 order used2 a2 Hnd Hc) as [Hlen Hcol].
  specialize (Hcol j c Hj).
  assert (r < n) as Hrn by (apply Hb; by eapply list_elem_of_lookup_2).
  assert (c < n) as Hcn by (apply Hb; by eapply list_elem_of_lookup_2).
  destruct (lookup_lt_is_Some_2 a0 r) as [row Hrow0]; [lia|].
  unfold get_row in Hrow. rewrite Hrow0 in Hrow.
  destruct (a1 !! i) as [row1|] eqn:E1; simpl in Hrow; [|done].
  injection Hrow as ->.
  destruct (lookup_lt_is_Some_2 a2 i) as [row2 Hrow2].
  { rewrite Hlen. by eapply lookup_lt_Some. }
  assert (length row = n) as Hlrow.
  { eapply (proj1 (Forall_forall _ _) Hrows). by eapply list_elem_of_lookup_2. }
  destruct (lookup_lt_is_Some_2 row c) as [v Hv]; [lia|].
  exists row, row2. split; [done|]. split; [done|]. split; [|by eexists].
  destruct (get_col a1 c) as [col|e] eqn:Ec.
  - destruct (get_col_lookup a1 c col i row Ec E1) as [H1 _].
    destruct (get_col_lookup a2 j col i row2 Hcol Hrow2) as [H2 _]. congruence.
  - exfalso. unfold get_col in Ec. apply mapM_Raise_inv in Ec as (x & Hx & Hr').
    apply list_elem_of_lookup in Hx as [i' Hi'].
    (* every row of [a1] is a row of [a0] or an untouched one *)
    destruct (switch_rows_ok n order a0) as (u & a1' & Hr1 & _ & Hsq); [done|done| |].
    + by apply NoDup_bounded_length.
    + rewrite Hr in Hr1. injection Hr1 as _ <-.
      assert (length x = n) as Hlx.
      { eapply (proj1 (Forall_forall _ _) Hsq). by eapply list_elem_of_lookup_2. }
      destruct (lookup_lt_is_Some_2 x c) as [v' Hv']; [lia|]. by rewrite Hv' in Hr'.
Qed.

Lemma rearrange_adjacency g_n n_g self self' n1 n2 :
  rows_ok self →
  _rearrange_matrix_and_mappings g_n n_g self = (Ok tt, self') →
  n1 ∈ graph self → n2 ∈ graph self →
  adjacency self' n1 n2 = adjacency self n1 n2 ∧ is_ok (adjacency self n1 n2).
Proof.
  intros Hrows Hrun Hn1 Hn2.
  pose proof (rearrange_Ok_covers _ _ _ _ Hrows Hrun) as Hperm.
  pose proof Hrows as (Hnd & Hlen & Hr & Hdom & Hlt & Hinj).
  rewrite rearrange_unfold in Hrun.
  case_bool_decide; [|done].
  destruct (order_row_of self g_n) as [order_row|] eqn:Eo; [|done].
  destruct (switch get_row _ _ _ _ _ _) as [[used|] a1] eqn:Es; [|done].
  case_bool_decide; [|done].
  destruct (switch get_col _ _ _ _ _ _) as [[used2|] a2] eqn:Es2; [|done].
  case_bool_decide; [|done].
  apply recalculate_inv in Hrun as (w' & P' & _ & _ & ->).
  pose proof (order_row_spec _ _ _ Eo) as Ho.
  assert (NoDup (concat g_n)) as Hndc by (by rewrite Hperm).
  assert (∀ r, r ∈ order_row → r < length (graph self)) as Hbound.
  { intros r Hin. apply list_elem_of_lookup in Hin as [i Hi].
    destruct (Forall2_lookup_r _ _ _ _ _ Ho Hi) as (nd & _ & Hm). eauto. }
  assert (NoDup order_row) as Hndr.
  { apply NoDup_alt. intros i j r Hi Hj.
    destruct (Forall2_lookup_r _ _ _ _ _ Ho Hi) as (m1 & Hm1 & Hr1).
    destruct (Forall2_lookup_r _ _ _ _ _ Ho Hj) as (m2 & Hm2 & Hr2).
    assert (m1 = m2) as -> by eauto. eapply NoDup_lookup; eauto. }
  assert (∀ nd, nd ∈ graph self →
            ∃ i r, concat g_n !! i = Some nd ∧ order_row !! i = Some r
                   ∧ map_n_r self !! nd = Some r) as Hpos.
  { intros nd Hin. rewrite <- Hperm in Hin. apply list_elem_of_lookup in Hin as [i Hi].
    destruct (Forall2_lookup_l _ _ _ _ _ Ho Hi) as (r & ? & ?). by exists i, r. }
  destruct (Hpos n1 Hn1) as (i & r & Hi & Hri & Hm1).
  destruct (Hpos n2 Hn2) as (j & c & Hj & Hcj & Hm2).
  destruct (switch_both_cells (length (graph self)) (adj_matrix self) a1 a2 order_row
              used used2 (rows_ok_square _ Hrows) Hndr Hbound Es Es2 i j r c Hri Hcj)
    as (row & row' & Hrow' & Hrow & Hcell & [v Hv]).
  unfold adjacency, cell.
  cbn [map_n_r adj_matrix rearranged set_P set_w set_map_n_r set_map_n_g set_map_g_n
       set_adj_matrix].
  rewrite (proj2 (enumerate_map_lookup (concat g_n) n1 i Hndc) Hi).
  rewrite (proj2 (enumerate_map_lookup (concat g_n) n2 j Hndc) Hj).
  rewrite Hm1, Hm2. simpl. rewrite Hrow', Hrow. simpl. rewrite Hcell, Hv.
  split; [done|by eexists].
Qed.

Lemma same_graph_refl self : same_graph self self.
Proof. by split. Qed.

Lemma same_graph_trans s1 s2 s3 : same_graph s1 s2 → same_graph s2 s3 → same_graph s1 s3.
Proof.
  intros [Hg1 Ha1] [Hg2 Ha2]. split; [congruence|].
  intros n1 n2 H1 H2. rewrite Ha2 by (by rewrite Hg1). by apply Ha1.
Qed.

Lemma same_graph_fields self self' :
  graph self' = graph self → adj_matrix self' = adj_matrix self →
  map_n_r self' = map_n_r self → same_graph self self'.
Proof.
  intros Hg Ha Hr. split; [done|]. intros n1 n2 _ _. unfold adjacency, cell.
  by rewrite Ha, Hr.
Qed.

Lemma rearrange_same_graph g_n n_g self self' :
  rows_ok self →
  _rearrange_matrix_and_mappings g_n n_g self = (Ok tt, self') →
  same_graph self self'.
Proof.
  intros Hrows Hrun. split.
  - rewrite rearrange_unfold in Hrun.
    repeat (case_bool_decide || case_match || done).
    match goal with H : _recalculate_block_properties _ = _ |- _ =>
      apply recalculate_inv in H as (w' & P' & _ & _ & ->) end. done.
  - intros n1 n2 H1 H2. by apply (rearrange_adjacency g_n n_g).
Qed.

(** ** The partition invariant *)

Lemma elem_of_concat {A} (ls : list (list A)) (x : A) :
  x ∈ concat ls ↔ ∃ i s, ls !! i = Some s ∧ x ∈ s.
Proof.
  induction ls as [|l ls IH]; simpl.
  - split; [by intros ?%elem_of_nil|by intros (i & s & ? & _)].
  - rewrite elem_of_app, IH. split.
    + intros [Hx|(i & s & Hi & Hx)]; [by exists 0, l|by exists (S i), s].
    + intros ([|i] & s & Hi & Hx); simpl in Hi; [left; congruence|right; eauto].
Qed.

Lemma NoDup_concat {A} (ls : list (list A)) :
  Forall NoDup ls →
  (∀ i j s t x, ls !! i = Some s → ls !! j = Some t → x ∈ s → x ∈ t → i = j) →
  NoDup (concat ls).
Proof.
  induction ls as [|l ls IH]; intros Hnd Hdisj; simpl; [constructor|].
  apply Forall_cons in Hnd as [Hl Hls].
  apply NoDup_app. split; [done|]. split.
  - intros x Hx (i & s & Hi & Hxs)%elem_of_concat.
    by specialize (Hdisj 0 (S i) l s x eq_refl Hi Hx Hxs).
  - apply IH; [done|]. intros i j s t x Hi Hj Hs Ht.
    by specialize (Hdisj (S i) (S j) s t x Hi Hj Hs Ht) as [= ->].
Qed.

Lemma partition_covers self :
  NoDup (graph self) → partition_ok self → concat (map_g_n self) ≡ₚ graph self.
Proof.
  intros Hnd (Hk & Hsets & Hng & Hdom).
  apply NoDup_Permutation; [|done|].
  - apply NoDup_concat; [done|]. intros i j s t x Hi Hj Hs Ht.
    assert (map_n_g self !! x = Some i) as E1 by (apply Hng; by exists s).
    assert (map_n_g self !! x = Some j) as E2 by (apply Hng; by exists t).
    congruence.
  - intros x. rewrite elem_of_concat, Hdom. split.
    + intros (i & s & Hi & Hx). exists i. apply Hng. by exists s.
    + intros [g Hg]. apply Hng in Hg as (s & Hs & Hx). eauto.
Qed.

Lemma wf_exactly_one self : wf self → exactly_one_group self ∧ sizes_add_up self.
Proof.
  intros [Hrows Hpart]. pose proof Hrows as (Hnd & _).
  pose proof (partition_covers self Hnd Hpart) as Hperm.
  destruct Hpart as (Hk & Hsets & Hng & Hdom). split.
  - intros nd Hin. apply Hdom in Hin as [g Hg]. exists g. split; [by apply Hng|].
    intros g' Hg'. apply Hng in Hg'. congruence.
  - unfold sizes_add_up, group_sizes. by rewrite nsum_concat_length, Hperm.
Qed.

Lemma size_dom_graph self :
  NoDup (graph self) → (∀ nd, nd ∈ graph self ↔ is_Some (map_n_g self !! nd)) →
  size (map_n_g self) = length (graph self).
Proof.
  intros Hnd Hdom. rewrite <- size_dom, <- (size_list_to_set (C:=gset nat)) by done.
  f_equal. apply set_eq. intros x. rewrite elem_of_dom, elem_of_list_to_set. by rewrite Hdom.
Qed.

Lemma wf_set_cache self w' P' : wf self → wf (set_P P' (set_w w' self)).
Proof. done. Qed.

Lemma initial_map_n_g (nds : list node) (nd : node) (g : nat) :
  fold_left (fun m x => <[x := 0]> m) nds (∅ : gmap node nat) !! nd = Some g
  ↔ nd ∈ nds ∧ g = 0.
Proof.
  induction nds as [|x nds IH] using rev_ind.
  - simpl. rewrite lookup_empty. split; [done|]. by intros [?%elem_of_nil _].
  - rewrite fold_left_app. simpl. rewrite elem_of_app, list_elem_of_singleton.
    destruct (decide (x = nd)) as [->|Hne].
    + rewrite lookup_insert_eq. split; [intros [= <-]; auto|intros [_ ->]; done].
    + rewrite lookup_insert_ne by done. rewrite IH. split.
      * intros [? ->]. auto.
      * intros [[?|?] ->]; [done|congruence].
Qed.

Lemma initial_object_wf (gr : Graph) :
  square gr → ∃ self, initial_object gr = (Ok tt, self) ∧ wf self ∧ k self = 1.
Proof.
  intros (Hnd & Hl & Hr). unfold initial_object.
  destruct (recalculate_succeeds (initial_fields gr)) as (w' & P' & -> & _).
  { done. }
  { simpl. rewrite app_nil_r. lia. }
  eexists. split; [done|]. split; [|done]. apply wf_set_cache. split.
  - unfold initial_fields. apply rows_ok_enumerate; done.
  - unfold initial_fields. repeat split; cbn [map_g_n k map_n_g graph].
    + by repeat constructor.
    + intros Hg. apply initial_map_n_g in Hg as [Hin ->]. by exists (graph_nodes gr).
    + intros (s & Hs & Hin). apply initial_map_n_g.
      destruct g; simpl in Hs; [|done]. by injection Hs as <-.
    + intros Hin. exists 0. by apply initial_map_n_g.
    + intros [g Hg]. by apply initial_map_n_g in Hg as [? _].
Qed.

Lemma add_new_group_wf self :
  wf self →
  ∃ self', _add_new_group self = (Ok tt, self') ∧ wf self' ∧ k self' = k self + 1
           ∧ map_g_n self' = map_g_n self ++ [[]].
Proof.
  intros [Hrows Hpart]. pose proof Hrows as (Hnd & Hlen & _).
  pose proof (partition_covers self Hnd Hpart) as Hperm.
  destruct Hpart as (Hk & Hsets & Hng & Hdom).
  unfold _add_new_group, mbind, M_bind, reading, modify. cbn beta iota.
  unfold dict_set. rewrite decide_False by lia.
  set (self1 := set_k _ _).
  destruct (recalculate_succeeds self1) as (w' & P' & -> & _).
  { subst self1. cbn. rewrite length_app. simpl. lia. }
  { subst self1. cbn. rewrite concat_app. simpl. rewrite app_nil_r, Hperm. lia. }
  eexists. split; [done|]. split; [|by subst self1].
  apply wf_set_cache. subst self1. split; [done|].
  repeat split; cbn.
  - rewrite length_app. simpl. lia.
  - apply Forall_app. split; [done|]. repeat constructor.
  - intros Hg. apply Hng in Hg as (s & Hs & Hin). exists s.
    split; [|done]. by apply lookup_app_l_Some.
  - intros (s & Hs & Hin). apply Hng. exists s. split; [|done].
    apply lookup_app_Some in Hs as [Hs|[_ Hs]]; [done|].
    destruct (g - length (map_g_n self)); simpl in Hs; [|done].
    injection Hs as <-. by apply elem_of_nil in Hin.
  - apply Hdom.
  - apply Hdom.
Qed.

Lemma set_add_elem (nd x : node) (s : list node) : x ∈ set_add nd s ↔ x = nd ∨ x ∈ s.
Proof.
  unfold set_add. case_decide.
  - split; [auto|]. intros [->|?]; done.
  - rewrite elem_of_app, list_elem_of_singleton. tauto.
Qed.

Lemma set_add_NoDup (nd : node) (s : list node) : NoDup s → NoDup (set_add nd s).
Proof.
  intros Hs. unfold set_add. case_decide; [done|].
  apply NoDup_app. split; [done|]. split; [|apply NoDup_singleton].
  intros x Hx ->%list_elem_of_singleton. done.
Qed.

Lemma in_group_moved g_n nd g newest s t x g' :
  g_n !! g = Some s → nd ∈ s → newest < length g_n →
  <[g := filter (fun x => x ≠ nd) s]> g_n !! newest = Some t →
  (∀ g0, in_group g_n nd g0 → g0 = g) →
  in_group (moved g_n nd g newest s t) x g'
  ↔ (x = nd ∧ g' = newest) ∨ (x ≠ nd ∧ in_group g_n x g').
Proof.
  intros Hs Hnd Hnew Ht Honly. unfold in_group, moved.
  assert (g < length g_n) as Hg by (by eapply lookup_lt_Some).
  split.
  - intros (s2 & Hs2 & Hx).
    apply list_lookup_insert_Some in Hs2 as [(<- & <- & _)|[Hne Hs2]].
    + apply set_add_elem in Hx as [->|Hx]; [by left|].
      apply list_lookup_insert_Some in Ht as [(<- & <- & _)|[Hne Ht]].
      * apply list_elem_of_filter in Hx as [Hxn Hx]. right. split; [done|]. by exists s.
      * destruct (decide (x = nd)) as [->|Hxn]; [|right; split; [done|by exists t]].
        exfalso. apply Hne. symmetry. apply Honly. by exists t.
    + apply list_lookup_insert_Some in Hs2 as [(<- & <- & _)|[Hne2 Hs2]].
      * apply list_elem_of_filter in Hx as [Hxn Hx]. right. split; [done|]. by exists s.
      * destruct (decide (x = nd)) as [->|Hxn]; [|right; split; [done|by exists s2]].
        exfalso. apply Hne2. symmetry. apply Honly. by exists s2.
  - intros [[-> ->]|[Hxn (s2 & Hs2 & Hx)]].
    + exists (set_add nd t). split; [|apply set_add_elem; by left].
      apply list_lookup_insert_eq. by rewrite length_insert.
    + destruct (decide (g' = newest)) as [->|Hne].
      * exists (set_add nd t). split.
        { apply list_lookup_insert_eq. by rewrite length_insert. }
        apply set_add_elem. right.
        apply list_lookup_insert_Some in Ht as [(<- & <- & _)|[Hne Ht]].
        -- apply list_elem_of_filter. split; [done|]. congruence.
        -- congruence.
      * destruct (decide (g' = g)) as [->|Hne2].
        -- exists (filter (fun x => x ≠ nd) s). split.
           { rewrite list_lookup_insert_ne by done. by apply list_lookup_insert_eq. }
           apply list_elem_of_filter. split; [done|]. congruence.
        -- exists s2. split; [|done]. by rewrite !list_lookup_insert_ne.
Qed.

Lemma move_node_wf self nd :
  wf self → nd ∈ graph self →
  ∃ self', _move_node_to_new_group nd self = (Ok tt, self') ∧ wf self'
           ∧ k self' = k self ∧ map_n_g self' !! nd = Some (k self - 1)
           ∧ same_graph self self'.
Proof.
  intros [Hrows Hpart] Hin. pose proof Hrows as (Hnd & Hlen & _).
  destruct Hpart as (Hk & Hsets & Hng & Hdom).
  pose proof Hin as [g Hg]%Hdom. pose proof Hg as (s & Hs & Hins)%Hng.
  assert (g < k self) as Hgk by (rewrite <- Hk; by eapply lookup_lt_Some).
  unfold _move_node_to_new_group, mbind, M_bind, reading, modify.
  rewrite Hg. cbn [of_option]. cbn beta iota. rewrite Hs. cbn [of_option]. cbn beta iota.
  unfold set_remove. rewrite decide_True by done. cbn beta iota.
  cbn [k set_map_g_n map_g_n map_n_g set_map_n_g].
  rewrite decide_False by lia. cbn beta iota.
  set (g_n1 := <[g := filter (fun x => x ≠ nd) s]> (map_g_n self)).
  destruct (lookup_lt_is_Some_2 g_n1 (k self - 1)) as [t Ht].
  { subst g_n1. rewrite length_insert. lia. }
  rewrite Ht. cbn [of_option]. cbn beta iota.
  cbn [k set_map_g_n map_g_n map_n_g set_map_n_g].
  set (g_n2 := <[k self - 1 := set_add nd t]> g_n1).
  set (n_g2 := <[nd := k self - 1]> (map_n_g self)).
  set (self2 := set_map_n_g n_g2 _).
  assert (∀ x g', in_group g_n2 x g'
            ↔ (x = nd ∧ g' = k self - 1) ∨ (x ≠ nd ∧ in_group (map_g_n self) x g')) as Hmoved.
  { intros x g'. apply (in_group_moved (map_g_n self) nd g (k self - 1) s t); try done.
    - lia.
    - intros g0 Hg0. apply Hng in Hg0. congruence. }
  assert (rows_ok self2) as Hrows2 by done.
  assert (partition_ok self2) as Hpart2.
  { subst self2. repeat split; cbn [map_g_n map_n_g k graph set_map_n_g set_map_g_n].
    - subst g_n2 g_n1. by rewrite !length_insert.
    - subst g_n2 g_n1. apply Forall_insert; [apply Forall_insert; [done|]|].
      + apply NoDup_filter. eapply (proj1 (Forall_forall _ _) Hsets).
        by eapply list_elem_of_lookup_2.
      + apply set_add_NoDup.
        apply list_lookup_insert_Some in Ht as [(_ & <- & _)|[_ Ht]].
        * apply NoDup_filter. eapply (proj1 (Forall_forall _ _) Hsets).
          by eapply list_elem_of_lookup_2.
        * eapply (proj1 (Forall_forall _ _) Hsets). by eapply list_elem_of_lookup_2.
    - intros Hl. apply Hmoved. subst n_g2.
      apply lookup_insert_Some in Hl as [[-> <-]|[Hne Hl]]; [by left|].
      right. split; [done|]. by apply Hng.
    - intros [[-> ->]|[Hne Hl]]%Hmoved; subst n_g2.
      + apply lookup_insert_eq.
      + rewrite lookup_insert_ne by done. by apply Hng.
    - intros Hx. subst n_g2. apply lookup_insert_is_Some'. right. by apply Hdom.
    - intros [Hx|Hx]%lookup_insert_is_Some'; [by subst|by apply Hdom]. }
  destruct (rearrange_succeeds g_n2 n_g2 self2)
    as (self3 & Hre & Hrows3 & Hg3 & Hn3 & Hk3 & Hgr3 & _); try done.
  { by apply (partition_covers self2). }
  { apply (size_dom_graph self2); [done|]. by destruct Hpart2 as (_ & _ & _ & ?). }
  { by destruct Hpart2 as (? & _). }
  rewrite Hre. cbn beta iota.
  assert (wf self3) as Hwf3.
  { split; [done|]. destruct Hpart2 as (? & ? & ? & ?).
    unfold partition_ok. rewrite Hg3, Hn3, Hk3, Hgr3. done. }
  destruct (recalculate_succeeds self3) as (w' & P' & -> & _).
  { by destruct Hwf3 as [_ (? & _)]. }
  { destruct Hwf3 as [(Hnd3 & Hlen3 & _) Hp3].
    rewrite (partition_covers self3 Hnd3 Hp3). lia. }
  eexists. split; [done|]. split; [by apply wf_set_cache|].
  cbn [k set_P set_w map_n_g]. split; [done|].
  split; [rewrite Hn3; subst n_g2; apply lookup_insert_eq|].
  apply (same_graph_trans _ self3); [|by apply same_graph_fields].
  apply (same_graph_trans _ self2); [by apply same_graph_fields|].
  by eapply rearrange_same_graph.
Qed.

Lemma on_obj_reading {A} (f : Autopart → result A) wd :
  on_obj (reading f) wd = (f (obj wd), wd).
Proof. unfold on_obj, reading. by destruct wd. Qed.

Lemma emit_spec level ev wd :
  ∃ out, emit level ev wd = (Ok tt, mkWorld (obj wd) (log_level wd) out).
Proof.
  unfold emit, when_level, write. destruct (_ <=? _)%Z; [by eexists|].
  exists (emitted wd). by destruct wd.
Qed.

Lemma report_adj_matrix_spec name it wd r wd' :
  _report_adj_matrix name it wd = (r, wd') →
  log_level wd' = log_level wd
  ∧ (r = Ok tt → obj wd' = set_step (step (obj wd) + 1) (obj wd)).
Proof.
  unfold _report_adj_matrix, mbind, MW_bind, when_level.
  destruct (_ <=? _)%Z.
  - rewrite (on_obj_reading _plot_adj_matrix wd).
    destruct (_plot_adj_matrix (obj wd)) as [plot|]; cbn beta iota.
    + rewrite on_obj_reading. cbn beta iota. unfold write, on_obj, modify. cbn.
      intros [= <- <-]. done.
    + intros [= <- <-]. done.
  - unfold on_obj, modify. cbn. intros [= <- <-]. done.
Qed.

Lemma assigned_step n_g g_n seen nd g s :
  assigned n_g g_n seen → nd ∉ seen → g_n !! g = Some s →
  assigned (<[nd := g]> n_g) (<[g := set_add nd s]> g_n) (seen ++ [nd]).
Proof.
  intros (Hsets & Hng & Hdom) Hnew Hs.
  assert (g < length g_n) as Hg by (by eapply lookup_lt_Some).
  assert (n_g !! nd = None) as Hnone.
  { destruct (n_g !! nd) eqn:E; [|done]. exfalso. apply Hnew, Hdom. by eexists. }
  assert (∀ x g', in_group (<[g := set_add nd s]> g_n) x g'
            ↔ (x = nd ∧ g' = g) ∨ in_group g_n x g') as Hin.
  { intros x g'. unfold in_group. split.
    - intros (s2 & Hs2 & Hx).
      apply list_lookup_insert_Some in Hs2 as [(<- & <- & _)|[Hne Hs2]]; [|right; eauto].
      apply set_add_elem in Hx as [->|Hx]; [by left|right; eauto].
    - intros [[-> ->]|(s2 & Hs2 & Hx)].
      + exists (set_add nd s). split; [by apply list_lookup_insert_eq|].
        apply set_add_elem. by left.
      + destruct (decide (g' = g)) as [->|Hne].
        * exists (set_add nd s). split; [by apply list_lookup_insert_eq|].
          apply set_add_elem. right. congruence.
        * exists s2. by rewrite list_lookup_insert_ne. }
  repeat split.
  - apply Forall_insert; [done|]. apply set_add_NoDup.
    eapply (proj1 (Forall_forall _ _) Hsets). by eapply list_elem_of_lookup_2.
  - intros Hl. apply Hin. apply lookup_insert_Some in Hl as [[-> <-]|[Hne Hl]]; [by left|].
    right. by apply Hng.
  - intros [[-> ->]|Hg']%Hin; [apply lookup_insert_eq|].
    apply Hng in Hg'. rewrite lookup_insert_ne; [done|]. congruence.
  - intros [Hx| ->%list_elem_of_singleton]%elem_of_app; apply lookup_insert_is_Some'; auto.
    right. by apply Hdom.
  - intros [->|Hx]%lookup_insert_is_Some'; apply elem_of_app; [right; by left|].
    left. by apply Hdom.
Qed.

Lemma assign_nodes_spec nds : ∀ n_g g_n seen wd n_g' g_n' wd',
  assign_nodes nds n_g g_n wd = (Ok (n_g', g_n'), wd') →
  assigned n_g g_n seen → NoDup (seen ++ nds) →
  obj wd' = obj wd ∧ log_level wd' = log_level wd
  ∧ length g_n' = length g_n ∧ assigned n_g' g_n' (seen ++ nds).
Proof.
  induction nds as [|nd rest IH]; intros n_g g_n seen wd n_g' g_n' wd' Hrun Ha Hnd.
  - simpl in Hrun. injection Hrun as <- <- <-. by rewrite app_nil_r.
  - cbn [assign_nodes] in Hrun. unfold mbind, MW_bind in Hrun.
    rewrite on_obj_reading in Hrun.
    destruct (next_group_of (obj wd) nd) as [g|]; [|done]. cbn beta iota in Hrun.
    rewrite on_obj_reading in Hrun.
    destruct (g_n !! g) as [s|] eqn:Hs; [|done]. cbn [of_option] in Hrun.
    cbn beta iota in Hrun. rewrite on_obj_reading in Hrun.
    destruct (of_option KeyError (map_n_g (obj wd) !! nd)) as [cur|]; [|done].
    cbn beta iota in Hrun.
    destruct (emit_spec DEBUG (Debug_move nd cur g) wd) as [out Hout].
    unfold logging_debug in Hrun. rewrite Hout in Hrun. cbn beta iota in Hrun.
    apply (IH _ _ (seen ++ [nd])) in Hrun as (Ho & Hl & Hlen & Hass).
    + rewrite length_insert in Hlen. by rewrite <- app_assoc in Hass.
    + apply assigned_step; [done| |done].
      apply NoDup_app in Hnd as (_ & Hdisj & _). intros Hin. apply (Hdisj nd Hin). by left.
    + by rewrite <- app_assoc.
Qed.

Lemma replicate_lookup_nil (n g : nat) (s : list node) :
  replicate n [] !! g = Some s → s = [].
Proof. intros [-> _]%lookup_replicate. done. Qed.

Lemma assigned_start n : assigned ∅ (replicate n []) [].
Proof.
  repeat split.
  - apply Forall_replicate. constructor.
  - by rewrite lookup_empty.
  - intros (s & Hs & Hin). apply replicate_lookup_nil in Hs as ->. by apply elem_of_nil in Hin.
  - by intros ?%elem_of_nil.
  - rewrite lookup_empty. by intros [? ?].
Qed.

Lemma wf_set_step self n : wf self → wf (set_step n self).
Proof. done. Qed.

Lemma inner_iteration_wf it wd prev cur wd' :
  wf (obj wd) → inner_iteration it wd = (Ok (prev, cur), wd') → wf (obj wd').
Proof.
  intros [Hrows Hpart] Hrun. pose proof Hrows as (Hnd & _).
  unfold inner_iteration, mbind, MW_bind in Hrun.
  rewrite on_obj_reading in Hrun. cbn beta iota in Hrun.
  destruct (assign_nodes _ _ _ wd) as [[[n_g g_n]|] wd1] eqn:Hassign; [|done].
  apply (assign_nodes_spec _ _ _ []) in Hassign as (Ho1 & Hl1 & Hlen & Hass);
    [|apply assigned_start|done].
  simpl in Hass. rewrite length_replicate in Hlen.
  cbn beta iota in Hrun. rewrite on_obj_reading in Hrun.
  destruct (total_cost (obj wd1)) as [c0|]; [|done]. cbn beta iota in Hrun.
  assert (partition_ok (set_map_n_g n_g (set_map_g_n g_n (obj wd)))) as Hpart1.
  { destruct Hass as (Ha1 & Ha2 & Ha3). destruct Hpart as (Hk & _).
    unfold nodes in Ha3. split; [done|]. split; [done|]. split; [done|]. exact Ha3. }
  destruct (rearrange_succeeds g_n n_g (obj wd1))
    as (self2 & Hre & Hrows2 & Hg2 & Hn2 & Hk2 & Hgr2 & _).
  { by rewrite Ho1. }
  { rewrite Ho1.
    exact (partition_covers (set_map_n_g n_g (set_map_g_n g_n (obj wd))) Hnd Hpart1). }
  { rewrite Ho1. apply (size_dom_graph (set_map_n_g n_g (set_map_g_n g_n (obj wd)))); [done|].
    by destruct Hpart1 as (_ & _ & _ & ?). }
  { by rewrite Ho1. }
  unfold on_obj at 1 in Hrun. rewrite Hre in Hrun. cbn beta iota in Hrun.
  rewrite on_obj_reading in Hrun. cbn beta iota in Hrun.
  match type of Hrun with context [logging_info ?ev ?w] =>
    destruct (emit_spec INFO ev w) as [out Hout]; unfold logging_info in Hrun;
    rewrite Hout in Hrun end.
  cbn beta iota in Hrun.
  destruct (_report_adj_matrix inner it _) as [[[]|] wd3] eqn:Hrep; [|done].
  apply report_adj_matrix_spec in Hrep as [_ Hobj]. specialize (Hobj eq_refl).
  cbn beta iota in Hrun. rewrite on_obj_reading in Hrun.
  destruct (total_cost (obj wd3)); [|done]. injection Hrun as _ _ <-.
  rewrite Hobj. cbn [obj]. apply wf_set_step. split; [done|].
  unfold partition_ok. rewrite Hg2, Hn2, Hk2, Hgr2, Ho1. done.
Qed.

(** ** Independence of the logger *)

Lemma blind_ret {A} (Pre : Autopart → Prop) (a : A) :
  blind Pre (mret a) (fun b self => b = a ∧ Pre self).
Proof. intros wd1 wd2 Ho Hk. cbn. split; [done|]. split; [done|]. by intros ? [= <-]. Qed.

Lemma blind_bind {A B} Pre Mid Post (m : MW A) (f : A → MW B) :
  blind Pre m Mid → (∀ a, blind (Mid a) (f a) Post) → blind Pre (m ≫= f) Post.
Proof.
  intros Hm Hf wd1 wd2 Ho Hk. unfold mbind, MW_bind.
  destruct (Hm wd1 wd2 Ho Hk) as (Hr & Ho' & Hk').
  destruct (m wd1) as [[a|e] wd1'], (m wd2) as [[a2|e2] wd2']; simpl in *; simplify_eq.
  - apply Hf; [done|]. by apply Hk'.
  - done.
Qed.

Lemma blind_weaken {A} (Pre Pre' : Autopart → Prop) (Post Post' : A → Autopart → Prop) m :
  blind Pre m Post → (∀ s, Pre' s → Pre s) → (∀ a s, Post a s → Post' a s) →
  blind Pre' m Post'.
Proof.
  intros Hm H1 H2 wd1 wd2 Ho Hk. destruct (Hm wd1 wd2 Ho (H1 _ Hk)) as (? & ? & ?).
  split; [done|]. split; [done|]. eauto.
Qed.

Lemma blind_on_obj {A} Pre Post (m : M A) :
  (∀ self a self', Pre self → m self = (Ok a, self') → Post a self') →
  blind Pre (on_obj m) Post.
Proof.
  intros Hm wd1 wd2 Ho Hk. unfold on_obj. rewrite <- Ho.
  destruct (m (obj wd1)) as [r self'] eqn:E. simpl.
  split; [done|]. split; [done|]. intros a ->. by eapply Hm.
Qed.

Lemma blind_reading {A} Pre (f : Autopart → result A) :
  blind Pre (on_obj (reading f)) (fun a self => f self = Ok a ∧ Pre self).
Proof. apply blind_on_obj. intros self a self' Hp [= Hf <-]. done. Qed.

Lemma blind_emit Pre level ev : blind Pre (emit level ev) (fun _ self => Pre self).
Proof.
  intros wd1 wd2 Ho Hk.
  destruct (emit_spec level ev wd1) as [o1 ->], (emit_spec level ev wd2) as [o2 ->].
  simpl. done.
Qed.

Lemma plot_is_ok self : keys_ok self → is_ok (_plot_adj_matrix self).
Proof.
  intros Hk. unfold _plot_adj_matrix.
  assert (is_ok (mapM (group_start_idx self) (groups self))) as [idxs ->]; [|by eexists].
  apply mapM_is_ok. intros g Hg. apply elem_of_seq in Hg.
  rewrite group_start_idx_Ok by (unfold keys_ok in Hk; lia). by eexists.
Qed.

Lemma blind_report_adj_matrix name it :
  blind keys_ok (_report_adj_matrix name it) (fun _ self => keys_ok self).
Proof.
  intros wd1 wd2 Ho Hk.
  assert (∀ wd, keys_ok (obj wd) →
     ∃ out, _report_adj_matrix name it wd
            = (Ok tt, mkWorld (set_step (step (obj wd) + 1) (obj wd)) (log_level wd) out))
    as Hspec.
  { intros wd Hkw. unfold _report_adj_matrix, mbind, MW_bind, when_level.
    destruct (_ <=? _)%Z.
    - rewrite (on_obj_reading _plot_adj_matrix wd).
      destruct (plot_is_ok _ Hkw) as [plot ->]. cbn beta iota.
      rewrite (on_obj_reading (fun self => Ok (step self)) wd). cbn beta iota.
      unfold write, on_obj, modify. cbn. by eexists.
    - unfold on_obj, modify. cbn. by eexists. }
  destruct (Hspec wd1 Hk) as [o1 ->]. pose proof Hk as Hk2. rewrite Ho in Hk2.
  destruct (Hspec wd2 Hk2) as [o2 ->]. simpl. rewrite Ho. done.
Qed.

Lemma recalculate_fields self r self' :
  _recalculate_block_properties self = (r, self') →
  map_g_n self' = map_g_n self ∧ k self' = k self.
Proof.
  unfold _recalculate_block_properties, mbind, M_bind, reading, modify.
  destruct (compute_w self); cbn beta iota; [|by intros [= _ <-]].
  destruct (compute_P _); cbn beta iota; by intros [= _ <-].
Qed.

Lemma rearrange_fields g_n n_g self self' :
  _rearrange_matrix_and_mappings g_n n_g self = (Ok tt, self') →
  map_g_n self' = g_n ∧ k self' = k self.
Proof.
  rewrite rearrange_unfold. intros Hrun.
  repeat (case_bool_decide || case_match || done).
  by apply recalculate_fields in Hrun as [-> ->].
Qed.

Lemma keeps_keys_add_new_group : keeps_keys _add_new_group.
Proof.
  intros self a self' Hk. unfold _add_new_group, mbind, M_bind, reading, modify.
  cbn beta iota. intros Hrun. apply recalculate_fields in Hrun as [Hg Hkk].
  unfold keys_ok in *. rewrite Hg, Hkk. cbn. unfold dict_set.
  rewrite decide_False by lia. rewrite length_app. simpl. lia.
Qed.

Lemma keeps_keys_move nd : keeps_keys (_move_node_to_new_group nd).
Proof.
  intros self a self' Hk. unfold _move_node_to_new_group, mbind, M_bind, reading, modify.
  intros Hrun.
  destruct (of_option KeyError (map_n_g self !! nd)) as [g|]; [|done].
  cbn beta iota in Hrun.
  destruct (of_option KeyError (map_g_n self !! g)) as [s|]; [|done].
  cbn beta iota in Hrun.
  destruct (set_remove nd s) as [s'|]; [|done]. cbn beta iota in Hrun.
  cbn [k set_map_g_n map_g_n map_n_g set_map_n_g] in Hrun.
  destruct (decide (k self = 0)); [done|]. cbn beta iota in Hrun.
  destruct (of_option KeyError (<[g:=s']> (map_g_n self) !! (k self - 1))) as [t|]; [|done].
  cbn beta iota in Hrun. cbn [k set_map_g_n map_g_n map_n_g set_map_n_g] in Hrun.
  match type of Hrun with context [_rearrange_matrix_and_mappings ?x ?y ?z] =>
    destruct (_rearrange_matrix_and_mappings x y z) as [[[]|] self3] eqn:Hre; [|done] end.
  cbn beta iota in Hrun.
  apply rearrange_fields in Hre as [Hg3 Hk3]. apply recalculate_fields in Hrun as [Hg4 Hk4].
  unfold keys_ok in *. rewrite Hg4, Hk4, Hg3, Hk3. cbn.
  by rewrite !length_insert.
Qed.

Lemma keeps_keys_seed_split group_r members : keeps_keys (seed_split group_r members).
Proof.
  induction members as [|nd rest IH]; intros self a self' Hk.
  - simpl. by intros [= _ <-].
  - cbn [seed_split]. unfold mbind, M_bind, reading. intros Hrun.
    destruct (group_entropy_per_node_exclude self group_r nd); [|done].
    cbn beta iota in Hrun.
    destruct (group_entropy_per_node self group_r); [|done]. cbn beta iota in Hrun.
    destruct (Rlt_dec _ _).
    + destruct (_move_node_to_new_group nd self) as [[[]|] self1] eqn:Hmove; [|done].
      cbn beta iota in Hrun. eapply IH; [|done]. by eapply keeps_keys_move.
    + cbn in Hrun. by eapply IH.
Qed.

Lemma keeps_keys_rearrange g_n n_g self self' :
  length g_n = k self →
  _rearrange_matrix_and_mappings g_n n_g self = (Ok tt, self') → keys_ok self'.
Proof.
  intros Hl Hrun. apply rearrange_fields in Hrun as [Hg3 Hk3].
  unfold keys_ok. by rewrite Hg3, Hk3.
Qed.

Lemma blind_assign_nodes nds : ∀ n_g g_n kk,
  blind (fun self => keys_ok self ∧ length g_n = kk ∧ k self = kk)
    (assign_nodes nds n_g g_n)
    (fun r self => keys_ok self ∧ length r.2 = k self).
Proof.
  induction nds as [|nd rest IH]; intros n_g g_n kk.
  - cbn [assign_nodes]. eapply blind_weaken; [apply blind_ret| |].
    + intros s Hs. exact Hs.
    + intros [a b] s [Heq (Hk & Hl & Hkk)]. simplify_eq. simpl. split; [done|]. lia.
  - cbn [assign_nodes].
    eapply blind_bind; [apply blind_reading|]. intros g. cbn beta.
    eapply blind_bind; [apply blind_reading|]. intros s. cbn beta.
    eapply blind_bind; [apply blind_reading|]. intros cur. cbn beta.
    eapply blind_bind; [apply blind_emit|]. intros ?. cbn beta.
    eapply blind_weaken; [apply (IH _ _ kk)| |done].
    intros s0 (_ & _ & _ & Hk & Hl & Hkk). rewrite length_insert. done.
Qed.

Lemma blind_inner_iteration it :
  blind keys_ok (inner_iteration it) (fun _ self => keys_ok self).
Proof.
  unfold inner_iteration.
  eapply blind_bind; [apply blind_reading|]. intros self. cbn beta.
  eapply blind_bind.
  { eapply blind_weaken; [apply (blind_assign_nodes _ _ _ (k self))| |].
    - intros s [[= ->] Hk]. rewrite length_replicate. done.
    - intros ? ? H. exact H. }
  intros [n_g g_n]. cbn beta iota.
  eapply blind_bind; [apply blind_reading|]. intros prev. cbn beta.
  eapply blind_bind.
  { apply (blind_on_obj _ (fun _ s => keys_ok s)).
    intros s [] s' (_ & Hk & Hl) Hrun. by eapply keeps_keys_rearrange. }
  intros ?. cbn beta.
  eapply blind_bind; [apply blind_reading|]. intros sizes. cbn beta.
  eapply blind_bind; [apply blind_emit|]. intros ?. cbn beta.
  eapply blind_bind.
  { eapply blind_weaken; [apply blind_report_adj_matrix| |].
    - intros s [_ Hk]. exact Hk.
    - intros ? ? H. exact H. }
  intros ?. cbn beta.
  eapply blind_bind; [apply blind_reading|]. intros cur. cbn beta.
  eapply blind_weaken; [apply blind_ret| |].
  - intros s H. exact H.
  - intros ? ? [_ [_ Hk]]. exact Hk.
Qed.

Lemma blind_inner_loop fuel : ∀ it, blind_loop (inner_loop_from fuel it).
Proof.
  induction fuel as [|fuel IH]; intros it wd1 wd2 Ho Hk; [done|].
  cbn [inner_loop_from].
  destruct (blind_inner_iteration it wd1 wd2 Ho Hk) as (Hr & Ho' & Hk').
  destruct (inner_iteration it wd1) as [[[p1 c1]|e1] wd1a],
           (inner_iteration it wd2) as [[[p2 c2]|e2] wd2a];
    cbn [fst snd] in Hr, Ho', Hk'; try discriminate Hr.
  2:{ injection Hr as ->. split; [done|]. split; [done|]. by intros [? ?]. }
  injection Hr as -> ->. specialize (Hk' _ eq_refl).
  destruct (Rlt_dec _ _).
  - split; [done|]. split; [done|]. done.
  - destruct (emit_spec DEBUG (Debug_iteration_inner (S it)) wd1a) as [o1 E1].
    destruct (emit_spec DEBUG (Debug_iteration_inner (S it)) wd2a) as [o2 E2].
    unfold logging_debug. rewrite E1, E2. cbn [snd].
    apply IH; cbn [obj]; done.
Qed.

Lemma blind_split_phase it :
  blind keys_ok (split_phase it) (fun _ self => keys_ok self).
Proof.
  unfold split_phase.
  eapply blind_bind; [apply blind_reading|]. intros prev. cbn beta.
  eapply blind_bind; [apply blind_reading|]. intros group_r. cbn beta.
  eapply blind_bind.
  { apply (blind_on_obj _ (fun _ s => keys_ok s)).
    intros s ? s' (_ & _ & Hk) Hrun. by eapply keeps_keys_add_new_group. }
  intros ?. cbn beta.
  eapply blind_bind; [apply blind_reading|]. intros members. cbn beta.
  eapply blind_bind.
  { apply (blind_on_obj _ (fun _ s => keys_ok s)).
    intros s ? s' (_ & Hk) Hrun. by eapply keeps_keys_seed_split. }
  intros ?. cbn beta.
  eapply blind_bind; [apply blind_reading|]. intros sizes. cbn beta.
  eapply blind_bind; [apply blind_emit|]. intros ?. cbn beta.
  eapply blind_bind.
  { eapply blind_weaken; [apply blind_report_adj_matrix| |].
    - intros s [_ Hk]. exact Hk.
    - intros ? ? H. exact H. }
  intros ?. cbn beta.
  eapply blind_weaken; [apply blind_ret| |].
  - intros s H. exact H.
  - intros ? ? [_ Hk]. exact Hk.
Qed.

Lemma blind_after_inner :
  blind keys_ok (_report_code_cost;; on_obj (reading total_cost))
    (fun _ self => keys_ok self).
Proof.
  eapply (blind_bind _ (fun _ s => keys_ok s)).
  { unfold _report_code_cost.
    eapply blind_bind; [apply blind_reading|]. intros stp. cbn beta.
    eapply blind_bind; [apply blind_reading|]. intros c. cbn beta.
    eapply blind_weaken; [apply blind_emit| |].
    - intros s H. exact H.
    - intros ? s (_ & _ & Hk). exact Hk. }
  intros ?. cbn beta.
  eapply blind_weaken; [apply blind_reading| |].
  - intros s Hk. exact Hk.
  - intros ? s [_ Hk]. exact Hk.
Qed.

Lemma blind_run fuel : ∀ it, blind_loop (run_from fuel it).
Proof.
  induction fuel as [|fuel IH]; intros it wd1 wd2 Ho Hk; [done|].
  cbn [run_from].
  destruct (blind_split_phase it wd1 wd2 Ho Hk) as (Hr & Ho' & Hk').
  destruct (split_phase it wd1) as [[p1|e1] wd1a],
           (split_phase it wd2) as [[p2|e2] wd2a];
    cbn [fst snd] in Hr, Ho', Hk'; try discriminate Hr.
  2:{ injection Hr as ->. split; [done|]. split; [done|]. by intros [? ?]. }
  injection Hr as ->. specialize (Hk' _ eq_refl).
  pose proof (blind_inner_loop fuel 0 wd1a wd2a Ho' Hk') as Hin.
  unfold _inner_loop.
  destruct (inner_loop_from fuel 0 wd1a) as [[[[]|e1] wd1b]|],
           (inner_loop_from fuel 0 wd2a) as [[[[]|e2] wd2b]|]; try done;
    destruct Hin as (Hr2 & Ho2 & Hk2); try discriminate Hr2.
  assert (keys_ok (obj wd1b)) as Hk2' by (apply Hk2; by eexists).
  destruct (blind_after_inner wd1b wd2b Ho2 Hk2') as (Hr3 & Ho3 & Hk3).
  destruct ((_report_code_cost;; on_obj (reading total_cost)) wd1b) as [[c1|e1] wd1c],
           ((_report_code_cost;; on_obj (reading total_cost)) wd2b) as [[c2|e2] wd2c];
    cbn [fst snd] in Hr3, Ho3, Hk3; try discriminate Hr3.
  2:{ injection Hr3 as ->. split; [done|]. split; [done|]. by intros [? ?]. }
  injection Hr3 as ->. specialize (Hk3 _ eq_refl).
  destruct (Rlt_dec _ _).
  - split; [done|]. split; [done|]. done.
  - destruct (emit_spec DEBUG (Debug_iteration_outer (S it)) wd1c) as [o1 E1].
    destruct (emit_spec DEBUG (Debug_iteration_outer (S it)) wd2c) as [o2 E2].
    unfold logging_debug. rewrite E1, E2. cbn [snd].
    apply IH; cbn [obj]; done.
Qed.

(** ** Logarithms *)

Section logarithms.
Local Open Scope R_scope.

Lemma ln2_pos : 0 < ln 2.
Proof. rewrite <- ln_1. apply ln_increasing; lra. Qed.

Lemma log2R_1 : log2R 1 = 0.
Proof. unfold log2R. rewrite ln_1. lra. Qed.

Lemma log2R_2 : log2R 2 = 1.
Proof. unfold log2R. field. pose proof ln2_pos. lra. Qed.

Lemma log2R_mult x y : 0 < x → 0 < y → log2R (x * y) = log2R x + log2R y.
Proof.
  intros Hx Hy. unfold log2R. rewrite ln_mult by done. field. pose proof ln2_pos. lra.
Qed.

Lemma log2R_inv x : 0 < x → log2R (/ x) = - log2R x.
Proof.
  intros Hx. unfold log2R. rewrite ln_Rinv by done. field. pose proof ln2_pos. lra.
Qed.

Lemma log2R_lt x y : 0 < x → x < y → log2R x < log2R y.
Proof.
  intros Hx Hxy. unfold log2R. apply Rmult_lt_compat_r.
  - apply Rinv_0_lt_compat, ln2_pos.
  - by apply ln_increasing.
Qed.

Lemma log2R_le x y : 0 < x → x <= y → log2R x <= log2R y.
Proof.
  intros Hx [Hlt| ->]; [left; by apply log2R_lt|right; done].
Qed.

Lemma log2R_neg x : 0 < x → x < 1 → log2R x < 0.
Proof. intros H0 H1. rewrite <- log2R_1. by apply log2R_lt. Qed.

Lemma log2R_pow x (n : nat) : 0 < x → log2R (x ^ n) = INR n * log2R x.
Proof.
  intros Hx. unfold log2R. rewrite ln_pow by done. field. pose proof ln2_pos. lra.
Qed.

(** [log2 x <= x - 1/3] for every positive [x]: each round of the loop of
    [log_star] lowers [val] by a fixed amount. *)
Lemma exp_three_quarters : 2 < exp (3 / 4).
Proof.
  assert (1 + 3 / 32 <= exp (3 / 32)) as H by apply exp_ineq1_le.
  replace (3 / 4) with (3/32 + 3/32 + 3/32 + 3/32 + 3/32 + 3/32 + 3/32 + 3/32) by lra.
  rewrite !exp_plus.
  set (e := exp (3 / 32)) in *.
  assert (35 / 32 <= e) as He by lra.
  assert ((35/32) * (35/32) <= e * e) as H2 by nra.
  assert ((35/32) * (35/32) * ((35/32) * (35/32)) <= e * e * (e * e)) as H4 by nra.
  assert (2 < (35/32) * (35/32) * ((35/32) * (35/32)) * ((35/32) * (35/32) * ((35/32) * (35/32)))) as Hc by lra.
  assert ((35/32) * (35/32) * ((35/32) * (35/32)) * ((35/32) * (35/32) * ((35/32) * (35/32)))
          <= e * e * (e * e) * (e * e * (e * e))) as H8 by nra.
  nra.
Qed.

Lemma ln2_lt : ln 2 < 3 / 4.
Proof.
  rewrite <- (ln_exp (3 / 4)). apply ln_increasing; [lra|]. apply exp_three_quarters.
Qed.

Lemma ln_le_tangent x : 0 < x → ln x <= x - 1.
Proof.
  intros Hx. pose proof (exp_ineq1_le (ln x)) as H. rewrite exp_ln in H by done. lra.
Qed.

Lemma log2R_decrease x : 0 < x → log2R x <= x - 1 / 3.
Proof.
  intros Hx. unfold log2R.
  pose proof ln2_lt as H1.
  assert (ln 2 > 1 / 2) as Hl2 by (pose proof ln_lt_2; lra).
  (* the tangent of ln at 2 *)
  assert (ln x <= x / 2 - 1 + ln 2) as Ht.
  { pose proof (ln_le_tangent (x * / 2)) as H. rewrite ln_mult, ln_Rinv in H by lra. lra. }
  apply (Rmult_le_reg_r (ln 2)); [lra|].
  replace (ln x / ln 2 * ln 2) with (ln x) by (field; lra).
  assert (0 <= (ln 2 - 1 / 2) * x) as Hp by (apply Rmult_le_pos; lra).
  lra.
Qed.

Lemma epsilon_pos : 0 < epsilon.
Proof. unfold epsilon. lra. Qed.

(** The loop of [log_star] stops: [val] drops by a third in every round
    and the loop goes on only while it is above [epsilon]. *)
Lemma log_star_loop_terminates (fuel : nat) (val res : R) :
  val <= INR fuel / 3 → is_Some (log_star_loop (S fuel) val res).
Proof.
  revert val res. induction fuel as [|fuel IH]; intros val res Hval.
  - simpl in Hval. simpl. pose proof epsilon_pos.
    destruct (Rgt_dec val epsilon); [lra|]. by eexists.
  - cbn [log_star_loop]. destruct (Rgt_dec val epsilon) as [Hgt|]; [|by eexists].
    apply IH. pose proof epsilon_pos.
    pose proof (log2R_decrease val) as Hd. rewrite S_INR in Hval. lra.
Qed.

(** More fuel does not change what the loop returns. *)
Lemma log_star_loop_more (fuel extra : nat) (val res r : R) :
  log_star_loop fuel val res = Some r → log_star_loop (fuel + extra) val res = Some r.
Proof.
  revert val res. induction fuel as [|fuel IH]; intros val res; [done|].
  cbn [log_star_loop Nat.add]. destruct (Rgt_dec val epsilon); [apply IH|done].
Qed.

(** [log_star] is total on the positive integers, and the value it returns
    is the one the loop reaches, whatever the fuel beyond [log_star_fuel]. *)
Lemma log_star_total (x : Z) :
  (0 < x)%Z →
  ∃ r, log_star x = Ok r
       ∧ ∀ extra, log_star_loop (log_star_fuel x + extra) (log2R (IZR x)) 0 = Some r.
Proof.
  intros Hx. unfold log_star. destruct (Z.leb_spec x 0) as [|_]; [lia|].
  destruct (log_star_loop_terminates (Z.to_nat (3 * x)) (log2R (IZR x)) 0) as [r Hr].
  { rewrite INR_IZR_INZ, Z2Nat.id by lia. rewrite mult_IZR.
    pose proof (log2R_decrease (IZR x)) as Hd.
    assert (0 < IZR x) by (by apply IZR_lt). lra. }
  exists r. unfold log_star_fuel. rewrite Hr. split; [done|].
  intros extra. by apply log_star_loop_more.
Qed.

Lemma log_star_1 : log_star 1 = Ok 0.
Proof.
  unfold log_star, log_star_fuel. simpl. rewrite log2R_1.
  pose proof epsilon_pos. destruct (Rgt_dec 0 epsilon); [lra|done].
Qed.

Lemma log_star_2 : log_star 2 = Ok (0 + log2R 2).
Proof.
  unfold log_star, log_star_fuel. simpl.
  pose proof epsilon_pos. unfold epsilon in *.
  destruct (Rgt_dec (log2R 2) (1 / 10000)) as [_|Hn]; [|rewrite log2R_2 in Hn; lra].
  destruct (Rgt_dec (log2R (log2R 2)) (1 / 10000)) as [Hgt|_]; [|done].
  rewrite log2R_2, log2R_1 in Hgt. lra.
Qed.

End logarithms.

(** ** Deciding comparisons between sums of logarithms *)

Section soundness.
Local Open Scope R_scope.

Lemma Q2R_inject_Z z : Q2R (inject_Z z) = IZR z.
Proof. unfold Q2R. simpl. lra. Qed.

Lemma lsum_app a b : lsum (a ++ b) = lsum a + lsum b.
Proof. induction a as [|x a IH]; simpl; [lra|]. rewrite IH. lra. Qed.

Lemma lsum_scale s l :
  lsum ((fun cq : Q * Q => ((s * cq.1)%Q, cq.2)) <$> l) = Q2R s * lsum l.
Proof.
  induction l as [|x l IH]; [simpl; lra|].
  rewrite fmap_cons. unfold lsum in *. cbn [fold_right fst snd]. rewrite IH, Q2R_mult. lra.
Qed.

Lemma lin_eval_add a b : lin_eval (lin_add a b) = lin_eval a + lin_eval b.
Proof. unfold lin_eval, lin_add. cbn [fst snd]. rewrite Q2R_plus, lsum_app. lra. Qed.

Lemma lin_eval_scale s l : lin_eval (lin_scale s l) = Q2R s * lin_eval l.
Proof. unfold lin_eval, lin_scale. cbn [fst snd]. rewrite Q2R_mult, lsum_scale. lra. Qed.

Lemma Q2R_zero : Q2R 0 = 0.
Proof. unfold Q2R. simpl. lra. Qed.

Lemma Q2R_one : Q2R 1 = 1.
Proof. unfold Q2R. simpl. lra. Qed.

Lemma Q2R_m1 : Q2R (-1) = -1.
Proof. unfold Q2R. simpl. lra. Qed.

Lemma norm_sound e : ∀ l, norm e = Some l → denote e = lin_eval l.
Proof.
  induction e as [z|n|q|q|z|a IHa b IHb|a IHa b IHb|a IHa b IHb|a IHa b IHb|a IHa];
    intros l; simpl.
  - intros [= <-]. unfold lin_eval. simpl. rewrite Q2R_inject_Z. ring.
  - intros [= <-]. unfold lin_eval. simpl. rewrite Q2R_inject_Z, INR_IZR_INZ. ring.
  - intros [= <-]. unfold lin_eval. simpl. lra.
  - intros [= <-]. unfold lin_eval. simpl. rewrite Q2R_zero, Q2R_one. ring.
  - intros [= <-]. unfold lin_eval. simpl. rewrite Q2R_inject_Z, Q2R_zero, Q2R_one. ring.
  - destruct (norm a) as [la|]; simpl; [|done]. destruct (norm b) as [lb|]; simpl; [|done].
    intros [= <-]. rewrite lin_eval_add, (IHa la), (IHb lb); done.
  - destruct (norm a) as [la|]; simpl; [|done]. destruct (norm b) as [lb|]; simpl; [|done].
    intros [= <-]. rewrite lin_eval_add, lin_eval_scale, Q2R_m1, (IHa la), (IHb lb) by done.
    lra.
  - destruct (norm a) as [la|]; simpl; [|done]. destruct (norm b) as [lb|]; simpl; [|done].
    rewrite (IHa la), (IHb lb) by done.
    destruct la as [ca [|ta la]], lb as [cb [|tb lb]]; simpl; try done.
    + intros [= <-]. rewrite lin_eval_scale. unfold lin_eval. simpl. lra.
    + intros [= <-]. rewrite lin_eval_scale. unfold lin_eval at 1. simpl. lra.
    + intros [= <-]. rewrite lin_eval_scale. unfold lin_eval at 2. simpl. lra.
  - destruct (norm a) as [la|]; simpl; [|done]. destruct (norm b) as [lb|]; simpl; [|done].
    rewrite (IHa la), (IHb lb) by done.
    destruct lb as [cb [|tb lb]]; simpl; [|done].
    destruct (Qeq_bool cb 0) eqn:E; [done|]. intros [= <-].
    rewrite lin_eval_scale.
    replace (lin_eval (cb, [])) with (Q2R cb) by (unfold lin_eval; simpl; ring).
    rewrite Q2R_inv; [unfold Rdiv; ring|].
    intros Heq. apply Qeq_bool_iff in Heq. congruence.
  - destruct (norm a) as [la|]; simpl; [|done].
    intros [= <-]. rewrite lin_eval_scale, Q2R_m1, (IHa la) by done. lra.
Qed.

Lemma Q2R_pos q : (0 < q)%Q → 0 < Q2R q.
Proof. intros H. apply Qlt_Rlt in H. by rewrite Q2R_zero in H. Qed.

Lemma qpow_pos_spec q p :
  (0 < q)%Q →
  (0 < qpow_pos q p)%Q ∧ log2R (Q2R (qpow_pos q p)) = IZR (Zpos p) * log2R (Q2R q).
Proof.
  intros Hq. unfold qpow_pos. induction p as [|p [IH1 IH2]] using Pos.peano_ind.
  - simpl. split.
    + rewrite Qmult_1_r. done.
    + rewrite Q2R_mult, Q2R_one. rewrite Rmult_1_r. lra.
  - rewrite Pos.iter_succ. split.
    + by apply Qmult_lt_0_compat.
    + rewrite Q2R_mult, log2R_mult, IH2 by (by apply Q2R_pos).
      rewrite Pos2Z.inj_succ, succ_IZR. ring.
Qed.

Lemma qpow_spec q z :
  (0 < q)%Q → (0 < qpow q z)%Q ∧ log2R (Q2R (qpow q z)) = IZR z * log2R (Q2R q).
Proof.
  intros Hq. destruct z as [|p|p]; simpl.
  - split; [done|]. rewrite Q2R_one, log2R_1. lra.
  - by apply qpow_pos_spec.
  - destruct (qpow_pos_spec q p Hq) as [H1 H2]. split.
    + by apply Qinv_lt_0_compat.
    + rewrite Q2R_inv, log2R_inv, H2.
      * change (Zneg p) with (- Zpos p)%Z. rewrite opp_IZR. ring.
      * by apply Q2R_pos.
      * intros Heq. rewrite Heq in H1. by apply Qlt_irrefl in H1.
Qed.

Lemma Qint_spec x n : Qint x = Some n → Q2R x = IZR n.
Proof.
  unfold Qint. destruct (Z.eqb_spec (Qnum x mod Zpos (Qden x)) 0) as [Hm|]; [|done].
  intros [= <-]. unfold Q2R.
  assert (Qnum x = Zpos (Qden x) * (Qnum x / Zpos (Qden x)))%Z as E.
  { apply Z_div_exact_full_2; [done|]. exact Hm. }
  rewrite E at 1. rewrite mult_IZR. field.
  apply not_0_IZR. done.
Qed.

Lemma terms_power_spec d l p :
  terms_power d l = Some p →
  (0 < p)%Q ∧ log2R (Q2R p) = Q2R d * lsum l.
Proof.
  revert p. induction l as [|[c q] l IH]; intros p; simpl.
  - intros [= <-]. split; [done|]. rewrite Q2R_one, log2R_1. lra.
  - destruct (Qint (d * c)) as [n|] eqn:En; simpl; [|done].
    destruct (terms_power d l) as [p'|]; simpl; [|done].
    destruct (Qle_bool q 0) eqn:Eq; [done|]. intros [= <-].
    assert (0 < q)%Q as Hq.
    { apply Qnot_le_lt. intros Hle. apply Qle_bool_iff in Hle. congruence. }
    destruct (IH p' eq_refl) as [Hp' Hl]. destruct (qpow_spec q n Hq) as [Hpw Hlw].
    split; [by apply Qmult_lt_0_compat|].
    rewrite Q2R_mult, log2R_mult, Hlw, Hl by (by apply Q2R_pos).
    apply Qint_spec in En. rewrite <- En, Q2R_mult. ring.
Qed.

Lemma lin_power_spec l p :
  lin_power l = Some p →
  (0 < p)%Q ∧ log2R (Q2R p) = IZR (Zpos (lin_den l)) * lin_eval l.
Proof.
  unfold lin_power.
  destruct (Qint _) as [n|] eqn:En; simpl; [|done].
  destruct (terms_power _ _) as [p'|] eqn:Et; simpl; [|done]. intros [= <-].
  apply terms_power_spec in Et as [Hp' Hl].
  destruct (qpow_spec 2 n) as [Hpw Hlw]; [done|].
  split; [by apply Qmult_lt_0_compat|].
  rewrite Q2R_mult, log2R_mult, Hlw, Hl by (by apply Q2R_pos).
  apply Qint_spec in En. rewrite <- En, Q2R_mult, Q2R_inject_Z.
  replace (Q2R 2) with 2 by (unfold Q2R; simpl; lra). rewrite log2R_2.
  unfold lin_eval. ring.
Qed.

Lemma Qlt_bool_spec x y : Qlt_bool x y = true → (x < y)%Q.
Proof. unfold Qlt_bool, Qlt. apply Z.ltb_lt. Qed.

Lemma lin_negative l p :
  lin_power l = Some p → Q2R p < 1 → lin_eval l < 0.
Proof.
  intros Hp Hlt. apply lin_power_spec in Hp as [Hpos Hl].
  assert (log2R (Q2R p) < 0) as Hneg by (apply log2R_neg; [by apply Q2R_pos|done]).
  rewrite Hl in Hneg.
  assert (0 < IZR (Zpos (lin_den l))) as Hd by (by apply IZR_lt).
  nra.
Qed.

Lemma lin_nonpositive l p :
  lin_power l = Some p → Q2R p <= 1 → lin_eval l <= 0.
Proof.
  intros Hp Hle. apply lin_power_spec in Hp as [Hpos Hl].
  assert (log2R (Q2R p) <= 0) as Hneg.
  { rewrite <- log2R_1. apply log2R_le; [by apply Q2R_pos|done]. }
  rewrite Hl in Hneg.
  assert (0 < IZR (Zpos (lin_den l))) as Hd by (by apply IZR_lt).
  nra.
Qed.

Lemma check_lt_sound a b : check_lt a b = true → denote a < denote b.
Proof.
  unfold check_lt. destruct (norm (LSub a b)) as [l|] eqn:En; [|done].
  destruct (lin_power l) as [p|] eqn:Ep; [|done]. intros Hlt.
  apply Qlt_bool_spec, Qlt_Rlt in Hlt. rewrite Q2R_one in Hlt.
  apply norm_sound in En. simpl in En.
  pose proof (lin_negative l p Ep Hlt). lra.
Qed.

Lemma check_le_sound a b : check_le a b = true → denote a <= denote b.
Proof.
  unfold check_le. destruct (norm (LSub a b)) as [l|] eqn:En; [|done].
  destruct (lin_power l) as [p|] eqn:Ep; [|done]. intros Hle.
  apply Qle_bool_iff, Qle_Rle in Hle. rewrite Q2R_one in Hle.
  apply norm_sound in En. simpl in En.
  pose proof (lin_nonpositive l p Ep Hle). lra.
Qed.

End soundness.

Ltac reify_log e :=
  lazymatch e with
  | (?a + ?b)%R => let a' := reify_log a in let b' := reify_log b in constr:(LAdd a' b')
  | (?a - ?b)%R => let a' := reify_log a in let b' := reify_log b in constr:(LSub a' b')
  | (?a * ?b)%R => let a' := reify_log a in let b' := reify_log b in constr:(LMul a' b')
  | (?a / ?b)%R => let a' := reify_log a in let b' := reify_log b in constr:(LDiv a' b')
  | (- ?a)%R => let a' := reify_log a in constr:(LOpp a')
  | log2R (Q2R ?q) => constr:(LLogQ q)
  | log2R (IZR ?z) => constr:(LLogZ z)
  | IZR ?z => constr:(LZ z)
  | INR ?n => constr:(LN n)
  | Q2R ?q => constr:(LQ q)
  end.

(** Proves [a < b], [a <= b], [a > b], [a >= b] and their negations. *)
Ltac loglin :=
  unfold epsilon;
  lazymatch goal with
  | |- (?a < ?b)%R =>
      let a' := reify_log a in let b' := reify_log b in
      change (denote a' < denote b')%R; apply check_lt_sound; vm_compute; reflexivity
  | |- (?a <= ?b)%R =>
      let a' := reify_log a in let b' := reify_log b in
      change (denote a' <= denote b')%R; apply check_le_sound; vm_compute; reflexivity
  | |- (?a > ?b)%R =>
      let a' := reify_log a in let b' := reify_log b in
      change (denote b' < denote a')%R; apply check_lt_sound; vm_compute; reflexivity
  | |- (?a >= ?b)%R =>
      let a' := reify_log a in let b' := reify_log b in
      apply Rle_ge; change (denote b' <= denote a')%R; apply check_le_sound;
      vm_compute; reflexivity
  | |- ¬ (?a < ?b)%R => apply Rle_not_lt; loglin
  | |- ¬ (?a > ?b)%R => apply Rle_not_lt; loglin
  end.

Example loglin_test1 : (0 - 2 * log2R (Q2R (3 # 4)) < 2)%R.
Proof. loglin. Qed.

Example loglin_test2 : ¬ (0 - 4 * log2R (Q2R (3 # 4)) / INR 1
                          < (0 + (0 - 3 * log2R (Q2R (7 # 10)) - 1 * log2R (Q2R (3 # 10)))) / INR 2 - 2)%R.
Proof. loglin. Qed.

Example loglin_test3 : (0 + log2R 2 + 3 - 1 / 10000 <= 4)%R.
Proof. loglin. Qed.

(** ** Stepping through the loops *)

Lemma bind_Ok {A B} (a : A) (f : A → result B) : Ok a ≫= f = f a.
Proof. reflexivity. Qed.

Lemma bind_Raise {A B} (e : exn) (f : A → result B) : Raise e ≫= f = Raise e.
Proof. reflexivity. Qed.

Lemma assign_nodes_assignment nds : ∀ n_g g_n wd,
  ∃ out, assign_nodes nds n_g g_n wd
         = (assignment (obj wd) nds n_g g_n, mkWorld (obj wd) (log_level wd) out).
Proof.
  induction nds as [|nd rest IH]; intros n_g g_n wd.
  - exists (emitted wd). simpl. by destruct wd.
  - cbn [assign_nodes assignment]. unfold mbind at 1, MW_bind at 1.
    rewrite (on_obj_reading (fun self => next_group_of self nd) wd).
    destruct (next_group_of (obj wd) nd) as [g|e]; cbn beta iota;
      rewrite ?bind_Ok, ?bind_Raise; [|exists (emitted wd); by destruct wd].
    unfold mbind at 1, MW_bind at 1.
    rewrite (on_obj_reading (fun _ => of_option KeyError (g_n !! g)) wd).
    destruct (of_option KeyError (g_n !! g)) as [s|e]; cbn beta iota;
      rewrite ?bind_Ok, ?bind_Raise; [|exists (emitted wd); by destruct wd].
    unfold mbind at 1, MW_bind at 1.
    rewrite (on_obj_reading (fun self => of_option KeyError (map_n_g self !! nd)) wd).
    destruct (of_option KeyError (map_n_g (obj wd) !! nd)) as [cur|e]; cbn beta iota;
      rewrite ?bind_Ok, ?bind_Raise; [|exists (emitted wd); by destruct wd].
    unfold mbind at 1, MW_bind at 1.
    destruct (emit_spec DEBUG (Debug_move nd cur g) wd) as [out Hout].
    unfold logging_debug. rewrite Hout. cbn beta iota.
    destruct (IH (<[nd:=g]> n_g) (<[g:=set_add nd s]> g_n)
                (mkWorld (obj wd) (log_level wd) out)) as [out' ->].
    exists out'. done.
Qed.

Lemma total_cost_set_step self n : total_cost (set_step n self) = total_cost self.
Proof. reflexivity. Qed.

Lemma report_adj_matrix_eval name it wd :
  keys_ok (obj wd) →
  ∃ out, _report_adj_matrix name it wd
         = (Ok tt, mkWorld (set_step (step (obj wd) + 1) (obj wd)) (log_level wd) out).
Proof.
  intros Hkw. unfold _report_adj_matrix, mbind, MW_bind, when_level.
  destruct (_ <=? _)%Z.
  - rewrite (on_obj_reading _plot_adj_matrix wd).
    destruct (plot_is_ok _ Hkw) as [plot ->]. cbn beta iota.
    rewrite (on_obj_reading (fun self => Ok (step self)) wd). cbn beta iota.
    unfold write, on_obj, modify. cbn. by eexists.
  - unfold on_obj, modify. cbn. by eexists.
Qed.

(** One round of the inner loop, from what its steps return. *)
Lemma inner_iteration_eval it wd n_g g_n prev s2 cur :
  assignment (obj wd) (nodes (obj wd)) ∅ (replicate (k (obj wd)) []) = Ok (n_g, g_n) →
  total_cost (obj wd) = Ok prev →
  _rearrange_matrix_and_mappings g_n n_g (obj wd) = (Ok tt, s2) →
  keys_ok s2 →
  total_cost s2 = Ok cur →
  ∃ out, inner_iteration it wd
         = (Ok (prev, cur), mkWorld (set_step (step s2 + 1) s2) (log_level wd) out).
Proof.
  intros Hass Hprev Hre Hk Hcur. unfold inner_iteration.
  unfold mbind at 1, MW_bind at 1. rewrite (on_obj_reading Ok wd). cbn beta iota.
  unfold mbind at 1, MW_bind at 1.
  destruct (assign_nodes_assignment (nodes (obj wd)) ∅ (replicate (k (obj wd)) []) wd)
    as [out1 ->].
  rewrite Hass. cbn beta iota.
  set (wd1 := mkWorld (obj wd) (log_level wd) out1).
  unfold mbind at 1, MW_bind at 1. rewrite (on_obj_reading total_cost wd1).
  cbn [obj wd1]. rewrite Hprev. cbn beta iota.
  unfold mbind at 1, MW_bind at 1. unfold on_obj at 1. cbn [obj wd1]. rewrite Hre.
  cbn beta iota. cbn [log_level emitted wd1].
  set (wd2 := mkWorld s2 (log_level wd) out1).
  unfold mbind at 1, MW_bind at 1.
  rewrite (on_obj_reading (fun self => Ok (group_sizes self)) wd2). cbn beta iota.
  unfold mbind at 1, MW_bind at 1.
  destruct (emit_spec INFO (Info_after_inner (group_sizes (obj wd2))) wd2) as [out2 Hout].
  unfold logging_info. rewrite Hout. cbn beta iota. cbn [obj log_level wd2].
  set (wd3 := mkWorld s2 (log_level wd) out2).
  unfold mbind at 1, MW_bind at 1.
  destruct (report_adj_matrix_eval inner it wd3 Hk) as [out3 ->]. cbn beta iota.
  cbn [obj log_level wd3].
  unfold mbind at 1, MW_bind at 1.
  match goal with |- context [on_obj (reading total_cost) ?w] =>
    rewrite (on_obj_reading total_cost w) end.
  cbn [obj]. rewrite total_cost_set_step, Hcur. cbn beta iota.
  by exists out3.
Qed.

Lemma inner_iteration_raises it wd r e :
  assignment (obj wd) (nodes (obj wd)) ∅ (replicate (k (obj wd)) []) = Ok r →
  total_cost (obj wd) = Raise e →
  ∃ out, inner_iteration it wd = (Raise e, mkWorld (obj wd) (log_level wd) out).
Proof.
  intros Hass Hprev. unfold inner_iteration.
  unfold mbind at 1, MW_bind at 1. rewrite (on_obj_reading Ok wd). cbn beta iota.
  unfold mbind at 1, MW_bind at 1.
  destruct (assign_nodes_assignment (nodes (obj wd)) ∅ (replicate (k (obj wd)) []) wd)
    as [out1 ->].
  rewrite Hass. destruct r as [n_g g_n]. cbn beta iota.
  set (wd1 := mkWorld (obj wd) (log_level wd) out1).
  unfold mbind at 1, MW_bind at 1. rewrite (on_obj_reading total_cost wd1).
  cbn [obj wd1]. rewrite Hprev. cbn beta iota. by exists out1.
Qed.

(** The part of the outer loop before the inner loop, from what its steps
    return. *)
Lemma split_phase_eval it wd prev r s1 members s2 :
  total_cost (obj wd) = Ok prev →
  max_entropy_group (obj wd) = Ok r →
  _add_new_group (obj wd) = (Ok tt, s1) →
  map_g_n s1 !! r = Some members →
  seed_split r members s1 = (Ok tt, s2) →
  keys_ok s2 →
  ∃ out, split_phase it wd
         = (Ok prev, mkWorld (set_step (step s2 + 1) s2) (log_level wd) out).
Proof.
  intros Hprev Hmax Hadd Hmem Hseed Hk. unfold split_phase.
  unfold mbind at 1, MW_bind at 1. rewrite (on_obj_reading total_cost wd), Hprev.
  cbn beta iota.
  unfold mbind at 1, MW_bind at 1. rewrite (on_obj_reading max_entropy_group wd), Hmax.
  cbn beta iota.
  unfold mbind at 1, MW_bind at 1. unfold on_obj at 1. rewrite Hadd. cbn beta iota.
  set (wd1 := mkWorld s1 _ _).
  unfold mbind at 1, MW_bind at 1.
  rewrite (on_obj_reading (fun self => of_option KeyError (map_g_n self !! r)) wd1).
  cbn [obj wd1]. rewrite Hmem. cbn [of_option]. cbn beta iota.
  unfold mbind at 1, MW_bind at 1. unfold on_obj at 1. cbn [obj wd1]. rewrite Hseed.
  cbn beta iota. cbn [log_level emitted wd1].
  set (wd2 := mkWorld s2 _ _).
  unfold mbind at 1, MW_bind at 1.
  rewrite (on_obj_reading (fun self => Ok (group_sizes self)) wd2). cbn beta iota.
  unfold mbind at 1, MW_bind at 1.
  destruct (emit_spec INFO (Info_after_splitting (group_sizes (obj wd2))) wd2) as [out2 Hout].
  unfold logging_info. rewrite Hout. cbn beta iota. cbn [obj log_level wd2].
  set (wd3 := mkWorld s2 (log_level wd) out2).
  unfold mbind at 1, MW_bind at 1.
  destruct (report_adj_matrix_eval outer it wd3 Hk) as [out3 ->]. cbn beta iota.
  cbn [obj log_level wd3]. by exists out3.
Qed.

Lemma split_phase_raises it wd prev r s1 members e s2 :
  total_cost (obj wd) = Ok prev →
  max_entropy_group (obj wd) = Ok r →
  _add_new_group (obj wd) = (Ok tt, s1) →
  map_g_n s1 !! r = Some members →
  seed_split r members s1 = (Raise e, s2) →
  split_phase it wd = (Raise e, mkWorld s2 (log_level wd) (emitted wd)).
Proof.
  intros Hprev Hmax Hadd Hmem Hseed. unfold split_phase.
  unfold mbind at 1, MW_bind at 1. rewrite (on_obj_reading total_cost wd), Hprev.
  cbn beta iota.
  unfold mbind at 1, MW_bind at 1. rewrite (on_obj_reading max_entropy_group wd), Hmax.
  cbn beta iota.
  unfold mbind at 1, MW_bind at 1. unfold on_obj at 1. rewrite Hadd. cbn beta iota.
  set (wd1 := mkWorld s1 _ _).
  unfold mbind at 1, MW_bind at 1.
  rewrite (on_obj_reading (fun self => of_option KeyError (map_g_n self !! r)) wd1).
  cbn [obj wd1]. rewrite Hmem. cbn [of_option]. cbn beta iota.
  unfold mbind at 1, MW_bind at 1. unfold on_obj at 1. cbn [obj wd1]. rewrite Hseed.
  cbn beta iota. done.
Qed.

(** The seeding loop, one node at a time. *)
Lemma seed_split_moves r nd rest s e_excl e_cur s' :
  group_entropy_per_node_exclude s r nd = Ok e_excl →
  group_entropy_per_node s r = Ok e_cur →
  (e_excl < e_cur)%R →
  _move_node_to_new_group nd s = (Ok tt, s') →
  seed_split r (nd :: rest) s = seed_split r rest s'.
Proof.
  intros H1 H2 Hlt Hm. cbn [seed_split]. unfold mbind, M_bind, reading.
  rewrite H1. cbn beta iota. rewrite H2. cbn beta iota.
  destruct (Rlt_dec e_excl e_cur); [|done]. by rewrite Hm.
Qed.

Lemma seed_split_stays r nd rest s e_excl e_cur :
  group_entropy_per_node_exclude s r nd = Ok e_excl →
  group_entropy_per_node s r = Ok e_cur →
  ¬ (e_excl < e_cur)%R →
  seed_split r (nd :: rest) s = seed_split r rest s.
Proof.
  intros H1 H2 Hlt. cbn [seed_split]. unfold mbind, M_bind, reading.
  rewrite H1. cbn beta iota. rewrite H2. cbn beta iota.
  destruct (Rlt_dec e_excl e_cur); [done|]. done.
Qed.

Lemma seed_split_raises r nd rest s e :
  group_entropy_per_node_exclude s r nd = Raise e →
  seed_split r (nd :: rest) s = (Raise e, s).
Proof.
  intros H1. cbn [seed_split]. unfold mbind, M_bind, reading. by rewrite H1.
Qed.

(** ** Graphs with a self-loop *)

(** With the self-loop node first in the iteration order the constructor
    itself raises. *)
Lemma loop_edge_run_raises (fuel : nat) (level : Z) :
  ∃ wd, __init__ (S fuel) loop_edge level = Some (Raise ValueError, wd).
Proof.
  unfold __init__.
  assert (initial_object loop_edge = (Ok tt, loop_edge_start)) as ->
    by (vm_compute; reflexivity).
  unfold _run. cbn [run_from].
  set (wd := mkWorld loop_edge_start level []).
  assert (∃ prev, total_cost (obj wd) = Ok prev) as [prev Hprev].
  { eexists. eval_model. reflexivity. }
  assert (max_entropy_group (obj wd) = Ok 0) as Hmax by (eval_model; reflexivity).
  assert (_add_new_group (obj wd) = (Ok tt, loop_edge_added)) as Hadd
    by (vm_compute; reflexivity).
  assert (seed_split 0 [0; 1] loop_edge_added = (Raise ValueError, loop_edge_added)) as Hseed.
  { apply seed_split_raises. eval_model. reflexivity. }
  rewrite (split_phase_raises 0 wd prev 0 loop_edge_added [0; 1] ValueError loop_edge_added);
    try done.
  by eexists.
Qed.

(** ** The cost along the inner loop *)

Ltac eval_cost :=
  cbv -[Rplus Rminus Rmult Rdiv Ropp Rinv IZR INR Q2R log2R ln Rlt_dec Rgt_dec
        Rle_dec Rge_dec epsilon gmap_empty log_star];
  rewrite ?log_star_1, ?log_star_2;
  cbv -[Rplus Rminus Rmult Rdiv Ropp Rinv IZR INR Q2R log2R ln Rlt_dec Rgt_dec
        Rle_dec Rge_dec epsilon gmap_empty log_star].

(** Settles the comparisons an evaluation is stuck on. *)
Ltac settle :=
  repeat match goal with
  | |- context [Rlt_dec ?a ?b] =>
      first [ let H := fresh in assert (a < b)%R as H by loglin;
              destruct (Rlt_dec a b); [|contradiction]; clear H
            | let H := fresh in assert (¬ (a < b)%R) as H by loglin;
              destruct (Rlt_dec a b); [contradiction|]; clear H ]
  | |- context [Rgt_dec ?a ?b] =>
      first [ let H := fresh in assert (a > b)%R as H by loglin;
              destruct (Rgt_dec a b); [|contradiction]; clear H
            | let H := fresh in assert (¬ (a > b)%R) as H by loglin;
              destruct (Rgt_dec a b); [contradiction|]; clear H ]
  end.

Lemma two_sources_seed :
  seed_split 0 [0; 1; 2] two_sources_added = (Ok tt, two_sources_split).
Proof.
  erewrite seed_split_moves;
    [|eval_model; reflexivity|eval_model; reflexivity|loglin|vm_compute; reflexivity].
  erewrite seed_split_moves;
    [|eval_model; reflexivity|eval_model; reflexivity|loglin|vm_compute; reflexivity].
  erewrite seed_split_moves;
    [|eval_model; reflexivity|eval_model; reflexivity|loglin|vm_compute; reflexivity].
  reflexivity.
Qed.

(** A round starts from the total cost of the object it is given, and ends
    with the total cost of the object it leaves. *)
Lemma inner_iteration_costs it wd prev cur wd' :
  inner_iteration it wd = (Ok (prev, cur), wd') →
  total_cost (obj wd) = Ok prev ∧ total_cost (obj wd') = Ok cur.
Proof.
  unfold inner_iteration. intros Hrun.
  unfold mbind at 1, MW_bind at 1 in Hrun. rewrite (on_obj_reading Ok wd) in Hrun.
  cbn beta iota in Hrun. unfold mbind at 1, MW_bind at 1 in Hrun.
  destruct (assign_nodes_assignment (nodes (obj wd)) ∅ (replicate (k (obj wd)) []) wd)
    as [out1 Hass].
  rewrite Hass in Hrun. clear Hass.
  destruct (assignment _ _ _ _) as [[n_g g_n]|]; [|done]. cbn beta iota in Hrun.
  set (wd1 := mkWorld (obj wd) (log_level wd) out1) in *.
  unfold mbind at 1, MW_bind at 1 in Hrun. rewrite (on_obj_reading total_cost wd1) in Hrun.
  cbn [obj wd1] in Hrun.
  destruct (total_cost (obj wd)) as [p|] eqn:Hp; [|done]. cbn beta iota in Hrun.
  unfold mbind at 1, MW_bind at 1 in Hrun.
  destruct (on_obj (_rearrange_matrix_and_mappings g_n n_g) wd1) as [[[]|] wd2]; [|done].
  cbn beta iota in Hrun. unfold mbind at 1, MW_bind at 1 in Hrun.
  rewrite (on_obj_reading (fun self => Ok (group_sizes self)) wd2) in Hrun.
  cbn beta iota in Hrun. unfold mbind at 1, MW_bind at 1 in Hrun.
  destruct (logging_info _ wd2) as [[[]|] wd3]; [|done]. cbn beta iota in Hrun.
  unfold mbind at 1, MW_bind at 1 in Hrun.
  destruct (_report_adj_matrix inner it wd3) as [[[]|] wd4]; [|done].
  cbn beta iota in Hrun. unfold mbind at 1, MW_bind at 1 in Hrun.
  rewrite (on_obj_reading total_cost wd4) in Hrun.
  destruct (total_cost (obj wd4)) as [c|] eqn:Hc; [|done]. cbn in Hrun.
  injection Hrun as <- <- <-. done.
Qed.

Lemma lone_loop_seed :
  seed_split 0 [0; 1] lone_loop_added = (Ok tt, lone_loop_split).
Proof.
  erewrite seed_split_moves;
    [|eval_model; reflexivity|eval_model; reflexivity|loglin|vm_compute; reflexivity].
  erewrite seed_split_moves;
    [|eval_model; reflexivity|eval_model; reflexivity|loglin|vm_compute; reflexivity].
  reflexivity.
Qed.

Lemma lone_loop_trace :
  ∃ prev0 wd p c c',
    split_phase 0 (mkWorld lone_loop_start ERROR []) = (Ok prev0, wd)
    ∧ inner_loop_trace 3 0 wd = [(p, c); (c, c')].
Proof.
  set (wd0 := mkWorld lone_loop_start ERROR []).
  assert (∃ prev0, total_cost (obj wd0) = Ok prev0) as [prev0 Hprev0].
  { eexists. eval_model. reflexivity. }
  assert (max_entropy_group (obj wd0) = Ok 0) as Hmax by (eval_model; reflexivity).
  assert (_add_new_group (obj wd0) = (Ok tt, lone_loop_added)) as Hadd
    by (vm_compute; reflexivity).
  destruct (split_phase_eval 0 wd0 prev0 0 lone_loop_added [0; 1] lone_loop_split)
    as [out Hsplit]; try done.
  { apply lone_loop_seed. }
  set (st := set_step (step lone_loop_split + 1) lone_loop_split) in *.
  set (wd := mkWorld st (log_level wd0) out) in *.
  edestruct (inner_iteration_eval 0 wd) as [out1 Hit1].
  { eval_model. settle. reflexivity. }
  { eval_cost. reflexivity. }
  { vm_compute. reflexivity. }
  { reflexivity. }
  { eval_cost. reflexivity. }
  exists prev0, wd. eexists _, _, _. split; [exact Hsplit|].
  cbn [inner_loop_trace]. rewrite Hit1.
  match goal with |- context [Rlt_dec ?a ?b] =>
    assert (1 / 2 <= a)%R as Hn by loglin;
    destruct (Rlt_dec a b) as [Hlt|_]; [unfold epsilon in Hlt; lra|] end.
  match goal with |- context [logging_debug ?ev ?w] =>
    destruct (emit_spec DEBUG ev w) as [out2 Hout] end.
  unfold logging_debug. rewrite Hout. cbn [snd].
  match goal with |- context [inner_iteration 1 ?w] =>
    edestruct (inner_iteration_eval 1 w) as [out3 Hit2] end.
  { eval_model. settle. reflexivity. }
  { eval_cost. reflexivity. }
  { vm_compute. reflexivity. }
  { reflexivity. }
  { eval_cost. reflexivity. }
  rewrite Hit2.
  match goal with |- context [Rlt_dec ?a ?b] =>
    assert (a <= 0)%R as Hy by loglin;
    destruct (Rlt_dec a b) as [_|Hge]; [|unfold epsilon in Hge; lra] end.
  reflexivity.
Qed.

(** ** Small objects *)

Lemma single_edge_square : square single_edge.
Proof.
  split; [|split; [reflexivity|]].
  - apply NoDup_cons. split; [set_solver|]. apply NoDup_singleton.
  - repeat constructor.
Qed.

Lemma single_edge_start_rows_ok : rows_ok single_edge_start.
Proof.
  destruct (initial_object_wf single_edge single_edge_square) as (self & Hinit & [Hrows _] & _).
  assert (self = single_edge_start) as <-; [|done].
  change single_edge_start with (initial_object single_edge).2. by rewrite Hinit.
Qed.

(** ** A whole construction *)

(** The inner loop, one round at a time. *)
Lemma inner_loop_from_stops fuel it wd prev cur wd' :
  inner_iteration it wd = (Ok (prev, cur), wd') →
  (prev - cur < epsilon)%R →
  inner_loop_from (S fuel) it wd = Some (Ok tt, wd').
Proof.
  intros Hit Hlt. cbn [inner_loop_from]. rewrite Hit.
  by destruct (Rlt_dec (prev - cur) epsilon).
Qed.

Lemma inner_loop_from_goes_on fuel it wd prev cur wd' :
  inner_iteration it wd = (Ok (prev, cur), wd') →
  (epsilon <= prev - cur)%R →
  ∃ out, inner_loop_from (S fuel) it wd
         = inner_loop_from fuel (S it) (mkWorld (obj wd') (log_level wd') out).
Proof.
  intros Hit Hge. cbn [inner_loop_from]. rewrite Hit.
  destruct (Rlt_dec (prev - cur) epsilon); [lra|].
  destruct (emit_spec DEBUG (Debug_iteration_inner (S it)) wd') as [out Hout].
  exists out. unfold logging_debug. by rewrite Hout.
Qed.

(** What the outer loop does after the inner loop has returned. *)
Lemma after_inner_loop_eval wd c cur :
  code_cost (obj wd) = Ok c → total_cost (obj wd) = Ok cur →
  ∃ out, (_report_code_cost;; on_obj (reading total_cost)) wd
         = (Ok cur, mkWorld (obj wd) (log_level wd) out).
Proof.
  intros Hc Hcur. unfold _report_code_cost.
  unfold mbind at 1, MW_bind at 1. unfold mbind at 1, MW_bind at 1.
  rewrite (on_obj_reading (fun self => Ok (step self)) wd). cbn beta iota.
  unfold mbind at 1, MW_bind at 1. rewrite (on_obj_reading code_cost wd), Hc.
  cbn beta iota.
  destruct (emit_spec DEBUG (Debug_code_cost (step (obj wd)) c) wd) as [out Hout].
  unfold logging_debug. rewrite Hout. cbn beta iota.
  rewrite (on_obj_reading total_cost _). cbn [obj]. rewrite Hcur. by exists out.
Qed.

(** The whole construction on the graph with the one arc 0->1: it returns,
    with both nodes in group 1 and group 0 empty. *)
Lemma single_edge_run (level : Z) :
  ∃ wd, __init__ 2 single_edge level = Some (Ok tt, wd) ∧ obj wd = st_single_edge.
Proof.
  unfold __init__.
  assert (initial_object single_edge = (Ok tt, single_edge_start)) as ->
    by (vm_compute; reflexivity).
  unfold _run. cbn [run_from].
  set (wd0 := mkWorld single_edge_start level []).
  assert (max_entropy_group (obj wd0) = Ok 0) as Hmax by (eval_model; reflexivity).
  assert (_add_new_group (obj wd0) = (Ok tt, single_edge_added)) as Hadd
    by (vm_compute; reflexivity).
  assert (seed_split 0 [0; 1] single_edge_added = (Ok tt, single_edge_split)) as Hseed.
  { erewrite seed_split_moves;
      [|eval_model; reflexivity|eval_model; reflexivity|loglin|vm_compute; reflexivity].
    erewrite seed_split_moves;
      [|eval_model; reflexivity|eval_model; reflexivity|loglin|vm_compute; reflexivity].
    reflexivity. }
  evar (prev0 : R).
  assert (total_cost (obj wd0) = Ok prev0) as Hprev0.
  { eval_cost. reflexivity. }
  destruct (split_phase_eval 0 wd0 prev0 0 single_edge_added [0; 1] single_edge_split)
    as [out ->]; try done.
  set (wd := mkWorld _ (log_level wd0) out).
  edestruct (inner_iteration_eval 0 wd) as [out1 Hit1].
  { eval_model. settle. reflexivity. }
  { eval_cost. reflexivity. }
  { vm_compute. reflexivity. }
  { reflexivity. }
  { eval_cost. reflexivity. }
  unfold _inner_loop.
  erewrite inner_loop_from_stops; [|exact Hit1|].
  2:{ assert (forall x, x <= 0 -> x < epsilon)%R as Hle by (intros; unfold epsilon; lra).
      apply Hle. loglin. }
  match goal with |- context [(_report_code_cost;; _) ?w] => set (wd2 := w) end.
  edestruct (after_inner_loop_eval wd2) as [out4 ->].
  { eval_model. reflexivity. }
  { eval_cost. reflexivity. }
  match goal with |- context [Rlt_dec ?a ?b] => destruct (Rlt_dec a b) as [Hlt|Hge] end.
  - eexists. split; [reflexivity|]. vm_compute. reflexivity.
  - exfalso. apply Hge.
    assert (forall x, x <= 0 -> x < epsilon)%R as Hle by (intros; unfold epsilon; lra).
    apply Hle. subst prev0. loglin.
Qed.

(** ** The costs are not negative *)

Lemma recalculate_fresh self self' :
  _recalculate_block_properties self = (Ok tt, self') → up_to_date self'.
Proof.
  intros H. apply recalculate_inv in H as (w' & P' & Hw & HP & ->).
  split; [exact Hw|exact HP].
Qed.

Lemma fresh_weights_ok self : binary (adj_matrix self) → up_to_date self → weights_ok self.
Proof.
  intros Hb [Hf _] i j wt n Hw Hn. unfold compute_w in Hf. unfold block_weight in Hw.
  destruct (mapM2_lookup _ _ _ _ _ _ _ Hf Hw) as (x & y & Hx & Hy & Hbw).
  unfold groups in Hx, Hy. apply lookup_seq in Hx as [-> _], Hy as [-> _]. simpl in Hbw.
  by eapply _block_weight_bounds.
Qed.

Section nonnegative.
Local Open Scope R_scope.

Lemma Rsum_from (l : list R) (a : R) : fold_left Rplus l a = a + Rsum l.
Proof.
  unfold Rsum. revert a. induction l as [|x l IH]; intros a; simpl; [lra|].
  rewrite (IH (a + x)), (IH (0 + x)). lra.
Qed.

Lemma Rsum_cons x l : Rsum (x :: l) = x + Rsum l.
Proof. unfold Rsum at 1. simpl. rewrite Rsum_from. lra. Qed.

Lemma Rsum_nonneg (l : list R) : Forall (fun x => 0 <= x) l → 0 <= Rsum l.
Proof.
  induction 1 as [|x l Hx Hl IH]; [unfold Rsum; simpl; lra|]. rewrite Rsum_cons. lra.
Qed.

Lemma Zsum_nonneg (l : list Z) : Forall (fun x => 0 <= x)%Z l → (0 <= Zsum l)%Z.
Proof.
  induction 1 as [|x l Hx Hl IH]; [by rewrite Zsum_nil|]. rewrite Zsum_cons. lia.
Qed.

Lemma log2_negative (p : Q) (l : R) : log2 p = Ok l → (p < 1)%Q → l < 0.
Proof.
  unfold log2. destruct (Qle_bool p 0) eqn:E; [done|]. intros [= <-] Hlt.
  apply log2R_neg.
  - apply Q2R_pos. apply Qnot_le_lt. intros Hle. apply Qle_bool_iff in Hle. congruence.
  - apply Qlt_Rlt in Hlt. by rewrite Q2R_one in Hlt.
Qed.

Lemma log2_defined (p : Q) (l : R) : log2 p = Ok l → (0 < p)%Q.
Proof.
  unfold log2. destruct (Qle_bool p 0) eqn:E; [done|]. intros _.
  apply Qnot_le_lt. intros Hle. apply Qle_bool_iff in Hle. congruence.
Qed.

Lemma block_code_cost_nonneg self i j c :
  weights_ok self → block_code_cost self i j = Ok c → 0 <= c.
Proof.
  intros Hw. unfold block_code_cost.
  destruct (block_weight self i j) as [wt|] eqn:Ewt; simpl; [|done].
  destruct (block_density self i j) as [p|] eqn:Ep; simpl; [|done].
  destruct (log2 p) as [l1|] eqn:El1; simpl; [|done].
  destruct (block_size self i j) as [n|] eqn:En; simpl; [|done].
  destruct (log2 (1 - p)) as [l2|] eqn:El2; simpl; [|done]. intros [= <-].
  pose proof (Hw i j wt n Ewt En) as [H0 Hn].
  pose proof (log2_defined _ _ El1) as Hp0. pose proof (log2_defined _ _ El2) as Hp1.
  assert (l1 < 0) as Hl1.
  { eapply log2_negative; [done|]. clear -Hp1. destruct p as [a b].
    unfold Qlt, Qminus, Qplus, Qopp in *. simpl in *. lia. }
  assert (l2 < 0) as Hl2.
  { eapply log2_negative; [done|]. clear -Hp0. destruct p as [a b].
    unfold Qlt, Qminus, Qplus, Qopp in *. simpl in *. lia. }
  apply IZR_le in H0, Hn. rewrite minus_IZR. nra.
Qed.

Lemma code_cost_nonneg self c : weights_ok self → code_cost self = Ok c → 0 <= c.
Proof.
  intros Hw. unfold code_cost.
  destruct (mapM _ _) as [cs|] eqn:E; simpl; [|done]. intros [= <-].
  apply Rsum_nonneg. apply mapM_Ok_inv in E. apply Forall_forall. intros x Hx.
  apply list_elem_of_lookup in Hx as [idx Hidx].
  destruct (Forall2_lookup_r _ _ _ _ _ E Hidx) as (ij & _ & Hc).
  by eapply block_code_cost_nonneg.
Qed.

Lemma log_star_loop_nonneg fuel : ∀ val res r,
  log_star_loop fuel val res = Some r → 0 <= res → 0 <= r.
Proof.
  induction fuel as [|fuel IH]; intros val res r; [done|]. cbn [log_star_loop].
  destruct (Rgt_dec val epsilon) as [Hgt|]; [|by intros [= <-]].
  intros Hrun Hres. apply (IH _ _ _ Hrun). pose proof epsilon_pos. lra.
Qed.

Lemma log_star_nonneg x r : log_star x = Ok r → 0 <= r.
Proof.
  unfold log_star. destruct (_ <=? _)%Z; [done|].
  destruct (log_star_loop (log_star_fuel x) (log2R (IZR x)) 0) as [r'|] eqn:E;
    intros [= <-]; cbn [default from_option id].
  - apply (log_star_loop_nonneg _ _ _ _ E). lra.
  - lra.
Qed.

Lemma ceil_log2_nonneg a c : ceil_log2 a = Ok c → (0 <= c)%Z.
Proof.
  unfold ceil_log2. destruct (_ <=? _)%Z; [done|]. intros [= <-]. apply Z.log2_up_nonneg.
Qed.

Lemma Zsum_mapM_nonneg {A} (f : A → result Z) (l : list A) zs :
  (∀ x c, f x = Ok c → (0 <= c)%Z) → mapM f l = Ok zs → (0 <= Zsum zs)%Z.
Proof.
  intros Hf E. apply Zsum_nonneg. apply mapM_Ok_inv in E. apply Forall_forall. intros z Hz.
  apply list_elem_of_lookup in Hz as [idx Hidx].
  destruct (Forall2_lookup_r _ _ _ _ _ E Hidx) as (x & _ & Hc). by eapply Hf.
Qed.

Lemma description_cost_nonneg self c :
  keys_ok self → description_cost self = Ok c → 0 <= c.
Proof.
  intros Hk. unfold description_cost.
  destruct (log_star _) as [ls|] eqn:Els; simpl; [|done].
  destruct (description_cost_group_sizes self) as [gs|] eqn:Egs; simpl; [|done].
  destruct (description_cost_block_weights self) as [bw|] eqn:Ebw; simpl; [|done].
  intros [= <-]. apply log_star_nonneg in Els.
  assert (0 <= gs)%Z as Hgs.
  { rewrite description_cost_group_sizes_eq in Egs by done.
    unfold spec_description_cost_group_sizes in Egs.
    destruct (decide _); [by injection Egs as <-|].
    destruct (mapM _ _) as [zs|] eqn:E; simpl in Egs; [|done]. injection Egs as <-.
    eapply Zsum_mapM_nonneg; [|done]. intros x c'. apply ceil_log2_nonneg. }
  assert (0 <= bw)%Z as Hbw.
  { unfold description_cost_block_weights in Ebw.
    destruct (mapM _ _) as [zs|] eqn:E; simpl in Ebw; [|done]. injection Ebw as <-.
    eapply Zsum_mapM_nonneg; [|done]. intros x c'. simpl.
    destruct (block_size _ _ _); simpl; [|done]. apply ceil_log2_nonneg. }
  apply IZR_le in Hgs, Hbw. lra.
Qed.

Lemma total_cost_nonneg self c :
  keys_ok self → weights_ok self → total_cost self = Ok c → 0 <= c.
Proof.
  intros Hk Hw. unfold total_cost.
  destruct (description_cost self) as [d|] eqn:Ed; simpl; [|done].
  destruct (code_cost self) as [cc|] eqn:Ec; simpl; [|done]. intros [= <-].
  apply description_cost_nonneg in Ed; [|done]. apply code_cost_nonneg in Ec; [|done]. lra.
Qed.
End nonnegative.

(** Every row belongs to a node. *)
Lemma rows_ok_row_of self r :
  rows_ok self → r < length (graph self) →
  ∃ nd, nd ∈ graph self ∧ map_n_r self !! nd = Some r.
Proof.
  intros (Hnd & _ & _ & Hdom & Hlt & Hinj) Hr.
  set (row := fun nd => default 0 (map_n_r self !! nd)).
  assert (∀ nd, nd ∈ graph self → map_n_r self !! nd = Some (row nd)) as Hrow.
  { intros nd Hin. apply Hdom in Hin as [x Hx]. unfold row. by rewrite Hx. }
  assert (NoDup (row <$> graph self)) as Hndr.
  { apply NoDup_fmap_2_strong; [|done]. intros n1 n2 H1 H2 Heq.
    apply Hrow in H1, H2. rewrite Heq in H1. by eapply Hinj. }
  assert (list_to_set (row <$> graph self) = (set_seq 0 (length (graph self)) : gset nat))
    as Hset.
  { apply set_subseteq_size_eq.
    - intros x Hx. apply elem_of_list_to_set, list_elem_of_fmap in Hx as (nd & -> & Hin).
      apply elem_of_set_seq. apply Hrow in Hin. apply Hlt in Hin. lia.
    - rewrite size_set_seq, size_list_to_set by done. by rewrite length_fmap. }
  assert (r ∈ (list_to_set (row <$> graph self) : gset nat)) as Hin.
  { rewrite Hset. apply elem_of_set_seq. lia. }
  apply elem_of_list_to_set, list_elem_of_fmap in Hin as (nd & -> & Hin).
  exists nd. split; [done|]. by apply Hrow.
Qed.

Lemma same_graph_binary self self' :
  rows_ok self → rows_ok self' → same_graph self self' →
  binary (adj_matrix self) → binary (adj_matrix self').
Proof.
  intros Hrows Hrows' [Hg Hadj] Hb.
  pose proof Hrows' as (_ & Hlen' & Hr' & _).
  apply Forall_forall. intros row' Hrow'. apply Forall_forall. intros v Hv.
  apply list_elem_of_lookup in Hrow' as [r1 Hr1]. apply list_elem_of_lookup in Hv as [r2 Hr2].
  assert (length row' = length (graph self')) as Hlrow.
  { eapply (proj1 (Forall_forall _ _) Hr'). by eapply list_elem_of_lookup_2. }
  destruct (rows_ok_row_of self' r1 Hrows') as (n1 & Hn1 & Hm1).
  { rewrite <- Hlen'. by eapply lookup_lt_Some. }
  destruct (rows_ok_row_of self' r2 Hrows') as (n2 & Hn2 & Hm2).
  { rewrite <- Hlrow. by eapply lookup_lt_Some. }
  rewrite Hg in Hn1, Hn2. specialize (Hadj n1 n2 Hn1 Hn2).
  unfold adjacency, cell in Hadj. rewrite Hm1, Hm2 in Hadj. simpl in Hadj.
  rewrite Hr1 in Hadj. simpl in Hadj. rewrite Hr2 in Hadj. simpl in Hadj.
  destruct (map_n_r self !! n1) as [q1|]; simpl in Hadj; [|done].
  destruct (map_n_r self !! n2) as [q2|]; simpl in Hadj; [|done].
  destruct (adj_matrix self !! q1) as [row|] eqn:Erow; simpl in Hadj; [|done].
  destruct (row !! q2) as [v0|] eqn:Ev; simpl in Hadj; [|done]. injection Hadj as ->.
  apply (Forall_lookup_1 (fun x => 0 <= x <= 1)%Z row q2 v0); [|exact Ev].
  apply (Forall_lookup_1 _ (adj_matrix self) q1 row Hb Erow).
Qed.

(** What a method that ends with [_recalculate_block_properties] leaves. *)
Lemma M_bind_Ok {A B} (m : M A) (f : A → M B) self b self' :
  (m ≫= f) self = (Ok b, self') → ∃ a s, m self = (Ok a, s) ∧ f a s = (Ok b, self').
Proof.
  unfold mbind, M_bind. destruct (m self) as [[a|e] s]; [|done]. eauto.
Qed.

Lemma add_new_group_fresh self self' : _add_new_group self = (Ok tt, self') → up_to_date self'.
Proof.
  unfold _add_new_group. intros H.
  do 3 (apply M_bind_Ok in H as (? & ? & _ & H)). by eapply recalculate_fresh.
Qed.

Lemma move_node_fresh nd self self' :
  _move_node_to_new_group nd self = (Ok tt, self') → up_to_date self'.
Proof.
  unfold _move_node_to_new_group. intros H.
  do 10 (apply M_bind_Ok in H as (? & ? & _ & H)). by eapply recalculate_fresh.
Qed.

Lemma rearrange_fresh g_n n_g self self' :
  _rearrange_matrix_and_mappings g_n n_g self = (Ok tt, self') → up_to_date self'.
Proof.
  rewrite rearrange_unfold. intros H.
  repeat (case_bool_decide || case_match || done). by eapply recalculate_fresh.
Qed.

Lemma initial_object_fresh gr self : initial_object gr = (Ok tt, self) → up_to_date self.
Proof. apply recalculate_fresh. Qed.

(** ** What every step of a construction keeps *)

Lemma triple_bind {A B} Pre Mid Post Exc (m : MW A) (f : A → MW B) :
  triple Pre m Mid Exc → (∀ a, triple (Mid a) (f a) Post Exc) →
  triple Pre (m ≫= f) Post Exc.
Proof.
  intros Hm Hf wd Hpre. unfold mbind, MW_bind. specialize (Hm wd Hpre).
  destruct (m wd) as [[a|e] wd']; [|done]. by apply Hf.
Qed.

Lemma triple_ret {A} (Post : A → Autopart → Prop) Exc (a : A) :
  triple (Post a) (mret a) Post Exc.
Proof. intros wd Hpre. done. Qed.

Lemma triple_conseq {A} (Pre Pre' : Autopart → Prop) (Post Post' : A → Autopart → Prop)
    (Exc Exc' : Autopart → Prop) (m : MW A) :
  triple Pre m Post Exc →
  (∀ s, Pre' s → Pre s) → (∀ a s, Post a s → Post' a s) → (∀ s, Exc s → Exc' s) →
  triple Pre' m Post' Exc'.
Proof.
  intros Hm H1 H2 H3 wd Hpre. specialize (Hm wd (H1 _ Hpre)).
  destruct (m wd) as [[a|e] wd']; auto.
Qed.

Lemma triple_reading {A} (Pre : Autopart → Prop) (f : Autopart → result A) :
  triple Pre (on_obj (reading f)) (fun a s => Pre s ∧ f s = Ok a) Pre.
Proof.
  intros wd Hpre. rewrite on_obj_reading. destruct (f (obj wd)) eqn:E; done.
Qed.

Lemma triple_reading_keep {A} (Pre Exc : Autopart → Prop) (f : Autopart → result A) :
  (∀ s, Pre s → Exc s) → triple Pre (on_obj (reading f)) (fun _ s => Pre s) Exc.
Proof.
  intros HE wd Hpre. rewrite on_obj_reading. destruct (f (obj wd)); auto.
Qed.

Lemma triple_on_obj {A} (Pre : Autopart → Prop) (Post : A → Autopart → Prop) Exc (m : M A) :
  (∀ s, Pre s → match m s with
                | (Ok a, s') => Post a s'
                | (Raise _, s') => Exc s'
                end) →
  triple Pre (on_obj m) Post Exc.
Proof.
  intros Hm wd Hpre. unfold on_obj. specialize (Hm _ Hpre).
  destruct (m (obj wd)) as [[a|e] s']; done.
Qed.

Lemma triple_emit (Pre : Autopart → Prop) level ev :
  triple Pre (emit level ev) (fun _ s => Pre s) Pre.
Proof.
  intros wd Hpre. destruct (emit_spec level ev wd) as [out ->]. done.
Qed.

Lemma triple_report_adj_matrix (Pre : Autopart → Prop) name it :
  (∀ s n, Pre s → Pre (set_step n s)) →
  triple Pre (_report_adj_matrix name it) (fun _ s => Pre s) Pre.
Proof.
  intros Hstep wd Hpre. destruct (_report_adj_matrix name it wd) as [r wd'] eqn:E.
  unfold _report_adj_matrix, mbind, MW_bind, when_level in E.
  destruct (_ <=? _)%Z.
  - rewrite (on_obj_reading _plot_adj_matrix wd) in E.
    destruct (_plot_adj_matrix (obj wd)) as [plot|]; cbn beta iota in E.
    + rewrite on_obj_reading in E. cbn beta iota in E.
      unfold write, on_obj, modify in E. cbn in E. injection E as <- <-. by apply Hstep.
    + injection E as <- <-. done.
  - unfold on_obj, modify in E. cbn in E. injection E as <- <-. by apply Hstep.
Qed.

Lemma recalculate_frame self r self' :
  _recalculate_block_properties self = (r, self') →
  graph self' = graph self ∧ adj_matrix self' = adj_matrix self
  ∧ map_n_r self' = map_n_r self.
Proof.
  unfold _recalculate_block_properties, mbind, M_bind, reading, modify.
  destruct (compute_w self); cbn beta iota; [|by intros [= _ <-]].
  destruct (compute_P _); cbn beta iota; by intros [= _ <-].
Qed.

Lemma add_new_group_same_graph self r self' :
  _add_new_group self = (r, self') → same_graph self self'.
Proof.
  unfold _add_new_group, mbind, M_bind, reading, modify. cbn beta iota.
  intros H. apply recalculate_frame in H as (? & ? & ?). by apply same_graph_fields.
Qed.

Section invariant.
Variable self0 : Autopart.

Lemma stands_for_set_step s n : stands_for self0 s → stands_for self0 (set_step n s).
Proof.
  intros (Hwf & Hsame & Hfresh). split; [done|]. split; [|exact Hfresh].
  apply (same_graph_trans _ s); [done|]. by apply same_graph_fields.
Qed.

Lemma stands_for_step s s' :
  stands_for self0 s → wf s' → same_graph s s' → up_to_date s' → stands_for self0 s'.
Proof.
  intros (_ & Hsame & _) Hwf Hs Hf. split; [done|]. split; [|done].
  by eapply same_graph_trans.
Qed.

Lemma add_new_group_stands_for s :
  stands_for self0 s →
  match _add_new_group s with
  | (Ok _, s') => stands_for self0 s'
  | (Raise _, s') => stands_for self0 s'
  end.
Proof.
  intros Hs. pose proof Hs as [Hwf _].
  destruct (add_new_group_wf s Hwf) as (s' & Hrun & Hwf' & _). rewrite Hrun.
  eapply stands_for_step; [done|done| |].
  - by eapply add_new_group_same_graph.
  - by eapply add_new_group_fresh.
Qed.

Lemma seed_split_stands_for group_r members : ∀ s,
  stands_for self0 s → (∀ nd, nd ∈ members → nd ∈ graph s) →
  stands_for self0 (seed_split group_r members s).2.
Proof.
  induction members as [|nd rest IH]; intros s Hs Hmem; [done|].
  cbn [seed_split]. unfold mbind, M_bind, reading.
  destruct (group_entropy_per_node_exclude s group_r nd) as [e_excl|]; [|done].
  cbn beta iota.
  destruct (group_entropy_per_node s group_r) as [e_cur|]; [|done]. cbn beta iota.
  destruct (Rlt_dec e_excl e_cur).
  - pose proof Hs as [Hwf _].
    destruct (move_node_wf s nd Hwf) as (s' & Hmove & Hwf' & _ & _ & Hsame).
    { apply Hmem. by left. }
    rewrite Hmove. apply IH.
    + eapply stands_for_step; [done|done|done|]. by eapply move_node_fresh.
    + intros x Hx. destruct Hsame as [-> _]. apply Hmem. by right.
  - cbn. apply IH; [done|]. intros x Hx. apply Hmem. by right.
Qed.

Lemma triple_assign_nodes (self : Autopart) :
  triple (fun s => stands_for self0 s ∧ s = self)
    (assign_nodes (nodes self) ∅ (replicate (k self) []))
    (fun r s => stands_for self0 s ∧ s = self
                ∧ length r.2 = k self ∧ assigned r.1 r.2 (nodes self))
    (stands_for self0).
Proof.
  intros wd [Hs Heq].
  assert (NoDup (nodes self)) as Hnd by (subst self; by destruct Hs as ([(? & _) _] & _)).
  destruct (assign_nodes (nodes self) ∅ (replicate (k self) []) wd) as [[[n_g g_n]|] wd']
    eqn:E.
  - apply (assign_nodes_spec _ _ _ []) in E as (Ho & _ & Hlen & Hass);
      [|apply assigned_start|done].
    rewrite Ho. rewrite length_replicate in Hlen. done.
  - destruct (assign_nodes_assignment (nodes self) ∅ (replicate (k self) []) wd)
      as [out Hout].
    rewrite Hout in E. injection E as _ <-. done.
Qed.

Lemma triple_inner_iteration it :
  triple (stands_for self0) (inner_iteration it) (fun _ s => stands_for self0 s)
    (stands_for self0).
Proof.
  unfold inner_iteration.
  eapply triple_bind; [apply triple_reading|]. intros self. cbn beta.
  eapply triple_bind.
  { eapply triple_conseq; [apply (triple_assign_nodes self)| | |].
    - intros s [Hs [= ->]]. done.
    - intros a s H. exact H.
    - done. }
  intros [n_g g_n]. cbn beta iota.
  eapply triple_bind.
  { apply triple_reading_keep. by intros s (? & _). }
  intros prev. cbn beta.
  eapply triple_bind.
  { apply (triple_on_obj _ (fun _ s => stands_for self0 s) (stands_for self0)).
    intros s (Hs & -> & Hlen & Hass). simpl in Hlen, Hass.
    pose proof Hs as ([Hrows Hpart] & _). pose proof Hrows as (Hnd & _).
    assert (partition_ok (set_map_n_g n_g (set_map_g_n g_n self))) as Hpart1.
    { destruct Hass as (Ha1 & Ha2 & Ha3). unfold nodes in Ha3.
      split; [done|]. split; [done|]. split; [done|]. exact Ha3. }
    destruct (rearrange_succeeds g_n n_g self)
      as (self2 & Hre & Hrows2 & Hg2 & Hn2 & Hk2 & Hgr2 & _); try done.
    { exact (partition_covers (set_map_n_g n_g (set_map_g_n g_n self)) Hnd Hpart1). }
    { apply (size_dom_graph (set_map_n_g n_g (set_map_g_n g_n self))); [done|].
      by destruct Hpart1 as (_ & _ & _ & ?). }
    rewrite Hre.
    eapply stands_for_step;
      [done| |by eapply rearrange_same_graph|by eapply rearrange_fresh].
    split; [done|]. unfold partition_ok. rewrite Hg2, Hn2, Hk2, Hgr2. done. }
  intros ?. cbn beta.
  eapply triple_bind.
  { by apply triple_reading_keep. }
  intros sizes. cbn beta.
  eapply triple_bind; [apply triple_emit|]. intros ?. cbn beta.
  eapply triple_bind; [apply triple_report_adj_matrix|].
  { intros s n Hs. by apply stands_for_set_step. }
  intros ?. cbn beta.
  eapply triple_bind.
  { by apply triple_reading_keep. }
  intros cur. apply (triple_ret (fun _ s => stands_for self0 s)).
Qed.

Lemma inner_loop_stands_for fuel : ∀ it wd r wd',
  stands_for self0 (obj wd) → inner_loop_from fuel it wd = Some (r, wd') →
  stands_for self0 (obj wd').
Proof.
  induction fuel as [|fuel IH]; intros it wd r wd' Hs; [done|].
  cbn [inner_loop_from]. pose proof (triple_inner_iteration it wd Hs) as Hit.
  destruct (inner_iteration it wd) as [[[prev cur]|e] wd1].
  - destruct (Rlt_dec _ _); [by intros [= _ <-]|].
    destruct (emit_spec DEBUG (Debug_iteration_inner (S it)) wd1) as [out Hout].
    unfold logging_debug. rewrite Hout. cbn [snd]. by apply IH.
  - by intros [= _ <-].
Qed.

Lemma triple_split_phase it :
  triple (stands_for self0) (split_phase it) (fun _ s => stands_for self0 s)
    (stands_for self0).
Proof.
  unfold split_phase.
  eapply triple_bind.
  { by apply triple_reading_keep. }
  intros prev. cbn beta.
  eapply triple_bind.
  { by apply triple_reading_keep. }
  intros group_r. cbn beta.
  eapply triple_bind.
  { apply (triple_on_obj _ (fun _ s => stands_for self0 s) (stands_for self0)).
    intros s Hs. apply add_new_group_stands_for in Hs.
    by destruct (_add_new_group s) as [[[]|] s']. }
  intros ?. cbn beta.
  eapply triple_bind; [apply triple_reading|]. intros members. cbn beta.
  eapply triple_bind.
  { apply (triple_on_obj _ (fun _ s => stands_for self0 s) (stands_for self0)).
    intros s [Hs Hmem].
    pose proof (seed_split_stands_for group_r members s Hs) as Hseed.
    destruct (seed_split group_r members s) as [[[]|] s']; apply Hseed.
    all: intros nd Hnd; destruct (map_g_n s !! group_r) as [mem|] eqn:Em; [|done];
      injection Hmem as ->; destruct Hs as ([_ (_ & _ & Hng & Hdom)] & _);
      apply Hdom; exists group_r; apply Hng; by exists members. }
  intros ?. cbn beta.
  eapply triple_bind.
  { by apply triple_reading_keep. }
  intros sizes. cbn beta.
  eapply triple_bind; [apply triple_emit|]. intros ?. cbn beta.
  eapply triple_bind; [apply triple_report_adj_matrix|].
  { intros s n Hs. by apply stands_for_set_step. }
  intros ?. apply (triple_ret (fun _ s => stands_for self0 s)).
Qed.

Lemma triple_after_inner_loop :
  triple (stands_for self0) (_report_code_cost;; on_obj (reading total_cost))
    (fun _ s => stands_for self0 s) (stands_for self0).
Proof.
  unfold _report_code_cost.
  eapply triple_bind.
  { eapply triple_bind.
    { by apply triple_reading_keep. }
    intros stp. cbn beta.
    eapply triple_bind.
    { by apply triple_reading_keep. }
    intros c. apply triple_emit. }
  intros ?. cbn beta.
  by apply triple_reading_keep.
Qed.

Lemma run_stands_for fuel : ∀ it wd r wd',
  stands_for self0 (obj wd) → run_from fuel it wd = Some (r, wd') →
  stands_for self0 (obj wd').
Proof.
  induction fuel as [|fuel IH]; intros it wd r wd' Hs; [done|].
  cbn [run_from]. pose proof (triple_split_phase it wd Hs) as Hsp.
  destruct (split_phase it wd) as [[prev|e] wd1]; [|by intros [= _ <-]].
  unfold _inner_loop.
  destruct (inner_loop_from fuel 0 wd1) as [[[[]|e] wd2]|] eqn:Einner; [| |done].
  - pose proof (inner_loop_stands_for _ _ _ _ _ Hsp Einner) as Hs2.
    pose proof (triple_after_inner_loop wd2 Hs2) as Hafter.
    destruct ((_report_code_cost;; on_obj (reading total_cost)) wd2) as [[cur|e] wd3];
      [|by intros [= _ <-]].
    destruct (Rlt_dec _ _); [by intros [= _ <-]|].
    destruct (emit_spec DEBUG (Debug_iteration_outer (S it)) wd3) as [out Hout].
    unfold logging_debug. rewrite Hout. cbn [snd]. by apply IH.
  - intros [= _ <-]. by eapply inner_loop_stands_for.
Qed.
End invariant.

Lemma initial_object_adjacency (gr : Graph) self :
  square gr → initial_object gr = (Ok tt, self) →
  graph self = graph_nodes gr
  ∧ ∀ i j n1 n2, graph_nodes gr !! i = Some n1 → graph_nodes gr !! j = Some n2 →
      adjacency self n1 n2 = input_cell gr i j.
Proof.
  intros (Hnd & _) Hinit. unfold initial_object in Hinit.
  apply recalculate_inv in Hinit as (w' & P' & _ & _ & ->). split; [done|].
  intros i j n1 n2 Hi Hj. unfold adjacency, input_cell, cell.
  cbn [map_n_r adj_matrix set_P set_w initial_fields].
  rewrite (proj2 (enumerate_map_lookup _ n1 i Hnd) Hi).
  rewrite (proj2 (enumerate_map_lookup _ n2 j Hnd) Hj). done.
Qed.

(** ** The loops end *)

(** More fuel does not change what a loop returns. *)
Lemma inner_loop_from_more fuel extra : ∀ it wd x,
  inner_loop_from fuel it wd = Some x → inner_loop_from (fuel + extra) it wd = Some x.
Proof.
  induction fuel as [|fuel IH]; intros it wd x; [done|].
  cbn [inner_loop_from Nat.add].
  destruct (inner_iteration it wd) as [[[prev cur]|e] wd1]; [|done].
  destruct (Rlt_dec _ _); [done|]. apply IH.
Qed.

Lemma run_from_more fuel extra : ∀ it wd x,
  run_from fuel it wd = Some x → run_from (fuel + extra) it wd = Some x.
Proof.
  induction fuel as [|fuel IH]; intros it wd x; [done|].
  cbn [run_from Nat.add].
  destruct (split_phase it wd) as [[prev|e] wd1]; [|done].
  unfold _inner_loop.
  destruct (inner_loop_from fuel 0 wd1) as [y|] eqn:Einner; [|done].
  rewrite (inner_loop_from_more _ extra _ _ _ Einner).
  destruct y as [[[]|e] wd2]; [|done].
  destruct ((_report_code_cost;; on_obj (reading total_cost)) wd2) as [[cur|e] wd3]; [|done].
  destruct (Rlt_dec _ _); [done|]. apply IH.
Qed.

Lemma split_phase_prev it wd prev wd' :
  split_phase it wd = (Ok prev, wd') → total_cost (obj wd) = Ok prev.
Proof.
  unfold split_phase. unfold mbind at 1, MW_bind at 1.
  rewrite (on_obj_reading total_cost wd).
  destruct (total_cost (obj wd)) as [c|]; [|done]. cbn beta iota.
  repeat (unfold mbind at 1, MW_bind at 1;
          match goal with
          | |- context [match ?m ?w with _ => _ end] =>
              destruct (m w) as [[?|?] ?]; [|done]; cbn beta iota
          end).
  cbn. by intros [= <- _].
Qed.

Lemma after_inner_loop_cur wd cur wd' :
  (_report_code_cost;; on_obj (reading total_cost)) wd = (Ok cur, wd') →
  obj wd' = obj wd ∧ total_cost (obj wd) = Ok cur.
Proof.
  unfold _report_code_cost. unfold mbind at 1, MW_bind at 1.
  unfold mbind at 1, MW_bind at 1.
  rewrite (on_obj_reading (fun self => Ok (step self)) wd). cbn beta iota.
  unfold mbind at 1, MW_bind at 1. rewrite (on_obj_reading code_cost wd).
  destruct (code_cost (obj wd)) as [c|]; [|done]. cbn beta iota.
  destruct (emit_spec DEBUG (Debug_code_cost (step (obj wd)) c) wd) as [out Hout].
  unfold logging_debug. rewrite Hout. cbn beta iota.
  rewrite (on_obj_reading total_cost _). cbn [obj].
  destruct (total_cost (obj wd)) as [c'|]; [|done]. by intros [= <- <-].
Qed.

Section ends.
Local Open Scope R_scope.
Variable self0 : Autopart.
Hypothesis rows0 : rows_ok self0.
Hypothesis binary0 : binary (adj_matrix self0).

Lemma stands_for_nonneg s c : stands_for self0 s → total_cost s = Ok c → 0 <= c.
Proof.
  intros ([Hrows Hpart] & Hsame & Hfresh) Hc.
  eapply total_cost_nonneg; [|apply fresh_weights_ok; [|exact Hfresh]|exact Hc].
  - by destruct Hpart as (? & _).
  - exact (same_graph_binary self0 s rows0 Hrows Hsame binary0).
Qed.

Lemma inner_loop_ends (N : nat) : ∀ it wd,
  stands_for self0 (obj wd) →
  (∀ c, total_cost (obj wd) = Ok c → c < INR N * epsilon) →
  ∃ fuel x, inner_loop_from fuel it wd = Some x.
Proof.
  induction N as [|N IH]; intros it wd Hs Hc.
  - exists 1%nat. cbn [inner_loop_from].
    destruct (inner_iteration it wd) as [[[prev cur]|e] wd1] eqn:Hit; [|by eexists].
    apply inner_iteration_costs in Hit as [Hprev _].
    pose proof (stands_for_nonneg _ _ Hs Hprev). specialize (Hc _ Hprev).
    simpl in Hc. lra.
  - pose proof (triple_inner_iteration self0 it wd Hs) as Hs1.
    destruct (inner_iteration it wd) as [[[prev cur]|e] wd1] eqn:Hit.
    + pose proof (inner_iteration_costs _ _ _ _ _ Hit) as [Hprev Hcur].
      destruct (Rlt_dec (prev - cur) epsilon) as [Hlt|Hge] eqn:Edec.
      * exists 1%nat. cbn [inner_loop_from]. rewrite Hit, Edec. by eexists.
      * destruct (emit_spec DEBUG (Debug_iteration_inner (S it)) wd1) as [out Hout].
        destruct (IH (S it) (mkWorld (obj wd1) (log_level wd1) out)) as (fuel & x & Hx).
        { done. }
        { cbn [obj]. intros c Hc'. rewrite Hcur in Hc'. injection Hc' as <-.
          specialize (Hc _ Hprev). rewrite S_INR in Hc. lra. }
        exists (S fuel), x. cbn [inner_loop_from]. rewrite Hit, Edec.
        unfold logging_debug. by rewrite Hout.
    + exists 1%nat. cbn [inner_loop_from]. rewrite Hit. by eexists.
Qed.

Lemma below_multiple (x : R) : ∃ N : nat, x < INR N * epsilon.
Proof.
  pose proof epsilon_pos as He.
  destruct (archimed (x / epsilon)) as [Hup _].
  exists (Z.to_nat (up (x / epsilon))).
  assert (x / epsilon * epsilon = x) as Hx by (field; lra).
  destruct (Z.le_gt_cases (up (x / epsilon)) 0) as [Hle|Hgt].
  - rewrite Z2Nat.nonpos by done. simpl. apply IZR_le in Hle.
    assert (x / epsilon < 0) by lra. rewrite <- Hx. nra.
  - rewrite INR_IZR_INZ, Z2Nat.id by lia. rewrite <- Hx at 1.
    apply Rmult_lt_compat_r; lra.
Qed.

Lemma inner_loop_returns it wd :
  stands_for self0 (obj wd) → ∃ fuel x, inner_loop_from fuel it wd = Some x.
Proof.
  intros Hs. destruct (total_cost (obj wd)) as [c|e] eqn:Ec.
  - destruct (below_multiple c) as [N HN]. apply (inner_loop_ends N); [done|].
    intros c' Hc'. rewrite Ec in Hc'. by injection Hc' as <-.
  - apply (inner_loop_ends 0); [done|]. intros c' Hc'. congruence.
Qed.

Lemma run_ends (N : nat) : ∀ it wd,
  stands_for self0 (obj wd) →
  (∀ c, total_cost (obj wd) = Ok c → c < INR N * epsilon) →
  ∃ fuel x, run_from fuel it wd = Some x.
Proof.
  induction N as [|N IH]; intros it wd Hs Hc.
  - exists 1%nat. cbn [run_from].
    destruct (split_phase it wd) as [[prev|e] wd1] eqn:Hsp; [|by eexists].
    apply split_phase_prev in Hsp.
    pose proof (stands_for_nonneg _ _ Hs Hsp). specialize (Hc _ Hsp). simpl in Hc. lra.
  - pose proof (triple_split_phase self0 it wd Hs) as Hs1.
    destruct (split_phase it wd) as [[prev|e] wd1] eqn:Hsp.
    2:{ exists 1%nat. cbn [run_from]. rewrite Hsp. by eexists. }
    pose proof (split_phase_prev _ _ _ _ Hsp) as Hprev.
    destruct (inner_loop_returns 0 wd1 Hs1) as (fuel1 & [r2 wd2] & Hinner).
    pose proof (inner_loop_stands_for self0 _ _ _ _ _ Hs1 Hinner) as Hs2.
    destruct r2 as [[]|e].
    2:{ exists (S fuel1). cbn [run_from]. rewrite Hsp. unfold _inner_loop.
        rewrite Hinner. by eexists. }
    destruct ((_report_code_cost;; on_obj (reading total_cost)) wd2) as [[cur|e] wd3]
      eqn:Hafter.
    2:{ exists (S fuel1). cbn [run_from]. rewrite Hsp. unfold _inner_loop.
        rewrite Hinner, Hafter. by eexists. }
    pose proof (after_inner_loop_cur _ _ _ Hafter) as [Hobj Hcur].
    destruct (Rlt_dec (prev - cur) epsilon) as [Hlt|Hge] eqn:Edec.
    { exists (S fuel1). cbn [run_from]. rewrite Hsp. unfold _inner_loop.
      rewrite Hinner, Hafter, Edec. by eexists. }
    destruct (emit_spec DEBUG (Debug_iteration_outer (S it)) wd3) as [out Hout].
    destruct (IH (S it) (mkWorld (obj wd3) (log_level wd3) out)) as (fuel2 & x & Hx).
    { cbn [obj]. by rewrite Hobj. }
    { cbn [obj]. rewrite Hobj. intros c Hc'. rewrite Hcur in Hc'. injection Hc' as <-.
      specialize (Hc _ Hprev). rewrite S_INR in Hc. lra. }
    exists (S (fuel1 + fuel2)), x. cbn [run_from]. rewrite Hsp. unfold _inner_loop.
    rewrite (inner_loop_from_more fuel1 fuel2 _ _ _ Hinner), Hafter, Edec.
    unfold logging_debug. rewrite Hout. cbn [snd].
    rewrite (Nat.add_comm fuel1 fuel2). by apply run_from_more.
Qed.

Lemma run_returns it wd :
  stands_for self0 (obj wd) → ∃ fuel x, run_from fuel it wd = Some x.
Proof.
  intros Hs. destruct (total_cost (obj wd)) as [c|e] eqn:Ec.
  - destruct (below_multiple c) as [N HN]. apply (run_ends N); [done|].
    intros c' Hc'. rewrite Ec in Hc'. by injection Hc' as <-.
  - apply (run_ends 0); [done|]. intros c' Hc'. congruence.
Qed.
End ends.

(** ** When the costs have a value *)

Lemma mapM2_table {A} (f : nat → nat → result A) (l1 l2 : list nat) t i j x y :
  mapM (fun x => mapM (fun y => f x y) l2) l1 = Ok t →
  l1 !! i = Some x → l2 !! j = Some y →
  ∃ v, table_get t i j = Ok v ∧ f x y = Ok v.
Proof.
  intros Hm Hi Hj. apply mapM_Ok_inv in Hm.
  destruct (Forall2_lookup_l _ _ _ _ _ Hm Hi) as (row & Hrow & Hr).
  apply mapM_Ok_inv in Hr.
  destruct (Forall2_lookup_l _ _ _ _ _ Hr Hj) as (v & Hv & Hf).
  exists v. split; [|done]. unfold table_get. rewrite Hrow. simpl. by rewrite Hv.
Qed.

Lemma elem_of_pairs self i j : (i, j) ∈ pairs self ↔ i < k self ∧ j < k self.
Proof.
  unfold pairs, groups. rewrite list_elem_of_bind. split.
  - intros (x & Hin & Hx). apply list_elem_of_bind in Hin as (y & Hin & Hy).
    apply list_elem_of_singleton in Hin. injection Hin as -> ->.
    apply elem_of_seq in Hx, Hy. lia.
  - intros [Hi Hj]. exists i. split; [|apply elem_of_seq; lia].
    apply list_elem_of_bind. exists j. split; [by apply list_elem_of_singleton|].
    apply elem_of_seq. lia.
Qed.

Lemma log2_is_ok (p : Q) : (0 < p)%Q → is_ok (log2 p).
Proof.
  intros Hp. unfold log2. destruct (Qle_bool p 0) eqn:E; [|by eexists].
  apply Qle_bool_iff in E. exfalso. by apply (Qlt_not_le _ _ Hp).
Qed.

Lemma block_code_cost_is_ok self wt n :
  ∀ i j, block_weight self i j = Ok wt → block_size self i j = Ok n →
    block_density self i j = Ok (smoothed wt (Z.of_nat n)) →
    (0 <= wt <= Z.of_nat n)%Z → is_ok (block_code_cost self i j).
Proof.
  intros i j Hw Hn Hp Hb. unfold block_code_cost. rewrite Hw, Hp, Hn. simpl.
  destruct (smoothed_bounds wt (Z.of_nat n) Hb) as [H0 H1].
  destruct (log2_is_ok _ H0) as [l1 ->]. simpl.
  destruct (log2_is_ok (1 - smoothed wt (Z.of_nat n))) as [l2 ->]; [|by eexists].
  clear -H1. destruct (smoothed wt (Z.of_nat n)) as [a b].
  unfold Qlt, Qminus, Qplus, Qopp in *. simpl in *. lia.
Qed.

(** The cache entries of an object whose caches are up to date. *)
Lemma up_to_date_blocks self i j :
  keys_ok self → binary (adj_matrix self) → up_to_date self →
  i < k self → j < k self →
  ∃ wt n, block_weight self i j = Ok wt ∧ block_size self i j = Ok n
          ∧ block_density self i j = Ok (smoothed wt (Z.of_nat n))
          ∧ (0 <= wt <= Z.of_nat n)%Z.
Proof.
  intros Hk Hb [Hw HP] Hi Hj. unfold keys_ok in Hk.
  destruct (mapM2_table _ _ _ _ i j i j Hw) as (wt & Hwt & Hbw); [apply lookup_seq; lia..|].
  destruct (mapM2_table _ _ _ _ i j i j HP) as (p & Hp & Hbd); [apply lookup_seq; lia..|].
  assert (∃ n, block_size self i j = Ok n) as [n Hn].
  { unfold block_size. rewrite !group_size_lookup by lia. by eexists. }
  exists wt, n. split; [done|]. split; [done|]. split.
  - unfold block_density. rewrite Hp, <- Hbd. unfold _block_density, block_weight.
    by rewrite Hwt, Hn.
  - by eapply _block_weight_bounds.
Qed.

(** ** Moving a node and adding a group *)

Lemma rearrange_map_n_g g_n n_g self self' :
  _rearrange_matrix_and_mappings g_n n_g self = (Ok tt, self') →
  map_n_g self' = n_g ∧ map_g_n self' = g_n
  ∧ map_n_r self' = enumerate_map (concat g_n).
Proof.
  rewrite rearrange_unfold. intros H.
  repeat (case_bool_decide || case_match || done).
  apply recalculate_inv in H as (w' & P' & _ & _ & ->). done.
Qed.

Lemma recalculate_mappings self self' :
  _recalculate_block_properties self = (Ok tt, self') →
  map_n_g self' = map_n_g self ∧ map_g_n self' = map_g_n self
  ∧ map_n_r self' = map_n_r self ∧ k self' = k self.
Proof. intros H. apply recalculate_inv in H as (w' & P' & _ & _ & ->). done. Qed.

(** The mappings after a node was moved: the node is in the newest group,
    every other node where it was, and the rows are in the order of the
    groups. *)
Lemma move_node_mappings nd self self' :
  _move_node_to_new_group nd self = (Ok tt, self') →
  map_n_g self' = <[nd := k self - 1]> (map_n_g self)
  ∧ map_n_r self' = enumerate_map (concat (map_g_n self'))
  ∧ k self' = k self.
Proof.
  unfold _move_node_to_new_group, mbind, M_bind, reading, modify.
  destruct (map_n_g self !! nd) as [g|]; [|done]. cbn [of_option]. cbn beta iota.
  destruct (map_g_n self !! g) as [s|]; [|done]. cbn [of_option]. cbn beta iota.
  destruct (set_remove nd s) as [s'|]; [|done]. cbn beta iota.
  cbn [k set_map_g_n map_g_n map_n_g set_map_n_g].
  destruct (decide (k self = 0)); [done|]. cbn beta iota.
  destruct (_ !! (k self - 1)) as [t|]; [|done]. cbn [of_option]. cbn beta iota.
  cbn [k set_map_g_n map_g_n map_n_g set_map_n_g].
  destruct (_rearrange_matrix_and_mappings _ _ _) as [[[]|] self3] eqn:Hre; [|done].
  cbn beta iota. intros Hrec.
  pose proof (rearrange_fields _ _ _ _ Hre) as [_ Hk3].
  apply rearrange_map_n_g in Hre as (Hn3 & Hg3 & Hr3).
  apply recalculate_mappings in Hrec as (-> & -> & -> & ->).
  rewrite Hn3, Hr3, Hg3, Hk3. done.
Qed.

(** ** What the cached weights count *)

Lemma mapM_Forall2 {A B} (f : A → result B) l ys :
  Forall2 (fun x y => f x = Ok y) l ys → mapM f l = Ok ys.
Proof.
  induction 1 as [|x y l ys Hxy _ IH]; [done|]. by rewrite mapM_cons, Hxy, IH.
Qed.

Lemma Zsum_zeros {A} (l : list A) : Zsum ((fun _ => 0%Z) <$> l) = 0%Z.
Proof. induction l; [done|]. rewrite fmap_cons, Zsum_cons. lia. Qed.

Lemma concat_lookup_group {A} (g : list (list A)) i s p a :
  g !! i = Some s → s !! p = Some a →
  concat g !! (nsum (take i (length <$> g)) + p) = Some a.
Proof.
  intros Hi Hp. rewrite <- fmap_take, nsum_concat_length.
  rewrite <- (take_drop_middle g i s Hi) at 2.
  rewrite concat_app, lookup_app_r by lia.
  replace (_ + p - _) with p by lia. simpl. by apply lookup_app_l_Some.
Qed.

Lemma group_range {A} (g : list (list A)) i s :
  g !! i = Some s → nsum (take i (length <$> g)) + length s ≤ length (concat g).
Proof.
  intros Hi. rewrite <- fmap_take, nsum_concat_length.
  rewrite <- (take_drop_middle g i s Hi) at 2.
  rewrite concat_app, length_app. simpl. rewrite length_app. lia.
Qed.

Section counts.
Variable self : Autopart.
Hypothesis Hrows : rows_by_group self.

Lemma row_of_member i s p a :
  map_g_n self !! i = Some s → s !! p = Some a →
  map_n_r self !! a = Some (nsum (take i (group_sizes self)) + p).
Proof.
  intros Hi Hp. destruct Hrows as (Hnd & -> & _).
  apply enumerate_map_lookup; [done|]. by eapply concat_lookup_group.
Qed.

Lemma row_slice_counts i j s t p a :
  map_g_n self !! i = Some s → map_g_n self !! j = Some t → s !! p = Some a →
  row_slice_sum (adj_matrix self) (nsum (take i (group_sizes self)) + p)
    (nsum (take j (group_sizes self)))
    (nsum (take j (group_sizes self)) + length t)
  = Ok (Zsum (weight_of self a <$> t)).
Proof.
  intros Hi Hj Hp. pose proof Hrows as (Hnd & Hmap & [Hlen Hsq]).
  pose proof (group_range _ _ _ Hi) as Hri. pose proof (group_range _ _ _ Hj) as Hrj.
  fold (group_sizes self) in Hri, Hrj.
  assert (p < length s) as Hps by (by eapply lookup_lt_Some).
  destruct (lookup_lt_is_Some_2 (adj_matrix self) (nsum (take i (group_sizes self)) + p))
    as [row Hrow]; [lia|].
  assert (length row = length (concat (map_g_n self))) as Hlrow.
  { eapply (Forall_lookup_1 _ _ _ _ Hsq Hrow). }
  unfold row_slice_sum. rewrite Hrow. simpl. do 2 f_equal.
  replace (_ + length t - _) with (length t) by lia.
  apply list_eq. intros q. rewrite list_lookup_fmap.
  destruct (decide (q < length t)) as [Hq|Hq].
  - rewrite lookup_take_lt, lookup_drop by done.
    destruct (lookup_lt_is_Some_2 t q Hq) as [b Hb]. rewrite Hb. simpl.
    destruct (lookup_lt_is_Some_2 row (nsum (take j (group_sizes self)) + q)) as [v Hv];
      [lia|].
    rewrite Hv. f_equal. unfold weight_of, adjacency, cell.
    rewrite (row_of_member _ _ _ _ Hi Hp), (row_of_member _ _ _ _ Hj Hb). simpl.
    rewrite Hrow. simpl. by rewrite Hv.
  - rewrite lookup_take_ge by lia. rewrite (lookup_ge_None_2 t) by lia. done.
Qed.

Lemma block_weight_counts i j s t :
  map_g_n self !! i = Some s → map_g_n self !! j = Some t →
  _block_weight self i j = Ok (edges_between self s t).
Proof.
  intros Hi Hj. unfold _block_weight.
  assert (i < length (map_g_n self)) as Hil by (by eapply lookup_lt_Some).
  assert (j < length (map_g_n self)) as Hjl by (by eapply lookup_lt_Some).
  rewrite !group_start_idx_Ok by lia. simpl.
  rewrite (group_size_Ok _ _ _ Hi), (group_size_Ok _ _ _ Hj). simpl.
  destruct (_ && _) eqn:Hne.
  - replace (_ + length s - _) with (length s) by lia.
    erewrite mapM_Forall2; [done|].
    apply Forall2_same_length_lookup. split.
    { rewrite length_seq, length_fmap. done. }
    intros p r z Hr Hz. apply lookup_seq in Hr as [-> Hp].
    rewrite list_lookup_fmap in Hz.
    destruct (s !! p) as [a|] eqn:Ha; simpl in Hz; [|done]. injection Hz as <-.
    by eapply row_slice_counts.
  - f_equal. unfold edges_between. apply andb_false_iff in Hne as [Hs|Ht].
    + apply Nat.ltb_ge in Hs. assert (length s = 0) as Hl by lia.
      apply nil_length_inv in Hl as ->. done.
    + apply Nat.ltb_ge in Ht. assert (length t = 0) as Hl by lia.
      apply nil_length_inv in Hl as ->. simpl. symmetry. apply Zsum_zeros.
Qed.
End counts.

Lemma concat_lookup_inv {A} (g : list (list A)) x a :
  concat g !! x = Some a →
  ∃ i s p, g !! i = Some s ∧ s !! p = Some a ∧ x = nsum (take i (length <$> g)) + p.
Proof.
  revert x. induction g as [|s g IH]; intros x; [done|]. simpl.
  intros Hx. apply lookup_app_Some in Hx as [Hx|[Hge Hx]].
  - exists 0, s, x. done.
  - destruct (IH _ Hx) as (i & s' & p & Hi & Hp & Heq).
    exists (S i), s', p. split; [done|]. split; [done|].
    change (length <$> s :: g) with (length s :: (length <$> g)).
    cbn [take]. rewrite nsum_cons.
    change (list_fmap (list A) nat length g) with (length <$> g). lia.
Qed.

Section line_weights.
Variable self : Autopart.
Hypothesis Hrows : rows_by_group self.

Lemma col_slice_counts i j s t p a :
  map_g_n self !! i = Some s → map_g_n self !! j = Some t → s !! p = Some a →
  col_slice_sum (adj_matrix self) (nsum (take j (group_sizes self)))
    (nsum (take j (group_sizes self)) + length t)
    (nsum (take i (group_sizes self)) + p)
  = Ok (Zsum ((fun b => weight_of self b a) <$> t)).
Proof.
  intros Hi Hj Hp. pose proof Hrows as (Hnd & Hmap & [Hlen Hsq]).
  pose proof (group_range _ _ _ Hi) as Hri. pose proof (group_range _ _ _ Hj) as Hrj.
  fold (group_sizes self) in Hri, Hrj.
  assert (p < length s) as Hps by (by eapply lookup_lt_Some).
  unfold col_slice_sum. replace (_ + length t - _) with (length t) by lia.
  erewrite mapM_Forall2; [done|].
  apply Forall2_same_length_lookup. split.
  { rewrite length_take, length_drop, length_fmap. lia. }
  intros q row v Hrow Hv. rewrite list_lookup_fmap in Hv.
  apply lookup_take_Some in Hrow as [Hrow Hq]. rewrite lookup_drop in Hrow.
  destruct (t !! q) as [b|] eqn:Hb; simpl in Hv; [|done]. injection Hv as <-.
  assert (length row = length (concat (map_g_n self))) as Hlrow.
  { eapply (Forall_lookup_1 _ _ _ _ Hsq Hrow). }
  destruct (lookup_lt_is_Some_2 row (nsum (take i (group_sizes self)) + p)) as [v Hv];
    [lia|].
  rewrite Hv. simpl. f_equal. unfold weight_of, adjacency, cell.
  rewrite (row_of_member self Hrows _ _ _ _ Hj Hb), (row_of_member self Hrows _ _ _ _ Hi Hp).
  simpl. rewrite Hrow. simpl. by rewrite Hv.
Qed.

(** [row_weight] and [col_weight] for the row of a node count the edges
    from the node to a group, and from a group to the node. *)
Lemma line_weights_count a x j t :
  map_n_r self !! a = Some x → map_g_n self !! j = Some t →
  row_weight self x j = Ok (edges_between self [a] t)
  ∧ col_weight self x j = Ok (edges_between self t [a]).
Proof.
  intros Hx Hj. pose proof Hrows as (Hnd & Hmap & _).
  rewrite Hmap in Hx. apply enumerate_map_lookup in Hx; [|done].
  apply concat_lookup_inv in Hx as (i & s & p & Hi & Hp & ->).
  fold (group_sizes self).
  assert (j < length (map_g_n self)) as Hjl by (by eapply lookup_lt_Some).
  unfold row_weight, col_weight.
  rewrite !group_start_idx_Ok by lia. simpl.
  rewrite (group_size_Ok _ _ _ Hj). simpl.
  unfold edges_between. rewrite !fmap_cons, !fmap_nil, Zsum_cons, Zsum_nil, Z.add_0_r.
  destruct (_ <? _) eqn:Hne.
  - split; [by eapply row_slice_counts|].
    rewrite (col_slice_counts _ _ _ _ _ _ Hi Hj Hp). done.
  - apply Nat.ltb_ge in Hne. assert (length t = 0) as Hl by lia.
    apply nil_length_inv in Hl as ->. done.
Qed.
End line_weights.

(** ** The prediction of the entropy without a node *)

(** Sums over lists of nodes. *)
Lemma Zsum_fmap_app {A} (f : A → Z) l1 l2 :
  Zsum (f <$> (l1 ++ l2)) = (Zsum (f <$> l1) + Zsum (f <$> l2))%Z.
Proof. by rewrite fmap_app, Zsum_app. Qed.

Lemma Zsum_fmap_plus {A} (f g : A → Z) l :
  Zsum ((fun a => f a + g a)%Z <$> l) = (Zsum (f <$> l) + Zsum (g <$> l))%Z.
Proof. induction l; [done|]. rewrite !fmap_cons, !Zsum_cons. lia. Qed.

Lemma Zsum_fmap_minus {A} (f g : A → Z) l :
  Zsum ((fun a => f a - g a)%Z <$> l) = (Zsum (f <$> l) - Zsum (g <$> l))%Z.
Proof. induction l; [done|]. rewrite !fmap_cons, !Zsum_cons. lia. Qed.

Lemma filter_ne_id (nd : node) (s : list node) :
  nd ∉ s → filter (fun x => x ≠ nd) s = s.
Proof.
  induction s as [|a s IH]; intros Hn; [done|].
  apply not_elem_of_cons in Hn as [Hne Hn].
  rewrite filter_cons_True by done. by rewrite IH.
Qed.

Lemma Zsum_fmap_without (f : node → Z) (nd : node) (s : list node) :
  NoDup s → nd ∈ s →
  Zsum (f <$> filter (fun x => x ≠ nd) s) = (Zsum (f <$> s) - f nd)%Z.
Proof.
  induction s as [|a s IH]; intros Hnd Hin; [by apply elem_of_nil in Hin|].
  apply NoDup_cons in Hnd as [Ha Hnd].
  destruct (decide (a = nd)) as [->|Hne].
  - rewrite filter_cons_False by (intros H; by apply H).
    rewrite fmap_cons, Zsum_cons.
    rewrite filter_ne_id by done. lia.
  - rewrite filter_cons_True by done. rewrite !fmap_cons, !Zsum_cons.
    apply elem_of_cons in Hin as [->|Hin]; [done|]. rewrite IH by done. lia.
Qed.

Section edges.
Variable self : Autopart.

Lemma edges_single_l a t :
  edges_between self [a] t = Zsum (weight_of self a <$> t).
Proof. reflexivity. Qed.

Lemma edges_single_r s b :
  edges_between self s [b] = Zsum ((fun a => weight_of self a b) <$> s).
Proof. reflexivity. Qed.

Lemma edges_single a b : edges_between self [a] [b] = weight_of self a b.
Proof. reflexivity. Qed.

Lemma edges_app_l s1 s2 t :
  edges_between self (s1 ++ s2) t = (edges_between self s1 t + edges_between self s2 t)%Z.
Proof. unfold edges_between. apply Zsum_fmap_app. Qed.

Lemma edges_app_r s t1 t2 :
  edges_between self s (t1 ++ t2) = (edges_between self s t1 + edges_between self s t2)%Z.
Proof.
  unfold edges_between. rewrite <- Zsum_fmap_plus. f_equal.
  apply list_fmap_ext. intros ? a ?. apply Zsum_fmap_app.
Qed.

Lemma edges_without_l nd s t :
  NoDup s → nd ∈ s →
  edges_between self (filter (fun x => x ≠ nd) s) t
  = (edges_between self s t - edges_between self [nd] t)%Z.
Proof.
  intros Hnd Hin. rewrite edges_single_l. unfold edges_between.
  by rewrite (Zsum_fmap_without (fun a => Zsum (weight_of self a <$> t))).
Qed.

Lemma edges_without_r nd s t :
  NoDup s → nd ∈ s →
  edges_between self t (filter (fun x => x ≠ nd) s)
  = (edges_between self t s - edges_between self t [nd])%Z.
Proof.
  intros Hnd Hin. rewrite edges_single_r. unfold edges_between.
  rewrite <- Zsum_fmap_minus. f_equal. apply list_fmap_ext. intros ? a ?.
  by apply Zsum_fmap_without.
Qed.
End edges.

Lemma edges_between_same_graph self self' s t :
  same_graph self self' →
  (∀ a, a ∈ s → a ∈ graph self) → (∀ b, b ∈ t → b ∈ graph self) →
  edges_between self' s t = edges_between self s t.
Proof.
  intros [_ Hadj] Hs Ht. unfold edges_between. f_equal.
  apply list_fmap_ext. intros p a Ha. f_equal.
  apply list_fmap_ext. intros q b Hb. unfold weight_of.
  rewrite Hadj; [done| |].
  - apply Hs. by eapply list_elem_of_lookup_2.
  - apply Ht. by eapply list_elem_of_lookup_2.
Qed.

(** The groups after a node was moved. *)
Lemma move_node_map_g_n nd self self' g s t :
  map_n_g self !! nd = Some g → map_g_n self !! g = Some s →
  <[g := filter (fun x => x ≠ nd) s]> (map_g_n self) !! (k self - 1) = Some t →
  _move_node_to_new_group nd self = (Ok tt, self') →
  map_g_n self'
  = <[k self - 1 := set_add nd t]> (<[g := filter (fun x => x ≠ nd) s]> (map_g_n self)).
Proof.
  intros Hg Hs Ht.
  unfold _move_node_to_new_group, mbind, M_bind, reading, modify.
  rewrite Hg. cbn [of_option]. cbn beta iota. rewrite Hs. cbn [of_option]. cbn beta iota.
  unfold set_remove. case_decide; [|done]. cbn beta iota.
  cbn [k set_map_g_n map_g_n map_n_g set_map_n_g].
  destruct (decide (k self = 0)); [done|]. cbn beta iota.
  rewrite Ht. cbn [of_option]. cbn beta iota.
  cbn [k set_map_g_n map_g_n map_n_g set_map_n_g].
  destruct (_rearrange_matrix_and_mappings _ _ _) as [[[]|] self3] eqn:Hre; [|done].
  cbn beta iota. intros Hrec.
  apply rearrange_map_n_g in Hre as (_ & Hg3 & _).
  apply recalculate_mappings in Hrec as (_ & -> & _). done.
Qed.

Lemma length_filter_ne (nd : node) (s : list node) :
  NoDup s → nd ∈ s → S (length (filter (fun x => x ≠ nd) s)) = length s.
Proof.
  induction s as [|a s IH]; intros Hnd Hin; [by apply elem_of_nil in Hin|].
  apply NoDup_cons in Hnd as [Ha Hnd].
  destruct (decide (a = nd)) as [->|Hne].
  - rewrite filter_cons_False by (intros H; by apply H). by rewrite filter_ne_id.
  - rewrite filter_cons_True by done. simpl.
    apply elem_of_cons in Hin as [->|Hin]; [done|]. by rewrite IH.
Qed.

Lemma cell_weight_of self a b x y :
  rows_by_group self → map_n_r self !! a = Some x → map_n_r self !! b = Some y →
  cell self x y = Ok (weight_of self a b).
Proof.
  intros (Hnd & Hmap & [Hlen Hsq]) Hx Hy.
  assert (∀ c z, map_n_r self !! c = Some z → z < length (concat (map_g_n self))) as Hlt.
  { intros c z Hz. rewrite Hmap in Hz. apply enumerate_map_lookup in Hz; [|done].
    by eapply lookup_lt_Some. }
  destruct (lookup_lt_is_Some_2 (adj_matrix self) x) as [row Hrow];
    [rewrite Hlen; by eapply Hlt|].
  assert (length row = length (concat (map_g_n self))) as Hlrow
    by (eapply (Forall_lookup_1 _ _ _ _ Hsq Hrow)).
  destruct (lookup_lt_is_Some_2 row y) as [v Hv]; [rewrite Hlrow; by eapply Hlt|].
  unfold weight_of, adjacency, cell. rewrite Hx, Hy. simpl. rewrite Hrow. simpl.
  by rewrite Hv.
Qed.

(** The cache entries of a block, from the nodes of its two groups. *)
Lemma cached_block self j1 j2 u1 u2 :
  keys_ok self → rows_by_group self → up_to_date self →
  map_g_n self !! j1 = Some u1 → map_g_n self !! j2 = Some u2 →
  block_weight self j1 j2 = Ok (edges_between self u1 u2)
  ∧ block_size self j1 j2 = Ok (length u1 * length u2)
  ∧ block_density self j1 j2
    = Ok (smoothed (edges_between self u1 u2) (Z.of_nat (length u1 * length u2))).
Proof.
  intros Hk Hrbg [Hw HP] H1 H2. unfold keys_ok in Hk.
  assert (j1 < k self) as Hj1 by (rewrite <- Hk; by eapply lookup_lt_Some).
  assert (j2 < k self) as Hj2 by (rewrite <- Hk; by eapply lookup_lt_Some).
  destruct (mapM2_table _ _ _ _ j1 j2 j1 j2 Hw) as (wt & Hwt & Hbw);
    [apply lookup_seq; lia..|].
  destruct (mapM2_table _ _ _ _ j1 j2 j1 j2 HP) as (p & Hp & Hbd);
    [apply lookup_seq; lia..|].
  rewrite (block_weight_counts self Hrbg j1 j2 u1 u2 H1 H2) in Hbw. injection Hbw as <-.
  assert (block_size self j1 j2 = Ok (length u1 * length u2)) as Hn.
  { unfold block_size. by rewrite (group_size_Ok _ _ _ H1), (group_size_Ok _ _ _ H2). }
  split; [done|]. split; [done|].
  unfold block_density. rewrite Hp, <- Hbd. unfold _block_density, block_weight.
  by rewrite Hwt, Hn.
Qed.

(** The code cost of a block, from the nodes of its two groups. *)
Lemma block_code_cost_cached self j1 j2 u1 u2 :
  keys_ok self → rows_by_group self → up_to_date self →
  map_g_n self !! j1 = Some u1 → map_g_n self !! j2 = Some u2 →
  block_code_cost self j1 j2
  = (let wt := edges_between self u1 u2 in
     let n := Z.of_nat (length u1 * length u2) in
     l1 ← log2 (smoothed wt n);
     l2 ← log2 (1 - smoothed wt n)%Q;
     Ok (0 - IZR wt * l1 - IZR (n - wt) * l2)%R).
Proof.
  intros Hk Hrbg Hutd H1 H2.
  destruct (cached_block self j1 j2 u1 u2 Hk Hrbg Hutd H1 H2) as (Hw & Hn & Hp).
  unfold block_code_cost. rewrite Hw, Hp, Hn. simpl.
  destruct (log2 _); [|done]. simpl. done.
Qed.

Lemma exclude_unfold self group_i nd :
  group_entropy_per_node_exclude self group_i nd
  = (n ← group_size self group_i;
     if decide (n = 1) then Ok 0%R
     else
       n0 ← group_size self group_i;
       if decide (n0 = 0) then Ok 0%R
       else
         x ← of_option KeyError (map_n_r self !! nd);
         entropy ← fold_left (exclude_step self group_i x) (groups self) (Ok 0%R);
         m ← group_size self group_i;
         Ok (entropy / IZR (Z.of_nat m - 1))%R).
Proof. reflexivity. Qed.

Lemma wf_rows_by_group self :
  wf self → map_n_r self = enumerate_map (concat (map_g_n self)) → rows_by_group self.
Proof.
  intros [Hrows Hpart] Hmap. pose proof Hrows as (Hnd & _).
  pose proof (partition_covers self Hnd Hpart) as Hperm.
  split; [|split].
  - by rewrite Hperm.
  - done.
  - rewrite Hperm. by apply rows_ok_square.
Qed.

Lemma group_in_graph self j u a :
  wf self → map_g_n self !! j = Some u → a ∈ u → a ∈ graph self.
Proof.
  intros [_ (_ & _ & Hng & Hdom)] Hj Ha. apply Hdom.
  exists j. apply Hng. by exists u.
Qed.

(** A node [nd] of group [i], which has more nodes, is moved to the newest
    group; no other group is empty and the node has no edge to itself. *)
Section prediction.
Variables (self self' : Autopart) (i x : nat) (nd : node) (s t : list node).
Hypothesis Hwf : wf self.
Hypothesis Hrbg : rows_by_group self.
Hypothesis Hutd : up_to_date self.
Hypothesis Hi : map_g_n self !! i = Some s.
Hypothesis Hnd : nd ∈ s.
Hypothesis Hs : 1 < length s.
Hypothesis Hik : i ≠ k self - 1.
Hypothesis Ht : map_g_n self !! (k self - 1) = Some t.
Hypothesis Hx : map_n_r self !! nd = Some x.
Hypothesis Hloop : weight_of self nd nd = 0%Z.
Hypothesis Hother :
  ∀ j u, j ≠ i → j ≠ k self - 1 → map_g_n self !! j = Some u → u ≠ [].
Hypothesis Hmove : _move_node_to_new_group nd self = (Ok tt, self').

Lemma moved_n_g : map_n_g self !! nd = Some i.
Proof. destruct Hwf as [_ (_ & _ & Hng & _)]. apply Hng. by exists s. Qed.

Lemma moved_NoDup : NoDup s.
Proof.
  destruct Hwf as [_ (_ & Hsets & _)].
  by eapply (Forall_lookup_1 _ _ _ _ Hsets Hi).
Qed.

Lemma moved_not_newest : nd ∉ t.
Proof.
  intros Hin. destruct Hwf as [_ (_ & _ & Hng & _)].
  assert (map_n_g self !! nd = Some (k self - 1)) as E by (apply Hng; by exists t).
  rewrite moved_n_g in E. congruence.
Qed.

Lemma moved_groups :
  map_g_n self'
  = <[k self - 1 := t ++ [nd]]> (<[i := filter (fun y => y ≠ nd) s]> (map_g_n self)).
Proof.
  rewrite (move_node_map_g_n nd self self' i s t moved_n_g Hi); [|by rewrite list_lookup_insert_ne|done].
  unfold set_add. rewrite decide_False; [done|apply moved_not_newest].
Qed.

Lemma moved_group_i : map_g_n self' !! i = Some (filter (fun y => y ≠ nd) s).
Proof.
  rewrite moved_groups, list_lookup_insert_ne by done.
  apply list_lookup_insert_eq. by eapply lookup_lt_Some.
Qed.

Lemma moved_group_newest : map_g_n self' !! (k self - 1) = Some (t ++ [nd]).
Proof.
  rewrite moved_groups. apply list_lookup_insert_eq.
  rewrite length_insert. by eapply lookup_lt_Some.
Qed.

Lemma moved_group_other j :
  j ≠ i → j ≠ k self - 1 → map_g_n self' !! j = map_g_n self !! j.
Proof. intros ??. by rewrite moved_groups, !list_lookup_insert_ne. Qed.

Lemma moved_object :
  wf self' ∧ k self' = k self ∧ same_graph self self' ∧ up_to_date self'
  ∧ rows_by_group self'.
Proof.
  destruct (move_node_wf self nd Hwf) as (self2 & Hrun & Hwf' & Hk & _ & Hsame).
  { exact (group_in_graph self i s nd Hwf Hi Hnd). }
  rewrite Hmove in Hrun. injection Hrun as <-.
  split; [done|]. split; [done|]. split; [done|].
  split; [exact (move_node_fresh _ _ _ Hmove)|].
  apply wf_rows_by_group; [done|].
  by destruct (move_node_mappings _ _ _ Hmove) as (_ & ? & _).
Qed.

Lemma moved_size : Z.of_nat (length (filter (fun y => y ≠ nd) s)) = (Z.of_nat (length s) - 1)%Z.
Proof. pose proof (length_filter_ne nd s moved_NoDup Hnd). lia. Qed.

Lemma moved_in_graph a : a ∈ filter (fun y => y ≠ nd) s → a ∈ graph self.
Proof.
  intros [_ Ha]%list_elem_of_filter. exact (group_in_graph self i s a Hwf Hi Ha).
Qed.
Lemma moved_newest_in_graph a : a ∈ t → a ∈ graph self.
Proof. intros Ha. exact (group_in_graph self (k self - 1) t a Hwf Ht Ha). Qed.

Lemma moved_single_in_graph a : a ∈ [nd] → a ∈ graph self.
Proof.
  intros ->%list_elem_of_singleton. exact (group_in_graph self i s nd Hwf Hi Hnd).
Qed.

Lemma exclude_block_tuple (n n' w1 w1' w2 w2' : Z) :
  n = n' → w1 = w1' → w2 = w2' →
  Ok (n, n, w1, w2, smoothed w1 n, smoothed w2 n)
  = Ok (n', n', w1', w2', smoothed w1' n', smoothed w2' n').
Proof. by intros -> -> ->. Qed.

(** What a round of the loop works with: the sizes, the weights and the
    densities of the two blocks of groups [i] and [j] after the move. *)
Lemma exclude_block_exact j :
  j < k self →
  ∃ u, map_g_n self' !! j = Some u
    ∧ exclude_block self i x j
      = Ok (Z.of_nat (length (filter (fun y => y ≠ nd) s) * length u),
            Z.of_nat (length (filter (fun y => y ≠ nd) s) * length u),
            edges_between self' (filter (fun y => y ≠ nd) s) u,
            edges_between self' u (filter (fun y => y ≠ nd) s),
            smoothed (edges_between self' (filter (fun y => y ≠ nd) s) u)
              (Z.of_nat (length (filter (fun y => y ≠ nd) s) * length u)),
            smoothed (edges_between self' u (filter (fun y => y ≠ nd) s))
              (Z.of_nat (length (filter (fun y => y ≠ nd) s) * length u))).
Proof.
  intros Hj. destruct moved_object as (Hwf' & Hk' & Hsame & Hutd' & Hrbg').
  pose proof Hwf as [_ (Hkeys & _)].
  assert ((1 <? length s) = true) as Hlt by (by apply Nat.ltb_lt).
  pose proof moved_NoDup as Hnodup. pose proof moved_size as Hsize.
  destruct (line_weights_count self Hrbg nd x i s Hx Hi) as [Hrow_i Hcol_i].
  unfold exclude_block.
  destruct (decide (j = i)) as [->|Hji].
  - exists (filter (fun y => y ≠ nd) s). split; [apply moved_group_i|].
    destruct (cached_block self i i s s Hkeys Hrbg Hutd Hi Hi) as (Hbw & _ & _).
    rewrite (group_size_Ok _ _ _ Hi), Hbw, Hrow_i, Hcol_i,
      (cell_weight_of self nd nd x x Hrbg Hx Hx).
    unfold mbind, result_bind. cbv beta iota. rewrite Hlt.
    apply exclude_block_tuple.
    + rewrite Nat2Z.inj_mul, Hsize. done.
    + rewrite (edges_between_same_graph self self' _ _ Hsame)
        by (apply moved_in_graph).
      rewrite edges_without_l, !edges_without_r, edges_single by done. lia.
    + rewrite (edges_between_same_graph self self' _ _ Hsame)
        by (apply moved_in_graph).
      rewrite edges_without_l, !edges_without_r, edges_single by done. lia.
  - destruct (decide (j = k self - 1)) as [->|Hjk].
    + exists (t ++ [nd]). split; [apply moved_group_newest|].
      destruct (cached_block self i _ s t Hkeys Hrbg Hutd Hi Ht) as (Hbw & _ & _).
      destruct (cached_block self _ i t s Hkeys Hrbg Hutd Ht Hi) as (Hbw' & _ & _).
      destruct (line_weights_count self Hrbg nd x _ t Hx Ht) as [Hrow_k Hcol_k].
      rewrite (group_size_Ok _ _ _ Hi), (group_size_Ok _ _ _ Ht), Hbw, Hbw',
        Hrow_i, Hcol_i, Hrow_k, Hcol_k.
      unfold mbind, result_bind. cbv beta iota. rewrite Hlt.
      assert (∀ a, a ∈ t ++ [nd] → a ∈ graph self) as Hin.
      { intros a [Ha|Ha]%elem_of_app;
          [by apply moved_newest_in_graph|by apply moved_single_in_graph]. }
      apply exclude_block_tuple.
      * rewrite Nat2Z.inj_mul, Hsize, length_app. simpl. lia.
      * rewrite (edges_between_same_graph self self' _ _ Hsame)
          by (apply moved_in_graph || apply Hin).
        rewrite edges_app_r, !edges_without_l, edges_single by done. lia.
      * rewrite (edges_between_same_graph self self' _ _ Hsame)
          by (apply moved_in_graph || apply Hin).
        rewrite edges_app_l, !edges_without_r, edges_single by done. lia.
    + destruct (lookup_lt_is_Some_2 (map_g_n self) j) as [u Hu]; [lia|].
      exists u. split; [by rewrite moved_group_other|].
      pose proof (Hother j u Hji Hjk Hu) as Hne.
      assert ((0 <? length u) = true) as Hpos.
      { apply Nat.ltb_lt. destruct u; [done|simpl; lia]. }
      destruct (cached_block self i j s u Hkeys Hrbg Hutd Hi Hu) as (Hbw & _ & _).
      destruct (cached_block self j i u s Hkeys Hrbg Hutd Hu Hi) as (Hbw' & _ & _).
      destruct (line_weights_count self Hrbg nd x j u Hx Hu) as [Hrow_j Hcol_j].
      rewrite (group_size_Ok _ _ _ Hi), (group_size_Ok _ _ _ Hu), Hbw, Hbw',
        Hrow_j, Hcol_j.
      unfold mbind, result_bind. cbv beta iota. rewrite Hlt. cbv beta iota.
      rewrite Hpos. cbv beta iota. simpl andb. cbv beta iota.
      assert (∀ a, a ∈ u → a ∈ graph self) as Hin.
      { intros a Ha. exact (group_in_graph self j u a Hwf Hu Ha). }
      apply exclude_block_tuple.
      * rewrite Nat2Z.inj_mul, Hsize. done.
      * rewrite (edges_between_same_graph self self' _ _ Hsame)
          by (apply moved_in_graph || apply Hin).
        rewrite edges_without_l by done. done.
      * rewrite (edges_between_same_graph self self' _ _ Hsame)
          by (apply moved_in_graph || apply Hin).
        rewrite edges_without_r by done. done.
Qed.
(** A round of the loop adds the code costs of the two blocks after the
    move, and fails where they fail. *)
Lemma exclude_step_exact j acc :
  j < k self →
  exclude_step self i x (Ok acc) j
  = (c ← (c1 ← block_code_cost self' i j; c2 ← block_code_cost self' j i; Ok (c1 + c2)%R);
     Ok (acc + c)%R).
Proof.
  intros Hj. destruct moved_object as (Hwf' & Hk' & Hsame & Hutd' & Hrbg').
  pose proof Hwf' as [_ (Hkeys' & _)].
  destruct (exclude_block_exact j Hj) as (u & Hu & Hb).
  unfold exclude_step. rewrite Hb.
  rewrite (block_code_cost_cached self' i j _ u Hkeys' Hrbg' Hutd' moved_group_i Hu).
  rewrite (block_code_cost_cached self' j i u _ Hkeys' Hrbg' Hutd' Hu moved_group_i).
  rewrite (Nat.mul_comm (length u)).
  unfold mbind, result_bind. cbv beta iota zeta.
  destruct (log2 (smoothed (edges_between self' (filter _ s) u) _)) as [l1|]; [|done].
  destruct (log2 (1 - smoothed (edges_between self' (filter _ s) u) _)%Q) as [l2|]; [|done].
  destruct (log2 (smoothed (edges_between self' u (filter _ s)) _)) as [l3|]; [|done].
  destruct (log2 (1 - smoothed (edges_between self' u (filter _ s)) _)%Q) as [l4|]; [|done].
  f_equal. lra.
Qed.

Lemma exclude_fold_exact l : ∀ acc,
  (∀ j, j ∈ l → j < k self) →
  fold_left (exclude_step self i x) l (Ok acc)
  = (cs ← mapM (fun g => c1 ← block_code_cost self' i g;
                         c2 ← block_code_cost self' g i;
                         Ok (c1 + c2)%R) l;
     Ok (acc + Rsum cs)%R).
Proof.
  induction l as [|j l IH]; intros acc Hl.
  - rewrite mapM_nil. unfold mbind, result_bind, Rsum. simpl. f_equal. lra.
  - change (fold_left (exclude_step self i x) (j :: l) (Ok acc))
      with (fold_left (exclude_step self i x) l (exclude_step self i x (Ok acc) j)).
    rewrite exclude_step_exact by (apply Hl; left). rewrite mapM_cons.
    destruct (c1 ← block_code_cost self' i j; c2 ← block_code_cost self' j i; Ok (c1 + c2)%R)
      as [c|e].
    + unfold mbind at 1 3. unfold result_bind at 1 3. cbv beta iota.
      rewrite IH by (intros j' Hj'; apply Hl; by right).
      destruct (mapM _ l) as [cs|e]; [|done].
      unfold mbind, result_bind. cbv beta iota. f_equal. rewrite Rsum_cons. lra.
    + unfold mbind at 1 2. unfold result_bind at 1 2. cbv beta iota.
      by rewrite fold_left_Raise.
Qed.

Lemma exclude_exact :
  group_entropy_per_node_exclude self i nd = group_entropy_per_node self' i.
Proof.
  destruct moved_object as (Hwf' & Hk' & Hsame & Hutd' & Hrbg').
  pose proof moved_size as Hsize.
  rewrite exclude_unfold, (group_size_Ok _ _ _ Hi), Hx.
  unfold mbind at 1 2 3. unfold result_bind at 1 2 3. cbv beta iota.
  rewrite !decide_False by lia. cbn [of_option].
  rewrite exclude_fold_exact.
  2:{ intros j Hj. unfold groups in Hj. apply elem_of_seq in Hj. lia. }
  unfold group_entropy_per_node. rewrite (group_size_Ok _ _ _ moved_group_i).
  unfold groups. rewrite Hk'.
  destruct (mapM _ (seq 0 (k self))) as [cs|e];
    unfold mbind, result_bind, fmap, result_fmap; cbv beta iota;
    rewrite decide_False by lia; [|done].
  f_equal. rewrite INR_IZR_INZ, Hsize. unfold Rdiv. f_equal. lra.
Qed.

(** With entries 0 and 1 in the matrix both are defined. *)
Lemma moved_entropy_is_ok :
  binary (adj_matrix self) → is_ok (group_entropy_per_node self' i).
Proof.
  intros Hbin. destruct moved_object as (Hwf' & Hk' & Hsame & Hutd' & Hrbg').
  pose proof Hwf' as [Hrows' (Hkeys' & _)]. pose proof Hwf as [Hrows _].
  pose proof (same_graph_binary self self' Hrows Hrows' Hsame Hbin) as Hbin'.
  assert (i < k self') as Hik'.
  { rewrite <- Hkeys'. eapply lookup_lt_Some. apply moved_group_i. }
  assert (∀ a b, a < k self' → b < k self' → is_ok (block_code_cost self' a b)) as Hok.
  { intros a b Ha Hb.
    destruct (up_to_date_blocks self' a b Hkeys' Hbin' Hutd' Ha Hb)
      as (wt & n & Hw & Hn & Hp & Hb').
    by eapply block_code_cost_is_ok. }
  unfold group_entropy_per_node. rewrite (group_size_Ok _ _ _ moved_group_i).
  unfold mbind at 1. unfold result_bind at 1. cbv beta iota.
  destruct (decide _); [by eexists|].
  destruct (mapM_is_ok
    (fun g => c1 ← block_code_cost self' i g; c2 ← block_code_cost self' g i; Ok (c1 + c2)%R)
    (groups self')) as [cs ->]; [|by eexists].
  intros g Hg. unfold groups in Hg. apply elem_of_seq in Hg.
  destruct (Hok i g) as [c1 ->]; [lia..|]. destruct (Hok g i) as [c2 ->]; [lia..|].
  by eexists.
Qed.
End prediction.

Lemma log2_raises (p : Q) e : log2 p = Raise e → e = ValueError.
Proof. unfold log2. destruct (Qle_bool p 0); [|done]. by intros [= <-]. Qed.

Lemma node_row self j u nd :
  wf self → map_g_n self !! j = Some u → nd ∈ u → is_Some (map_n_r self !! nd).
Proof.
  intros Hwf Hj Hnd. pose proof Hwf as [(_ & _ & _ & Hdom & _) _].
  apply Hdom. by eapply group_in_graph.
Qed.

(** The prediction where another group is empty. *)
Section empty_group.
Variables (self : Autopart) (i x : nat) (nd : node) (s : list node).
Hypothesis Hwf : wf self.
Hypothesis Hrbg : rows_by_group self.
Hypothesis Hutd : up_to_date self.
Hypothesis Hi : map_g_n self !! i = Some s.
Hypothesis Hs : 1 < length s.
Hypothesis Hx : map_n_r self !! nd = Some x.

Lemma exclude_block_is_ok j : j < k self → is_ok (exclude_block self i x j).
Proof.
  intros Hj. pose proof Hwf as [_ (Hkeys & _)].
  destruct (lookup_lt_is_Some_2 (map_g_n self) j) as [u Hu]; [lia|].
  destruct (cached_block self i j s u Hkeys Hrbg Hutd Hi Hu) as (Hbw & _ & _).
  destruct (cached_block self j i u s Hkeys Hrbg Hutd Hu Hi) as (Hbw' & _ & _).
  destruct (cached_block self j j u u Hkeys Hrbg Hutd Hu Hu) as (Hbw'' & _ & _).
  destruct (line_weights_count self Hrbg nd x i s Hx Hi) as [Hrow_i Hcol_i].
  destruct (line_weights_count self Hrbg nd x j u Hx Hu) as [Hrow_j Hcol_j].
  unfold exclude_block.
  rewrite (group_size_Ok _ _ _ Hi), (group_size_Ok _ _ _ Hu), Hbw, Hbw', Hbw'',
    Hrow_i, Hcol_i, Hrow_j, Hcol_j, (cell_weight_of self nd nd x x Hrbg Hx Hx).
  unfold mbind, result_bind. cbv beta iota.
  destruct (decide (j = i)); [destruct (1 <? length s); by eexists|].
  destruct (decide (j = k self - 1)); [destruct (1 <? length s); by eexists|].
  destruct (1 <? length s); cbv beta iota; [|by eexists].
  destruct (0 <? length u); by eexists.
Qed.

Lemma exclude_step_raises j acc e :
  j < k self → exclude_step self i x (Ok acc) j = Raise e → e = ValueError.
Proof.
  intros Hj. unfold exclude_step. destruct (exclude_block_is_ok j Hj) as [v ->].
  destruct v as [[[[[n_rj n_jr] w_rj] w_jr] p_rj] p_jr].
  unfold mbind, result_bind. cbv beta iota.
  destruct (log2 p_rj) eqn:E1; [|intros [= <-]; by eapply log2_raises].
  destruct (log2 (1 - p_rj)%Q) eqn:E2; [|intros [= <-]; by eapply log2_raises].
  destruct (log2 p_jr) eqn:E3; [|intros [= <-]; by eapply log2_raises].
  destruct (log2 (1 - p_jr)%Q) eqn:E4; [|intros [= <-]; by eapply log2_raises].
  done.
Qed.

Lemma exclude_fold_raises l : ∀ acc e,
  (∀ j, j ∈ l → j < k self) →
  fold_left (exclude_step self i x) l (Ok acc) = Raise e → e = ValueError.
Proof.
  induction l as [|j l IH]; intros acc e Hl; [done|].
  change (fold_left (exclude_step self i x) (j :: l) (Ok acc))
    with (fold_left (exclude_step self i x) l (exclude_step self i x (Ok acc) j)).
  destruct (exclude_step self i x (Ok acc) j) as [r|e'] eqn:E.
  - apply IH. intros j' Hj'. apply Hl. by right.
  - rewrite fold_left_Raise by done. intros [= <-].
    eapply exclude_step_raises; [|done]. apply Hl. left.
Qed.

Lemma exclude_step_empty j acc :
  j ≠ i → j ≠ k self - 1 → map_g_n self !! j = Some [] →
  exclude_step self i x (Ok acc) j = Raise ValueError.
Proof.
  intros Hji Hjk Hj. unfold exclude_step, exclude_block.
  rewrite !decide_False by done.
  rewrite (group_size_Ok _ _ _ Hi), (group_size_Ok _ _ _ Hj).
  unfold mbind, result_bind. cbv beta iota.
  destruct (1 <? length s); reflexivity.
Qed.

Lemma exclude_raises_on_empty j :
  j ≠ i → j ≠ k self - 1 → map_g_n self !! j = Some [] →
  group_entropy_per_node_exclude self i nd = Raise ValueError.
Proof.
  intros Hji Hjk Hj. pose proof Hwf as [_ (Hkeys & _)].
  assert (j < k self) as Hlt by (rewrite <- Hkeys; by eapply lookup_lt_Some).
  rewrite exclude_unfold, (group_size_Ok _ _ _ Hi), Hx.
  unfold mbind at 1 2 3. unfold result_bind at 1 2 3. cbv beta iota.
  rewrite !decide_False by lia. cbn [of_option].
  assert (fold_left (exclude_step self i x) (groups self) (Ok 0%R) = Raise ValueError)
    as ->; [|done].
  unfold groups. replace (k self) with (j + S (k self - S j)) by lia.
  rewrite seq_app, fold_left_app. cbn [seq fold_left Nat.add].
  destruct (fold_left (exclude_step self i x) (seq 0 j) (Ok 0%R)) as [a|e] eqn:E.
  - rewrite exclude_step_empty by done. by apply fold_left_Raise.
  - apply exclude_fold_raises in E as ->.
    + match goal with
      | |- context [exclude_step self i x (Raise ?e) ?a] =>
          change (exclude_step self i x (Raise e) a) with (@Raise R e)
      end.
      by apply fold_left_Raise.
    + intros j' Hj'. apply elem_of_seq in Hj'. lia.
Qed.
End empty_group.

(** ** The cost of shifting a node *)

Lemma weight_of_binary self a b :
  binary (adj_matrix self) → (0 <= weight_of self a b <= 1)%Z.
Proof.
  intros Hb. unfold weight_of, adjacency.
  destruct (map_n_r self !! a) as [r1|]; simpl; [|lia].
  destruct (map_n_r self !! b) as [r2|]; simpl; [|lia].
  unfold cell. destruct (adj_matrix self !! r1) as [row|] eqn:E1; simpl; [|lia].
  destruct (row !! r2) as [v|] eqn:E2; simpl; [|lia].
  pose proof (Forall_lookup_1 _ _ _ _ Hb E1) as Hrow.
  exact (Forall_lookup_1 _ _ _ _ Hrow E2).
Qed.

Lemma Zsum_fmap_bounds {A} (f : A → Z) (l : list A) :
  (∀ a, 0 <= f a <= 1)%Z → (0 <= Zsum (f <$> l) <= Z.of_nat (length l))%Z.
Proof.
  intros Hf. induction l as [|a l IH]; [done|].
  rewrite fmap_cons, Zsum_cons. pose proof (Hf a). simpl length. lia.
Qed.

(** Between a node and a group there are at most as many edges as the
    group has nodes. *)
Lemma line_weights_bounds self a x j t rw cw :
  rows_by_group self → binary (adj_matrix self) →
  map_n_r self !! a = Some x → map_g_n self !! j = Some t →
  row_weight self x j = Ok rw → col_weight self x j = Ok cw →
  (0 <= rw <= Z.of_nat (length t))%Z ∧ (0 <= cw <= Z.of_nat (length t))%Z.
Proof.
  intros Hrbg Hb Hx Hj.
  destruct (line_weights_count self Hrbg a x j t Hx Hj) as [-> ->].
  intros [= <-] [= <-]. rewrite edges_single_l, edges_single_r. split.
  - apply Zsum_fmap_bounds. intros b. by apply weight_of_binary.
  - apply (Zsum_fmap_bounds (fun a' => weight_of self a' a)). intros b.
    by apply weight_of_binary.
Qed.

Lemma rearrange_cost_unfold self nd next_group :
  rearrange_cost self nd next_group
  = (g ← of_option KeyError (map_n_g self !! nd);
     x ← of_option KeyError (map_n_r self !! nd);
     fold_left (rearrange_step self next_group x) (groups self) (Ok 0%R)).
Proof. reflexivity. Qed.

Lemma density_logs (wt n : Z) :
  (0 <= wt <= n)%Z →
  ∃ l1 l2, log2 (smoothed wt n) = Ok l1 ∧ log2 (1 - smoothed wt n)%Q = Ok l2
         ∧ (l1 < 0)%R ∧ (l2 < 0)%R.
Proof.
  intros Hb. destruct (smoothed_bounds wt n Hb) as [H0 H1].
  destruct (log2_is_ok _ H0) as [l1 Hl1].
  destruct (log2_is_ok (1 - smoothed wt n)) as [l2 Hl2].
  { clear -H1. destruct (smoothed wt n) as [a b].
    unfold Qlt, Qminus, Qplus, Qopp in *. simpl in *. lia. }
  exists l1, l2. split; [done|]. split; [done|]. split.
  - by eapply log2_negative.
  - eapply log2_negative; [done|]. clear -H0. destruct (smoothed wt n) as [a b].
    unfold Qlt, Qminus, Qplus, Qopp in *. simpl in *. lia.
Qed.

Section shifting.
Variables (self : Autopart) (i x : nat) (nd : node).
Hypothesis Hwf : wf self.
Hypothesis Hrbg : rows_by_group self.
Hypothesis Hutd : up_to_date self.
Hypothesis Hbin : binary (adj_matrix self).
Hypothesis Hx : map_n_r self !! nd = Some x.
Hypothesis Hi : i < k self.

Lemma rearrange_step_grows j acc :
  j < k self →
  ∃ c, rearrange_step self i x (Ok acc) j = Ok c ∧ (acc <= c)%R.
Proof.
  intros Hj. pose proof Hwf as [_ (Hkeys & _)].
  destruct (lookup_lt_is_Some_2 (map_g_n self) j) as [u Hu]; [lia|].
  destruct (line_weights_count self Hrbg nd x j u Hx Hu) as [Hrw Hcw].
  destruct (line_weights_bounds self nd x j u _ _ Hrbg Hbin Hx Hu Hrw Hcw)
    as [Hrb Hcb].
  destruct (up_to_date_blocks self i j Hkeys Hbin Hutd Hi Hj)
    as (w1 & n1 & _ & _ & Hp1 & Hb1).
  destruct (up_to_date_blocks self j i Hkeys Hbin Hutd Hj Hi)
    as (w2 & n2 & _ & _ & Hp2 & Hb2).
  destruct (density_logs w1 _ Hb1) as (l1 & l2 & Hl1 & Hl2 & Hn1 & Hn2).
  destruct (density_logs w2 _ Hb2) as (l3 & l4 & Hl3 & Hl4 & Hn3 & Hn4).
  unfold rearrange_step.
  rewrite Hrw, Hcw, Hp1, Hp2, (group_size_Ok _ _ _ Hu).
  unfold mbind, result_bind. cbv beta iota. rewrite Hl1, Hl2. cbv beta iota zeta.
  rewrite Hl3, Hl4. cbv beta iota.
  eexists. split; [reflexivity|].
  destruct Hrb as [Hr0 Hr1], Hcb as [Hc0 Hc1].
  apply IZR_le in Hr0, Hr1, Hc0, Hc1. rewrite !minus_IZR.
  set (r := IZR (edges_between self [nd] u)) in *.
  set (c := IZR (edges_between self u [nd])) in *.
  set (n := IZR (Z.of_nat (length u))) in *.
  nra.
Qed.

Lemma rearrange_fold_grows l : ∀ acc,
  (∀ j, j ∈ l → j < k self) →
  ∃ c, fold_left (rearrange_step self i x) l (Ok acc) = Ok c ∧ (acc <= c)%R.
Proof.
  induction l as [|j l IH]; intros acc Hl.
  - exists acc. split; [done|]. lra.
  - change (fold_left (rearrange_step self i x) (j :: l) (Ok acc))
      with (fold_left (rearrange_step self i x) l (rearrange_step self i x (Ok acc) j)).
    destruct (rearrange_step_grows j acc) as (c1 & -> & H1); [apply Hl; left|].
    destruct (IH c1) as (c & Hc & H2); [intros j' Hj'; apply Hl; by right|].
    exists c. split; [done|]. lra.
Qed.
End shifting.

(** [rearrange_cost] has a value, and it is not negative. *)
Lemma rearrange_cost_defined self nd g :
  wf self → rows_by_group self → up_to_date self → binary (adj_matrix self) →
  nd ∈ graph self → g < k self →
  ∃ c, rearrange_cost self nd g = Ok c ∧ (0 <= c)%R.
Proof.
  intros Hwf Hrbg Hutd Hbin Hnd Hg.
  pose proof Hwf as [(_ & _ & _ & Hdom & _) (_ & _ & _ & Hdom')].
  destruct (proj1 (Hdom nd) Hnd) as [x Hx]. destruct (proj1 (Hdom' nd) Hnd) as [g0 Hg0].
  rewrite rearrange_cost_unfold, Hg0, Hx. cbn [of_option].
  unfold mbind at 1 2. unfold result_bind at 1 2. cbv beta iota.
  apply (rearrange_fold_grows self g x nd Hwf Hrbg Hutd Hbin Hx Hg).
  intros j Hj. unfold groups in Hj. apply elem_of_seq in Hj. lia.
Qed.

(** * The properties of the specification *)

(** C1 (as amended): a round of the inner loop that is followed by another
    round lowered the total cost by at least [epsilon], and the next round
    starts from the total cost it ended with.  Nothing is promised of the
    last round. *)
Lemma inner_loop_decreases_until_last fuel : ∀ it wd i p c p' c',
  inner_loop_trace fuel it wd !! i = Some (p, c) →
  inner_loop_trace fuel it wd !! S i = Some (p', c') →
  p' = c ∧ (c <= p - epsilon)%R.
Proof.
  induction fuel as [|fuel IH]; intros it wd i p c p' c'; [done|].
  cbn [inner_loop_trace].
  destruct (inner_iteration it wd) as [[[prev cur]|] wd1] eqn:Hit; [|done].
  destruct (Rlt_dec (prev - cur) epsilon) as [Hlt|Hge].
  - destruct i; done.
  - destruct i as [|i].
    + cbn. intros [= <- <-] Hnext.
      split; [|lra].
      destruct fuel as [|fuel]; [done|]. cbn [inner_loop_trace] in Hnext.
      destruct (emit_spec DEBUG (Debug_iteration_inner (S it)) wd1) as [out Hout].
      unfold logging_debug in Hnext. rewrite Hout in Hnext. cbn [snd] in Hnext.
      destruct (inner_iteration (S it) _) as [[[prev2 cur2]|] wd2] eqn:Hit2; [|done].
      cbn in Hnext. injection Hnext as <- <-.
      apply inner_iteration_costs in Hit as [_ Hc], Hit2 as [Hp _].
      cbn [obj] in Hp. congruence.
    + cbn. apply IH.
Qed.

(** The inner loop of the first outer round on [lone_loop] makes two
    rounds. *)
Lemma inner_loop_decreases_until_last_witness :
  ∃ wd p c p' c',
    inner_loop_trace 3 0 wd !! 0 = Some (p, c)
    ∧ inner_loop_trace 3 0 wd !! 1 = Some (p', c')
    ∧ p' = c ∧ (c <= p - epsilon)%R.
Proof.
  destruct lone_loop_trace as (prev0 & wd & p & c & c' & _ & Htr).
  exists wd, p, c, c, c'.
  assert (inner_loop_trace 3 0 wd !! 0 = Some (p, c)) as H0 by (rewrite Htr; reflexivity).
  assert (inner_loop_trace 3 0 wd !! 1 = Some (c, c')) as H1 by (rewrite Htr; reflexivity).
  split; [exact H0|]. split; [exact H1|].
  exact (inner_loop_decreases_until_last 3 0 wd 0 p c c c' H0 H1).
Defined.

(** C1 as stated does not hold: on [two_sources] the first round of the
    inner loop of the construction takes the total cost from below 15 to
    above 15. *)
Lemma inner_iteration_raises_total_cost :
  ∃ prev0 wd prev cur wd',
    initial_object two_sources = (Ok tt, two_sources_start)
    ∧ split_phase 0 (mkWorld two_sources_start ERROR []) = (Ok prev0, wd)
    ∧ group_sizes (obj wd) = [0; 3]
    ∧ inner_iteration 0 wd = (Ok (prev, cur), wd')
    ∧ group_sizes (obj wd') = [2; 1]
    ∧ (prev < 15)%R ∧ (15 < cur)%R.
Proof.
  set (wd0 := mkWorld two_sources_start ERROR []).
  assert (∃ prev0, total_cost (obj wd0) = Ok prev0) as [prev0 Hprev0].
  { eexists. eval_model. reflexivity. }
  assert (max_entropy_group (obj wd0) = Ok 0) as Hmax by (eval_model; reflexivity).
  assert (_add_new_group (obj wd0) = (Ok tt, two_sources_added)) as Hadd
    by (vm_compute; reflexivity).
  destruct (split_phase_eval 0 wd0 prev0 0 two_sources_added [0; 1; 2] two_sources_split)
    as [out Hsplit]; try done.
  { apply two_sources_seed. }
  set (st := set_step (step two_sources_split + 1) two_sources_split) in *.
  set (wd := mkWorld st (log_level wd0) out) in *.
  edestruct (inner_iteration_eval 0 wd) as [out' Hit].
  { eval_model. settle. reflexivity. }
  { eval_cost. reflexivity. }
  { vm_compute. reflexivity. }
  { reflexivity. }
  { eval_cost. reflexivity. }
  exists prev0, wd. eexists _, _, _.
  split; [vm_compute; reflexivity|]. split; [exact Hsplit|].
  split; [reflexivity|]. split; [exact Hit|]. split; [reflexivity|].
  split; loglin.
Qed.

(** C2: with a self-loop on the node the prediction of
    [group_entropy_per_node_exclude] is not what [group_entropy_per_node]
    reports once the node has been moved.  On [loop_triangle] the prediction
    is below the current entropy and the entropy after the move is above it;
    on [loop_edge] the prediction raises [ValueError], since it counts two
    edges in a block of one cell, where the move leaves one. *)
Theorem exclude_prediction_with_self_loop :
  (∃ predicted current actual,
     (_add_new_group (initial_object loop_triangle).2).2 = loop_triangle_added
     ∧ group_entropy_per_node_exclude loop_triangle_added 0 0 = Ok predicted
     ∧ group_entropy_per_node loop_triangle_added 0 = Ok current
     ∧ _move_node_to_new_group 0 loop_triangle_added = (Ok tt, loop_triangle_moved)
     ∧ group_entropy_per_node loop_triangle_moved 0 = Ok actual
     ∧ (predicted < current)%R ∧ (current < actual)%R)
  ∧ (group_entropy_per_node_exclude loop_edge_added 0 0 = Raise ValueError
     ∧ exclude_block loop_edge_added 0 0 1 = Ok (1%Z, 1%Z, 2%Z, 2%Z, (5 # 4)%Q, (5 # 4)%Q)
     ∧ _move_node_to_new_group 0 loop_edge_added = (Ok tt, loop_edge_moved)
     ∧ block_weight loop_edge_moved 0 1 = Ok 1%Z
     ∧ block_size loop_edge_moved 0 1 = Ok 1
     ∧ is_ok (group_entropy_per_node loop_edge_moved 0)).
Proof.
  split.
  - eexists _, _, _. split; [vm_compute; reflexivity|].
    split; [eval_model; reflexivity|].
    split; [eval_model; reflexivity|].
    split; [vm_compute; reflexivity|].
    split; [eval_model; reflexivity|].
    split; loglin.
  - split; [eval_model; reflexivity|].
    split; [vm_compute; reflexivity|].
    split; [vm_compute; reflexivity|].
    split; [vm_compute; reflexivity|].
    split; [vm_compute; reflexivity|].
    eexists. eval_model. reflexivity.
Qed.

(** C3: on the graph with one node and no edge the construction ends with
    a [ValueError], in the first round of the inner loop and before either
    stop condition is tested, with the groups of sizes 0 and 1. *)
Theorem single_node_run_raises (fuel : nat) (level : Z) :
  ∃ wd, __init__ (S (S fuel)) single_node level = Some (Raise ValueError, wd)
        ∧ group_sizes (obj wd) = [0; 1].
Proof.
  unfold __init__.
  assert (initial_object single_node = (Ok tt, single_node_start)) as -> by (vm_compute; reflexivity).
  unfold _run. cbn [run_from].
  set (wd := mkWorld single_node_start level []).
  assert (∃ prev, total_cost (obj wd) = Ok prev) as [prev Hprev].
  { eexists. eval_model. reflexivity. }
  assert (max_entropy_group (obj wd) = Ok 0) as Hmax.
  { eval_model. reflexivity. }
  assert (_add_new_group (obj wd) = (Ok tt, single_node_added)) as Hadd.
  { vm_compute. reflexivity. }
  assert (seed_split 0 [0] single_node_added = (Ok tt, single_node_split)) as Hseed.
  { erewrite seed_split_moves.
    - reflexivity.
    - eval_model. reflexivity.
    - eval_model. reflexivity.
    - loglin.
    - vm_compute. reflexivity. }
  destruct (split_phase_eval 0 wd prev 0 single_node_added [0] single_node_split)
    as [out ->]; try done.
  unfold _inner_loop. cbn [inner_loop_from].
  match goal with |- context [inner_iteration 0 ?w] => set (wd1 := w) end.
  assert (∃ r, assignment (obj wd1) (nodes (obj wd1)) ∅ (replicate (k (obj wd1)) []) = Ok r)
    as [r Hass].
  { eval_model. destruct (Rlt_dec _ _); eexists; reflexivity. }
  assert (total_cost (obj wd1) = Raise ValueError) as Hcost.
  { eval_model. reflexivity. }
  destruct (inner_iteration_raises 0 wd1 r ValueError Hass Hcost) as [out1 ->].
  eexists. split; [reflexivity|]. reflexivity.
Qed.

(** C4: the construction on [single_edge] returns with block (1, 1) of
    weight one and cached density 3/10; [outlier_score 1 1] on that object
    stores the density 0 in the cache and raises [ValueError], leaving the
    0 there. *)
Theorem outlier_score_zero_density (level : Z) :
  ∃ wd self',
    __init__ 2 single_edge level = Some (Ok tt, wd)
    ∧ clusters (obj wd) = [[]; [0; 1]]
    ∧ table_get (w (obj wd)) 1 1 = Ok 1%Z
    ∧ table_get (P (obj wd)) 1 1 = Ok (3 # 10)%Q
    ∧ outlier_score 1 1 (obj wd) = (Raise ValueError, self')
    ∧ table_get (P self') 1 1 = Ok (0 # 4)%Q
    ∧ ¬ (0 < 0 # 4)%Q.
Proof.
  destruct (single_edge_run level) as (wd & Hrun & Hobj).
  exists wd. rewrite Hobj. eexists. split; [exact Hrun|].
  split; [reflexivity|]. split; [reflexivity|]. split; [reflexivity|].
  split; [eval_model; reflexivity|]. split; [reflexivity|].
  intros H. discriminate H.
Qed.

(** C5: the constructor leaves a partition of the nodes; adding a group,
    moving a node to the newest group and a round of the inner loop keep it
    one; and in a partition every node is in exactly one group and the group
    sizes add up to the number of nodes. *)
Theorem partition_invariant :
  (∀ gr, square gr →
     ∃ self, initial_object gr = (Ok tt, self) ∧ wf self)
  ∧ (∀ self, wf self → ∃ self', _add_new_group self = (Ok tt, self') ∧ wf self')
  ∧ (∀ self nd, wf self → nd ∈ graph self →
       ∃ self', _move_node_to_new_group nd self = (Ok tt, self') ∧ wf self'
                ∧ map_n_g self' !! nd = Some (k self - 1))
  ∧ (∀ it wd prev cur wd',
       wf (obj wd) → inner_iteration it wd = (Ok (prev, cur), wd') → wf (obj wd'))
  ∧ (∀ self, wf self → exactly_one_group self ∧ sizes_add_up self).
Proof.
  split; [|split; [|split; [|split]]].
  - intros gr Hsq. destruct (initial_object_wf gr Hsq) as (self & ? & ? & _). eauto.
  - intros self Hwf. destruct (add_new_group_wf self Hwf) as (self' & ? & ? & _). eauto.
  - intros self nd Hwf Hin.
    destruct (move_node_wf self nd Hwf Hin) as (self' & ? & ? & _ & ? & _). eauto.
  - intros it wd prev cur wd'. apply inner_iteration_wf.
  - apply wf_exactly_one.
Qed.

(** The invariant on the initial object of [single_edge]. *)
Lemma partition_invariant_witness :
  ∃ self, initial_object single_edge = (Ok tt, self)
          ∧ exactly_one_group self ∧ sizes_add_up self.
Proof.
  destruct (proj1 partition_invariant single_edge single_edge_square) as (self & Hinit & Hwf).
  exists self. split; [exact Hinit|].
  exact (proj2 (proj2 (proj2 (proj2 partition_invariant))) self Hwf).
Defined.

(** C6 (as amended): a partition whose sizes do not add up to the number
    of entries of the node-to-group map is rejected with the object
    untouched; a partition that is accepted covers every node exactly once;
    and one that does not is rejected with the three mappings untouched.
    Nothing is promised of the adjacency matrix of a rejected partition. *)
Theorem rearrange_validation (g_n : list (list node)) (n_g : gmap node nat)
    (self : Autopart) :
  (size n_g ≠ nsum (length <$> g_n) →
     _rearrange_matrix_and_mappings g_n n_g self = (Raise AssertionError, self))
  ∧ (rows_ok self →
     ∀ self', _rearrange_matrix_and_mappings g_n n_g self = (Ok tt, self') →
       concat g_n ≡ₚ graph self ∧ map_g_n self' = g_n)
  ∧ (rows_ok self → ¬ concat g_n ≡ₚ graph self →
     ∃ e self', _rearrange_matrix_and_mappings g_n n_g self = (Raise e, self')
                ∧ map_g_n self' = map_g_n self ∧ map_n_g self' = map_n_g self
                ∧ map_n_r self' = map_n_r self).
Proof.
  split; [|split].
  - intros Hne. rewrite rearrange_unfold. by rewrite bool_decide_eq_false_2.
  - intros Hrows self' Hrun. split; [by eapply rearrange_Ok_covers|].
    rewrite rearrange_unfold in Hrun.
    repeat (case_bool_decide || case_match || done).
    match goal with H : _recalculate_block_properties _ = _ |- _ =>
      apply recalculate_inv in H as (w' & P' & _ & _ & ->) end. done.
  - intros Hrows Hnot. rewrite rearrange_unfold.
    case_bool_decide as Hcount; [|by eexists _, _].
    destruct (order_row_of self g_n) as [order_row|] eqn:Eo; [|by eexists _, _].
    destruct (switch get_row _ _ _ _ _ _) as [[used|] a1] eqn:Es; [|by eexists _, _].
    case_bool_decide as Hused; [|by eexists _, _].
    exfalso. apply Hnot. by eapply row_pass_covers.
Qed.

(** A node-to-group map with too few entries, and a partition that names
    a node twice. *)
Lemma rearrange_validation_witness :
  _rearrange_matrix_and_mappings [[0]; [1]] {[0 := 0]} single_edge_start
  = (Raise AssertionError, single_edge_start)
  ∧ ∃ e self',
      _rearrange_matrix_and_mappings [[0]; [0]] {[0 := 0; 1 := 1]} single_edge_start
      = (Raise e, self')
      ∧ map_g_n self' = map_g_n single_edge_start
      ∧ map_n_g self' = map_n_g single_edge_start
      ∧ map_n_r self' = map_n_r single_edge_start.
Proof.
  split.
  - apply (proj1 (rearrange_validation [[0]; [1]] {[0 := 0]} single_edge_start)).
    vm_compute. discriminate.
  - apply (proj2 (proj2 (rearrange_validation [[0]; [0]] {[0 := 0; 1 := 1]}
                           single_edge_start))).
    + exact single_edge_start_rows_ok.
    + intros Hperm. assert (1 ∈ concat [[0]; [0]]) as Hin.
      { rewrite Hperm. cbn. set_solver. }
      cbn in Hin. set_solver.
Defined.

(** C6 as stated does not hold: a partition that names node 0 twice and
    node 1 never passes the count check, and is rejected only after the rows
    of the matrix have been moved. *)
Lemma rearrange_modifies_before_rejecting :
  ∃ self',
    _rearrange_matrix_and_mappings [[0]; [0]] {[0 := 0; 1 := 1]} single_edge_start
    = (Raise AssertionError, self')
    ∧ adj_matrix single_edge_start = [[0; 1]; [0; 0]]%Z
    ∧ adj_matrix self' = [[0; 1]; [0; 1]]%Z.
Proof. eexists. split; [vm_compute; reflexivity|]. split; reflexivity. Qed.

(** C7: [description_cost_group_sizes] is 0 when k = 1, and otherwise the
    sum over g = 0 .. k-2 of ceil(log2(1 - k + g + the sum of the sizes,
    sorted in descending order, from position g to k-1)); where one of the
    logarithms has no value, both sides raise the same error. *)
Theorem description_cost_group_sizes_refines (self : Autopart) :
  length (map_g_n self) = k self →
  (k self = 1 → description_cost_group_sizes self = Ok 0%Z)
  ∧ description_cost_group_sizes self
    = spec_description_cost_group_sizes (k self) (group_sizes self).
Proof.
  intros Hlen. split; [|by apply description_cost_group_sizes_eq].
  intros Hk. unfold description_cost_group_sizes. by rewrite decide_True.
Qed.

(** Groups of sizes 3, 1 and 2: the terms are ceil(log2 4) and
    ceil(log2 2). *)
Lemma description_cost_group_sizes_refines_witness :
  description_cost_group_sizes st_three_groups
  = spec_description_cost_group_sizes 3 [3; 1; 2]
  ∧ spec_description_cost_group_sizes 3 [3; 1; 2] = Ok 3%Z.
Proof.
  split; [|vm_compute; reflexivity].
  exact (proj2 (description_cost_group_sizes_refines st_three_groups eq_refl)).
Defined.

(** C8 (as amended): [outlier_score] returns 0 and changes nothing when the
    block has weight 0; whenever it returns, the object is the one it was
    given, and the value is the total cost minus the total cost of the
    object with only the cached weight and density of the block changed.
    When it raises, nothing but the two cache entries of the block has
    changed: an exception that comes before the decrement (a missing cache
    entry, the first total cost) leaves the object as it was, and one that
    comes after it leaves the decremented weight in the cache, with the
    density as it was when the block size raises or is 0, and with the
    what-if density when the second total cost raises. *)
Theorem outlier_score_restores (i j : nat) (self : Autopart) :
  (table_get (w self) i j = Ok 0%Z → outlier_score i j self = (Ok 0%R, self))
  ∧ (∀ v self', outlier_score i j self = (Ok v, self') →
       self' = self
       ∧ ∃ wt,
           table_get (w self) i j = Ok wt
           ∧ (wt = 0%Z ∧ v = 0%R
              ∨ wt ≠ 0%Z
                ∧ ∃ n cost cost',
                    let mid := what_if self i j (wt - 1)
                                 (inject_Z (wt - 1) / inject_Z (Z.of_nat n))%Q in
                    block_size self i j = Ok n ∧ n ≠ 0
                    ∧ total_cost self = Ok cost ∧ total_cost mid = Ok cost'
                    ∧ v = (cost - cost')%R
                    ∧ graph mid = graph self ∧ adj_matrix mid = adj_matrix self
                    ∧ k mid = k self ∧ map_g_n mid = map_g_n self
                    ∧ map_n_g mid = map_n_g self ∧ map_n_r mid = map_n_r self
                    ∧ step mid = step self
                    ∧ ∀ i' j', (i', j') ≠ (i, j) →
                        table_get (w mid) i' j' = table_get (w self) i' j'
                        ∧ table_get (P mid) i' j' = table_get (P self) i' j'))
  ∧ (∀ e self', outlier_score i j self = (Raise e, self') →
       only_block_changed self self' i j
       ∧ (self' = self
            ∧ (table_get (w self) i j = Raise e
               ∨ table_get (P self) i j = Raise e
               ∨ total_cost self = Raise e)
          ∨ ∃ wt, table_get (w self) i j = Ok wt ∧ wt ≠ 0%Z
              ∧ is_ok (table_get (P self) i j) ∧ is_ok (total_cost self)
              ∧ table_get (w self') i j = Ok (wt - 1)%Z
              ∧ (P self' = P self
                   ∧ self' = set_w (poke (w self) i j (wt - 1)%Z) self
                   ∧ (block_size self i j = Raise e
                      ∨ block_size self i j = Ok 0 ∧ e = ZeroDivisionError)
                 ∨ ∃ n, block_size self i j = Ok n ∧ n ≠ 0
                     ∧ self' = what_if self i j (wt - 1)
                                 (inject_Z (wt - 1) / inject_Z (Z.of_nat n))%Q
                     ∧ table_get (P self') i j
                       = Ok (inject_Z (wt - 1) / inject_Z (Z.of_nat n))%Q
                     ∧ total_cost self' = Raise e)))
  ∧ (∀ wt e, table_get (w self) i j = Ok wt → wt ≠ 0%Z →
       is_ok (table_get (P self) i j) → total_cost self = Raise e →
       outlier_score i j self = (Raise e, self))
  ∧ (∀ wt n e, table_get (w self) i j = Ok wt → wt ≠ 0%Z →
       is_ok (table_get (P self) i j) → is_ok (total_cost self) →
       block_size self i j = Ok n → n ≠ 0 →
       let mid := what_if self i j (wt - 1)
                    (inject_Z (wt - 1) / inject_Z (Z.of_nat n))%Q in
       total_cost mid = Raise e → outlier_score i j self = (Raise e, mid)).
Proof.
  split; [|split; [|split; [|split]]].
  - intros H0. unfold outlier_score, mbind, M_bind, reading. rewrite H0. done.
  - intros v self' Hrun.
    unfold outlier_score, mbind, M_bind, reading, modify, mret, M_ret in Hrun.
    destruct (table_get (w self) i j) as [wt|e] eqn:Ew; [|done].
    destruct (Z.eqb_spec wt 0) as [->|Hwt].
    + injection Hrun as <- <-. split; [done|]. exists 0%Z. split; [done|]. by left.
    + cbn beta iota in Hrun. rewrite ?Ew in Hrun. cbn beta iota in Hrun.
      destruct (table_get (P self) i j) as [p|e] eqn:Ep;
        cbn beta iota in Hrun; [|discriminate Hrun].
      destruct (total_cost self) as [cost|e] eqn:Ec;
        cbn beta iota in Hrun; [|discriminate Hrun].
      rewrite ?Ew in Hrun. cbn beta iota in Hrun.
      destruct (table_set (w self) i j (wt - 1)%Z) as [w'|e] eqn:Ew';
        cbn beta iota in Hrun; [|discriminate Hrun].
      cbn [w set_w] in Hrun.
      rewrite (table_get_set _ _ _ _ _ Ew'), block_size_set_w in Hrun.
      cbn beta iota in Hrun.
      destruct (block_size self i j) as [n|e] eqn:En;
        cbn beta iota in Hrun; [|discriminate Hrun].
      destruct (decide (n = 0)) as [|Hn];
        cbn beta iota in Hrun; [discriminate Hrun|].
      cbn [P set_w set_P] in Hrun.
      destruct (table_set (P self) i j _) as [P'|e] eqn:EP';
        cbn beta iota in Hrun; [|discriminate Hrun].
      destruct (total_cost (set_P P' (set_w w' self))) as [cost'|e] eqn:Ec';
        cbn beta iota in Hrun; [|discriminate Hrun].
      cbn [w set_w set_P P] in Hrun.
      rewrite (table_set_restore _ _ _ _ _ _ Ew Ew') in Hrun.
      cbn beta iota in Hrun.
      rewrite (table_set_restore _ _ _ _ _ _ Ep EP') in Hrun.
      cbn beta iota in Hrun.
      injection Hrun as <- <-. split; [by destruct self|].
      exists wt. split; [done|]. right. split; [done|].
      exists n, cost, cost'.
      apply table_set_poke in Ew', EP'. subst w' P'.
      repeat split; try done.
      * apply table_get_poke_ne; done.
      * apply table_get_poke_ne; done.
  - intros e self'. apply outlier_score_raises.
  - intros wt e. apply outlier_score_fails_early.
  - intros wt n e. apply outlier_score_fails_late.
Qed.

(** A block of weight 0; the one block of the initial object of
    [two_cycle], of weight 2; and on [two_cycle_split] a call that raises
    in the second total cost, followed by a call on the other block, which
    raises in the first and changes nothing. *)
Lemma outlier_score_restores_witness :
  outlier_score 0 0 st_single_edge = (Ok 0%R, st_single_edge)
  ∧ (∃ v, outlier_score 0 0 two_cycle_start = (Ok v, two_cycle_start)
          ∧ table_get (w two_cycle_start) 0 0 = Ok 2%Z)
  ∧ ∃ e self',
      outlier_score 0 1 two_cycle_split = (Raise e, self')
      ∧ table_get (w self') 0 1 = Ok 0%Z
      ∧ table_get (w self') 1 0 = Ok 1%Z
      ∧ outlier_score 1 0 self' = (Raise e, self').
Proof.
  split; [|split].
  - exact (proj1 (outlier_score_restores 0 0 st_single_edge) eq_refl).
  - assert (∃ v self', outlier_score 0 0 two_cycle_start = (Ok v, self'))
      as (v & self' & Hrun).
    { eexists _, _. eval_model. reflexivity. }
    destruct (proj1 (proj2 (outlier_score_restores 0 0 two_cycle_start)) v self' Hrun)
      as [-> _].
    exists v. split; [exact Hrun | reflexivity].
  - destruct (outlier_score_restores 0 1 two_cycle_split) as (_ & _ & _ & _ & Hlate).
    assert (total_cost (what_if two_cycle_split 0 1 (1 - 1)
                          (inject_Z (1 - 1) / inject_Z (Z.of_nat 1))%Q)
            = Raise ValueError) as Hc.
    { eval_model. reflexivity. }
    pose proof (Hlate 1%Z 1 ValueError eq_refl) as Hrun.
    exists ValueError. eexists. split.
    + apply Hrun; [done| by eexists | | reflexivity | done | exact Hc].
      eexists. eval_model. reflexivity.
    + split; [reflexivity|]. split; [reflexivity|].
      destruct (outlier_score_restores 1 0
                  (what_if two_cycle_split 0 1 (1 - 1)
                     (inject_Z (1 - 1) / inject_Z (Z.of_nat 1))%Q))
        as (_ & _ & _ & Hearly & _).
      apply (Hearly 1%Z ValueError); [reflexivity|done|by eexists|exact Hc].
Defined.

(** C8 as stated does not hold: when the cost computation raises, the
    decremented weight and the density 0/4 stay in the cache. *)
Lemma outlier_score_not_restored :
  ∃ e self',
    outlier_score 1 1 st_single_edge = (Raise e, self')
    ∧ table_get (w st_single_edge) 1 1 = Ok 1%Z
    ∧ table_get (w self') 1 1 = Ok 0%Z
    ∧ table_get (P st_single_edge) 1 1 = Ok (3 # 10)%Q
    ∧ table_get (P self') 1 1 = Ok (0 # 4)%Q.
Proof.
  eexists _, _. split; [eval_model; reflexivity|].
  repeat split; reflexivity.
Qed.

(** C9: for k > 1, [description_cost_group_sizes] raises [ValueError]
    exactly when for some m with 2 <= m <= k the m smallest group sizes sum
    to less than m, and returns otherwise; [description_cost] and
    [total_cost] raise with it. *)
Theorem group_sizes_domain_error (self : Autopart) :
  length (map_g_n self) = k self → 1 < k self →
  (description_cost_group_sizes self = Raise ValueError
     ↔ too_small (k self) (group_sizes self))
  ∧ (is_ok (description_cost_group_sizes self)
     ↔ ¬ too_small (k self) (group_sizes self))
  ∧ (too_small (k self) (group_sizes self) →
     description_cost self = Raise ValueError ∧ total_cost self = Raise ValueError).
Proof.
  intros Hlen Hk. pose proof (group_sizes_cost_Raise self Hlen Hk) as HR.
  split; [done|]. split.
  - split.
    + intros [z Hz] Hs. apply HR in Hs. congruence.
    + intros Hn. destruct (description_cost_group_sizes self) as [z|e] eqn:E; [by eexists|].
      exfalso. apply Hn, HR. f_equal.
      rewrite description_cost_group_sizes_eq in E by done.
      unfold spec_description_cost_group_sizes in E.
      destruct (decide _); [done|].
      destruct (mapM _ _) as [zs|e'] eqn:E'; simpl in E; [done|].
      apply mapM_Raise_inv in E' as (g & _ & HR').
      unfold ceil_log2 in HR'. destruct (_ <=? _)%Z; simplify_eq. done.
  - intros Hs. apply HR in Hs.
    assert (description_cost self = Raise ValueError) as Hd.
    { unfold description_cost.
      destruct (log_star_is_ok (Z.of_nat (k self))) as [c ->]; [lia|]. simpl.
      by rewrite Hs. }
    split; [done|]. unfold total_cost. by rewrite Hd.
Qed.

(** An empty group and a group of one node. *)
Lemma group_sizes_domain_error_witness :
  description_cost_group_sizes st_empty_single = Raise ValueError
  ∧ total_cost st_empty_single = Raise ValueError.
Proof.
  destruct (group_sizes_domain_error st_empty_single) as (H1 & _ & H3).
  - reflexivity.
  - simpl. lia.
  - assert (too_small (k st_empty_single) (group_sizes st_empty_single)) as Hs.
    { exists 2. split; [simpl; lia|]. vm_compute. lia. }
    split; [by apply H1 | by apply H3].
Defined.

(** C10: two constructions on the same graph that differ in the logging
    level end alike: both return or both raise the same exception, with the
    same object, hence the same clusters and the same total cost. *)
Theorem verbosity_does_not_change_the_result (fuel : nat) (gr : Graph) (level1 level2 : Z) :
  outcome (__init__ fuel gr level1) = outcome (__init__ fuel gr level2)
  ∧ match __init__ fuel gr level1, __init__ fuel gr level2 with
    | Some (r1, wd1), Some (r2, wd2) => r1 = r2 ∧ obj wd1 = obj wd2
    | None, None => True
    | _, _ => False
    end.
Proof.
  unfold __init__.
  destruct (initial_object gr) as [[[]|e] self] eqn:Hinit; [|done].
  assert (keys_ok self) as Hk.
  { unfold initial_object in Hinit. apply recalculate_fields in Hinit as [Hg Hkk].
    unfold keys_ok. by rewrite Hg, Hkk. }
  pose proof (blind_run fuel 0 (mkWorld self level1 []) (mkWorld self level2 [])
                eq_refl Hk) as Hrun.
  unfold _run.
  destruct (run_from fuel 0 (mkWorld self level1 [])) as [[r1 wd1]|],
           (run_from fuel 0 (mkWorld self level2 [])) as [[r2 wd2]|]; try done.
  destruct Hrun as (-> & Ho & _). simpl. unfold clusters. by rewrite Ho.
Qed.

(** * Further properties of the code *)

Lemma single_edge_binary : binary (graph_adjacency single_edge).
Proof. repeat constructor; simpl; lia. Qed.

Lemma single_edge_start_fresh : up_to_date single_edge_start.
Proof. split; vm_compute; reflexivity. Qed.

Lemma single_edge_added_wf :
  ∃ self, _add_new_group single_edge_start = (Ok tt, self) ∧ wf self ∧ 0 ∈ graph self
          ∧ k self = 2.
Proof.
  destruct (initial_object_wf single_edge single_edge_square) as (self & Hinit & Hwf & Hk).
  assert (self = single_edge_start) as ->.
  { change single_edge_start with (initial_object single_edge).2. by rewrite Hinit. }
  destruct (add_new_group_wf single_edge_start Hwf) as (self' & Hadd & Hwf' & Hk' & _).
  exists self'. split; [done|]. split; [done|]. split; [|by rewrite Hk', Hk].
  destruct (add_new_group_same_graph _ _ _ Hadd) as [-> _]. set_solver.
Qed.

(** The construction ends on every graph with a 0/1 adjacency matrix: with
    enough fuel it returns or raises, and more fuel changes nothing. *)
Theorem construction_always_ends (gr : Graph) (level : Z) :
  square gr → binary (graph_adjacency gr) →
  ∃ fuel r wd, ∀ extra, __init__ (fuel + extra) gr level = Some (r, wd).
Proof.
  intros Hsq Hb. unfold __init__.
  destruct (initial_object_wf gr Hsq) as (self & Hinit & Hwf & _). rewrite Hinit.
  assert (adj_matrix self = graph_adjacency gr) as Hadj.
  { unfold initial_object in Hinit.
    apply recalculate_inv in Hinit as (w' & P' & _ & _ & ->). done. }
  destruct (run_returns self (proj1 Hwf)) with (it := 0%nat) (wd := mkWorld self level [])
    as (fuel & [r wd] & Hrun).
  { by rewrite Hadj. }
  { split; [done|]. split; [apply same_graph_refl|by eapply initial_object_fresh]. }
  exists fuel, r, wd. intros extra. unfold _run. by apply run_from_more.
Qed.

Lemma construction_always_ends_witness :
  ∃ fuel r wd, ∀ extra, __init__ (fuel + extra) single_edge ERROR = Some (r, wd).
Proof.
  exact (construction_always_ends single_edge ERROR single_edge_square single_edge_binary).
Defined.

(** Whatever way the construction ends, the object it leaves is a
    partition of the nodes of the graph it was given, every node in exactly
    one group, and its matrix, read through the rows of the nodes, is the
    adjacency matrix it was given. *)
Theorem construction_keeps_partition_and_graph fuel gr level r wd :
  square gr → __init__ fuel gr level = Some (r, wd) →
  wf (obj wd) ∧ exactly_one_group (obj wd) ∧ sizes_add_up (obj wd)
  ∧ graph (obj wd) = graph_nodes gr
  ∧ ∀ i j n1 n2, graph_nodes gr !! i = Some n1 → graph_nodes gr !! j = Some n2 →
      adjacency (obj wd) n1 n2 = input_cell gr i j.
Proof.
  intros Hsq. unfold __init__.
  destruct (initial_object_wf gr Hsq) as (self & Hinit & Hwf & _). rewrite Hinit.
  destruct (initial_object_adjacency gr self Hsq Hinit) as [Hg Hadj].
  intros Hrun. apply (run_stands_for self) in Hrun as (Hwf' & [Hg' Hsame] & _).
  - split; [done|]. destruct (wf_exactly_one _ Hwf') as [? ?].
    split; [done|]. split; [done|]. split; [congruence|]. intros i j n1 n2 Hi Hj.
    rewrite Hsame.
    + by apply Hadj.
    + rewrite Hg. by eapply list_elem_of_lookup_2.
    + rewrite Hg. by eapply list_elem_of_lookup_2.
  - split; [done|]. split; [apply same_graph_refl|by eapply initial_object_fresh].
Qed.

Lemma construction_keeps_partition_and_graph_witness :
  ∃ wd, __init__ 2 single_edge ERROR = Some (Ok tt, wd)
        ∧ sizes_add_up (obj wd)
        ∧ adjacency (obj wd) 0 1 = input_cell single_edge 0 1.
Proof.
  destruct (single_edge_run ERROR) as (wd & Hrun & _). exists wd.
  destruct (construction_keeps_partition_and_graph 2 single_edge ERROR (Ok tt) wd
              single_edge_square Hrun) as (_ & _ & Hsizes & _ & Hadj).
  split; [exact Hrun|]. split; [exact Hsizes|]. by apply Hadj.
Defined.

(** A rearrangement keeps the graph: the matrix entry for a pair of nodes,
    read through the rows of the nodes, is the same before and after. *)
Theorem rearrange_keeps_adjacency g_n n_g self self' n1 n2 :
  rows_ok self →
  _rearrange_matrix_and_mappings g_n n_g self = (Ok tt, self') →
  n1 ∈ graph self → n2 ∈ graph self →
  graph self' = graph self
  ∧ map_n_r self' = enumerate_map (concat g_n)
  ∧ adjacency self' n1 n2 = adjacency self n1 n2
  ∧ is_ok (adjacency self n1 n2).
Proof.
  intros Hrows Hrun H1 H2.
  destruct (rearrange_same_graph _ _ _ _ Hrows Hrun) as [Hg _].
  destruct (rearrange_map_n_g _ _ _ _ Hrun) as (_ & _ & Hr).
  destruct (rearrange_adjacency _ _ _ _ n1 n2 Hrows Hrun H1 H2) as [? ?]. done.
Qed.

Lemma rearrange_keeps_adjacency_witness :
  ∃ self',
    _rearrange_matrix_and_mappings [[1; 0]] {[0 := 0; 1 := 0]} single_edge_start
    = (Ok tt, self')
    ∧ adj_matrix single_edge_start = [[0; 1]; [0; 0]]%Z
    ∧ adj_matrix self' = [[0; 0]; [1; 0]]%Z
    ∧ adjacency self' 0 1 = adjacency single_edge_start 0 1.
Proof.
  assert (∃ self',
    _rearrange_matrix_and_mappings [[1; 0]] {[0 := 0; 1 := 0]} single_edge_start
    = (Ok tt, self') ∧ adj_matrix self' = [[0; 0]; [1; 0]]%Z) as (self' & Hrun & Hadj).
  { eexists. split; [vm_compute; reflexivity|reflexivity]. }
  exists self'. split; [exact Hrun|]. split; [reflexivity|]. split; [exact Hadj|].
  apply (rearrange_keeps_adjacency [[1; 0]] {[0 := 0; 1 := 0]} single_edge_start self' 0 1
           single_edge_start_rows_ok Hrun); cbn; set_solver.
Defined.

(** Every partition of the nodes is accepted, and the object that is left
    has the new mappings, its rows in the order of the groups, the same
    number of groups, and caches that are up to date. *)
Theorem rearrange_accepts_partition g_n n_g self :
  rows_ok self → concat g_n ≡ₚ graph self →
  size n_g = length (graph self) → length g_n = k self →
  ∃ self',
    _rearrange_matrix_and_mappings g_n n_g self = (Ok tt, self')
    ∧ rows_ok self' ∧ map_g_n self' = g_n ∧ map_n_g self' = n_g
    ∧ map_n_r self' = enumerate_map (concat g_n)
    ∧ k self' = k self ∧ graph self' = graph self ∧ step self' = step self
    ∧ up_to_date self'.
Proof.
  intros Hrows Hperm Hsize Hk.
  destruct (rearrange_succeeds g_n n_g self Hrows Hperm Hsize Hk)
    as (self' & Hrun & Hrows' & Hg & Hn & Hk' & Hgr & Hstep).
  exists self'. split; [done|]. split; [done|]. split; [done|]. split; [done|].
  split; [by apply rearrange_map_n_g in Hrun as (_ & _ & ?)|].
  split; [done|]. split; [done|]. split; [done|]. by eapply rearrange_fresh.
Qed.

Lemma rearrange_accepts_partition_witness :
  ∃ self',
    _rearrange_matrix_and_mappings [[1; 0]] {[0 := 0; 1 := 0]} single_edge_start
    = (Ok tt, self')
    ∧ map_g_n self' = [[1; 0]].
Proof.
  destruct (rearrange_accepts_partition [[1; 0]] {[0 := 0; 1 := 0]} single_edge_start
              single_edge_start_rows_ok) as (self' & Hrun & _ & Hg & _).
  - cbn. apply perm_swap.
  - vm_compute. reflexivity.
  - reflexivity.
  - exists self'. split; [exact Hrun|exact Hg].
Defined.

(** After the caches are recomputed on a 0/1 matrix every cached density
    lies strictly between 0 and 1. *)
Theorem recalculated_densities_in_unit_interval self self' i j p :
  binary (adj_matrix self) →
  _recalculate_block_properties self = (Ok tt, self') →
  block_density self' i j = Ok p →
  (0 < p)%Q ∧ (p < 1)%Q.
Proof.
  intros Hb Hre Hp. apply recalculate_inv in Hre as (w' & P' & Hw & HP & ->).
  unfold block_density in Hp. cbn [P set_P] in Hp.
  unfold compute_P in HP.
  destruct (mapM2_lookup _ _ _ _ _ _ _ HP Hp) as (x & y & Hx & Hy & Hd).
  unfold _block_density in Hd.
  destruct (block_weight _ x y) as [wt|] eqn:Ewt; simpl in Hd; [|done].
  destruct (block_size _ x y) as [n|] eqn:En; simpl in Hd; [|done].
  injection Hd as <-.
  unfold block_weight in Ewt. cbn [w set_w] in Ewt.
  unfold compute_w in Hw.
  destruct (mapM2_lookup _ _ _ _ _ _ _ Hw Ewt) as (x' & y' & Hx' & Hy' & Hbw).
  apply smoothed_bounds.
  unfold groups in *. cbn [k set_w] in *.
  apply lookup_seq in Hx as [-> _], Hy as [-> _], Hx' as [-> _], Hy' as [-> _].
  simpl in *. eapply _block_weight_bounds; eauto.
Qed.

Lemma recalculated_densities_in_unit_interval_witness :
  block_density single_edge_start 0 0 = Ok (3 # 10)%Q
  ∧ (0 < 3 # 10)%Q ∧ (3 # 10 < 1)%Q.
Proof.
  split; [reflexivity|].
  apply (recalculated_densities_in_unit_interval (initial_fields single_edge)
           single_edge_start 0 0 (3 # 10)%Q single_edge_binary).
  - vm_compute. reflexivity.
  - reflexivity.
Defined.

(** No cost of an object whose cached weights lie between 0 and the block
    sizes is negative: not the code cost of a block, the code cost, the
    description cost, the total cost, or the entropy per node of a group. *)
Theorem costs_are_nonnegative self :
  keys_ok self → weights_ok self →
  (∀ i j c, block_code_cost self i j = Ok c → (0 <= c)%R)
  ∧ (∀ c, code_cost self = Ok c → (0 <= c)%R)
  ∧ (∀ c, description_cost self = Ok c → (0 <= c)%R)
  ∧ (∀ c, total_cost self = Ok c → (0 <= c)%R)
  ∧ (∀ g e, group_entropy_per_node self g = Ok e → (0 <= e)%R).
Proof.
  intros Hk Hw.
  split; [intros i j c; by apply block_code_cost_nonneg|].
  split; [intros c; by apply code_cost_nonneg|].
  split; [intros c; by apply description_cost_nonneg|].
  split; [intros c; by apply total_cost_nonneg|].
  intros g e. unfold group_entropy_per_node.
  destruct (group_size self g) as [n|] eqn:En; simpl; [|done].
  case_decide as Hn; [intros [= <-]; lra|].
  destruct (mapM _ _) as [cs|] eqn:E; simpl; [|done]. intros [= <-].
  assert (0 <= Rsum cs)%R as Hsum.
  { apply Rsum_nonneg. apply mapM_Ok_inv in E. apply Forall_forall. intros x Hx.
    apply list_elem_of_lookup in Hx as [idx Hidx].
    destruct (Forall2_lookup_r _ _ _ _ _ E Hidx) as (g' & _ & Hc). simpl in Hc.
    destruct (block_code_cost self g g') as [c1|] eqn:E1; simpl in Hc; [|done].
    destruct (block_code_cost self g' g) as [c2|] eqn:E2; simpl in Hc; [|done].
    injection Hc as <-.
    apply block_code_cost_nonneg in E1, E2; [lra|done..]. }
  assert (0 < INR n)%R as Hpos by (apply lt_0_INR; lia).
  apply Rmult_le_pos; [done|]. apply Rlt_le. by apply Rinv_0_lt_compat.
Qed.

Lemma costs_are_nonnegative_witness :
  ∃ c, total_cost single_edge_start = Ok c ∧ (0 <= c)%R.
Proof.
  assert (∃ c, total_cost single_edge_start = Ok c) as [c Hc].
  { eexists. eval_cost. reflexivity. }
  exists c. split; [exact Hc|].
  destruct (costs_are_nonnegative single_edge_start) as (_ & _ & _ & Htotal & _).
  - reflexivity.
  - apply fresh_weights_ok; [exact single_edge_binary|exact single_edge_start_fresh].
  - exact (Htotal c Hc).
Defined.

(** After the caches are recomputed on a 0/1 matrix the code cost and the
    cost of the block weights have a value, so that the total cost has one
    exactly when the cost of the group sizes has. *)
Theorem costs_defined_after_recalculation self self' :
  length (map_g_n self) = k self → 0 < k self → binary (adj_matrix self) →
  _recalculate_block_properties self = (Ok tt, self') →
  is_ok (code_cost self') ∧ is_ok (description_cost_block_weights self')
  ∧ (is_ok (total_cost self') ↔ is_ok (description_cost_group_sizes self')).
Proof.
  intros Hk Hpos Hb Hre. apply recalculate_inv in Hre as (w' & P' & Hw & HP & ->).
  assert (∀ i j, i < k self → j < k self →
            ∃ n, block_size (set_P P' (set_w w' self)) i j = Ok n) as Hsize.
  { intros i j Hi Hj. unfold block_size.
    rewrite !group_size_lookup by (cbn; lia). by eexists. }
  assert (is_ok (code_cost (set_P P' (set_w w' self)))) as Hcode.
  { unfold code_cost. destruct (mapM_is_ok (fun ij => block_code_cost
      (set_P P' (set_w w' self)) ij.1 ij.2) (pairs (set_P P' (set_w w' self)))) as [cs ->];
      [|by eexists].
    intros [i j] Hin. apply elem_of_pairs in Hin as [Hi Hj]. cbn [k set_P set_w] in Hi, Hj.
    simpl.
    destruct (mapM2_table _ _ _ _ i j i j Hw) as (wt & Hwt & Hbw);
      [apply lookup_seq; lia..|].
    destruct (mapM2_table _ _ _ _ i j i j HP) as (p & Hp & Hbd);
      [apply lookup_seq; cbn; lia..|].
    destruct (Hsize i j Hi Hj) as [n Hn].
    unfold _block_density in Hbd. unfold block_weight in Hbd at 1.
    cbn [w set_w] in Hbd. rewrite Hwt in Hbd. simpl in Hbd.
    change (block_size (set_w w' self) i j) with (block_size (set_P P' (set_w w' self)) i j)
      in Hbd.
    rewrite Hn in Hbd. simpl in Hbd. injection Hbd as <-.
    apply (block_code_cost_is_ok _ wt n); try done.
    eapply (_block_weight_bounds self); [done|exact Hbw|exact Hn]. }
  assert (is_ok (description_cost_block_weights (set_P P' (set_w w' self)))) as Hbw.
  { unfold description_cost_block_weights.
    destruct (mapM_is_ok (fun ij => n ← block_size (set_P P' (set_w w' self)) ij.1 ij.2;
                                    ceil_log2 (Z.of_nat n + 1))
                (pairs (set_P P' (set_w w' self)))) as [cs ->]; [|by eexists].
    intros [i j] Hin. apply elem_of_pairs in Hin as [Hi Hj]. cbn [k set_P set_w] in Hi, Hj.
    simpl. destruct (Hsize i j Hi Hj) as [n ->]. simpl. apply ceil_log2_Ok. lia. }
  split; [done|]. split; [done|].
  unfold total_cost, description_cost. cbn [k set_P set_w].
  destruct (log_star_is_ok (Z.of_nat (k self))) as [ls ->]; [lia|]. simpl.
  destruct Hcode as [c ->]. destruct Hbw as [bw ->].
  destruct (description_cost_group_sizes _) as [gs|e]; simpl.
  - split; intros _; by eexists.
  - split; intros [? ?]; done.
Qed.

Lemma costs_defined_after_recalculation_witness :
  is_ok (code_cost single_edge_start) ∧ is_ok (total_cost single_edge_start).
Proof.
  destruct (costs_defined_after_recalculation (initial_fields single_edge) single_edge_start)
    as (Hcode & _ & Htotal).
  - reflexivity.
  - simpl. lia.
  - exact single_edge_binary.
  - vm_compute. reflexivity.
  - split; [exact Hcode|]. apply Htotal. by eexists.
Defined.

(** [log_star] has a value on every positive integer: its loop ends
    within [log_star_fuel] rounds, more rounds change nothing, and the value
    is not negative. *)
Theorem log_star_is_total (x : Z) :
  (0 < x)%Z →
  ∃ r, log_star x = Ok r ∧ (0 <= r)%R
       ∧ ∀ extra, log_star_loop (log_star_fuel x + extra) (log2R (IZR x)) 0 = Some r.
Proof.
  intros Hx. destruct (log_star_total x Hx) as (r & Hr & Hmore).
  exists r. split; [done|]. split; [by eapply log_star_nonneg|done].
Qed.

Lemma log_star_is_total_witness :
  ∃ r, log_star 2 = Ok r ∧ (0 <= r)%R.
Proof.
  destruct (log_star_is_total 2) as (r & Hr & Hpos & _); [lia|].
  exists r. split; [exact Hr|exact Hpos].
Defined.

(** Moving a node puts it in the newest group and leaves every other node
    in its group. *)
Theorem move_node_changes_one_group nd self :
  wf self → nd ∈ graph self →
  ∃ self', _move_node_to_new_group nd self = (Ok tt, self')
    ∧ (∀ x g, in_group (map_g_n self') x g
              ↔ (x = nd ∧ g = k self - 1) ∨ (x ≠ nd ∧ in_group (map_g_n self) x g)).
Proof.
  intros Hwf Hin. destruct (move_node_wf self nd Hwf Hin) as (self' & Hrun & Hwf' & _).
  exists self'. split; [done|]. intros x g.
  destruct Hwf as [_ (_ & _ & Hng & _)]. destruct Hwf' as [_ (_ & _ & Hng' & _)].
  apply move_node_mappings in Hrun as (Hmap & _).
  rewrite <- Hng', Hmap, lookup_insert_Some, <- Hng. split.
  - intros [[-> <-]|[? ?]]; [by left|right]. split; [congruence|done].
  - intros [[-> ->]|[? ?]]; [by left|right]. split; [congruence|done].
Qed.

Lemma move_node_changes_one_group_witness :
  ∃ self self',
    _add_new_group single_edge_start = (Ok tt, self)
    ∧ _move_node_to_new_group 0 self = (Ok tt, self')
    ∧ in_group (map_g_n self') 0 1.
Proof.
  destruct single_edge_added_wf as (self & Hadd & Hwf & Hin & Hk).
  destruct (move_node_changes_one_group 0 self Hwf Hin) as (self' & Hmove & Hgroups).
  exists self, self'. split; [exact Hadd|]. split; [exact Hmove|].
  apply Hgroups. left. split; [reflexivity|]. rewrite Hk. reflexivity.
Defined.

(** The blocks of a new group have weight 0 and density 1/2. *)
Theorem new_group_blocks_are_empty self self' i :
  length (map_g_n self) = k self →
  _add_new_group self = (Ok tt, self') → i ≤ k self →
  k self' = k self + 1
  ∧ group_size self' (k self) = Ok 0
  ∧ block_weight self' i (k self) = Ok 0%Z ∧ block_weight self' (k self) i = Ok 0%Z
  ∧ block_density self' i (k self) = Ok (1 # 2)%Q
  ∧ block_density self' (k self) i = Ok (1 # 2)%Q.
Proof.
  intros Hk Hrun Hi.
  unfold _add_new_group, mbind, M_bind, reading, modify in Hrun. cbn beta iota in Hrun.
  unfold dict_set in Hrun. rewrite decide_False in Hrun by lia.
  set (self1 := set_k _ _) in Hrun.
  apply recalculate_inv in Hrun as (w' & P' & Hw & HP & ->).
  assert (map_g_n self1 = map_g_n self ++ [[]]) as Hg by done.
  assert (k self1 = k self + 1) as Hk1 by done.
  assert (group_size self1 (k self) = Ok 0) as Hsize.
  { unfold group_size. rewrite Hg, lookup_app_r by lia.
    by rewrite Hk, Nat.sub_diag. }
  assert (∀ a b, a = k self ∨ b = k self → a < k self1 → b < k self1 →
            _block_weight self1 a b = Ok 0%Z) as Hzero.
  { intros a b Hab Ha Hb. unfold _block_weight.
    rewrite !group_start_idx_Ok by (rewrite Hg, length_app; simpl; lia). simpl.
    rewrite !group_size_lookup by (rewrite Hg, length_app; simpl; lia). simpl.
    assert (default 0 (group_sizes self1 !! k self) = 0) as H0.
    { rewrite group_size_lookup in Hsize by (rewrite Hg, length_app; simpl; lia).
      by injection Hsize. }
    assert (∀ x, (x <? x + 0) = false) as Hf by (intros; apply Nat.ltb_ge; lia).
    destruct Hab as [-> | ->]; rewrite H0, Hf; [done|by rewrite andb_false_r]. }
  assert (∀ a b, a = k self ∨ b = k self → a < k self1 → b < k self1 →
            block_weight (set_w w' self1) a b = Ok 0%Z
            ∧ block_density (set_P P' (set_w w' self1)) a b = Ok (1 # 2)%Q) as Hblock.
  { intros a b Hab Ha Hb.
    destruct (mapM2_table _ _ _ _ a b a b Hw) as (wt & Hwt & Hbw);
      [apply lookup_seq; lia..|].
    rewrite (Hzero a b Hab Ha Hb) in Hbw. injection Hbw as <-.
    split; [done|].
    destruct (mapM2_table _ _ _ _ a b a b HP) as (p & Hp & Hbd);
      [apply lookup_seq; cbn; lia..|].
    unfold block_density. cbn [P set_P]. rewrite Hp, <- Hbd.
    unfold _block_density, block_weight. cbn [w set_w]. rewrite Hwt. simpl.
    unfold block_size.
    change (group_size (set_w w' self1)) with (group_size self1).
    destruct Hab as [-> | ->]; rewrite Hsize;
      rewrite ?group_size_lookup by (rewrite Hg, length_app; simpl; lia);
      simpl; rewrite ?Nat.mul_0_r; done. }
  split; [done|]. split; [done|].
  destruct (Hblock i (k self)) as [? ?]; [by right|lia..|].
  destruct (Hblock (k self) i) as [? ?]; [by left|lia..|]. done.
Qed.

Lemma new_group_blocks_are_empty_witness :
  ∃ self, _add_new_group single_edge_start = (Ok tt, self)
          ∧ block_weight self 0 1 = Ok 0%Z ∧ block_density self 1 1 = Ok (1 # 2)%Q.
Proof.
  destruct single_edge_added_wf as (self & Hadd & _).
  exists self. split; [exact Hadd|].
  destruct (new_group_blocks_are_empty single_edge_start self 0 eq_refl Hadd)
    as (_ & _ & Hw & _); [simpl; lia|].
  destruct (new_group_blocks_are_empty single_edge_start self 1 eq_refl Hadd)
    as (_ & _ & _ & _ & Hp & _); [simpl; lia|].
  split; [exact Hw|exact Hp].
Defined.

(** [outlier_score] touches the two cache tables only, however it ends. *)
Theorem outlier_score_keeps_matrix_and_mappings (i j : nat) (self : Autopart) :
  let self' := (outlier_score i j self).2 in
  graph self' = graph self ∧ adj_matrix self' = adj_matrix self ∧ k self' = k self
  ∧ map_g_n self' = map_g_n self ∧ map_n_g self' = map_n_g self
  ∧ map_n_r self' = map_n_r self ∧ step self' = step self.
Proof.
  unfold outlier_score, mbind, M_bind, reading, modify, mret, M_ret.
  repeat first [ done | case_match; simplify_eq; cbn [snd] ].
Qed.

(** After a rearrangement the cached weight of a block is the number of
    edges of the graph from the nodes of the one group to the nodes of the
    other. *)
Theorem block_weights_count_edges g_n n_g self self' i j s t :
  rows_ok self → length g_n = k self →
  _rearrange_matrix_and_mappings g_n n_g self = (Ok tt, self') →
  g_n !! i = Some s → g_n !! j = Some t →
  block_weight self' i j = Ok (edges_between self s t).
Proof.
  intros Hrows Hk Hrun Hi Hj.
  pose proof (rearrange_Ok_covers _ _ _ _ Hrows Hrun) as Hperm.
  pose proof (rearrange_same_graph _ _ _ _ Hrows Hrun) as [Hg Hadj].
  pose proof (rearrange_map_n_g _ _ _ _ Hrun) as (_ & Hg_n & Hmap).
  pose proof (rearrange_fields _ _ _ _ Hrun) as [_ Hk'].
  pose proof (rearrange_fresh _ _ _ _ Hrun) as Hfresh.
  destruct (rearrange_succeeds g_n n_g self Hrows Hperm) as (self2 & Hrun2 & Hrows2 & _).
  { rewrite rearrange_unfold in Hrun. case_bool_decide as Hc; [|done].
    rewrite Hc, nsum_concat_length. by rewrite Hperm. }
  { done. }
  rewrite Hrun in Hrun2. injection Hrun2 as <-.
  assert (rows_by_group self') as Hrbg.
  { split; [|split].
    - rewrite Hg_n, Hperm. by destruct Hrows as (? & _).
    - by rewrite Hg_n.
    - rewrite Hg_n. replace (length (concat g_n)) with (length (graph self'))
        by (by rewrite Hg, Hperm).
      by apply rows_ok_square. }
  assert (i < k self') as Hik by (rewrite Hk', <- Hk; by eapply lookup_lt_Some).
  assert (j < k self') as Hjk by (rewrite Hk', <- Hk; by eapply lookup_lt_Some).
  destruct Hfresh as [Hfresh _]. unfold compute_w in Hfresh.
  destruct (mapM2_table _ _ _ _ i j i j Hfresh) as (wt & Hwt & Hbw);
    [apply lookup_seq; lia..|].
  unfold block_weight. rewrite Hwt, <- Hbw.
  rewrite (block_weight_counts self' Hrbg i j s t) by (by rewrite Hg_n).
  f_equal. unfold edges_between. f_equal.
  apply list_fmap_ext. intros p a Ha. f_equal.
  apply list_fmap_ext. intros q b Hb. unfold weight_of.
  rewrite Hadj; [done| |].
  - rewrite <- Hperm. apply elem_of_concat. exists i, s. split; [done|by eapply list_elem_of_lookup_2].
  - rewrite <- Hperm. apply elem_of_concat. exists j, t. split; [done|by eapply list_elem_of_lookup_2].
Qed.

Lemma block_weights_count_edges_witness :
  ∃ self',
    _rearrange_matrix_and_mappings [[1; 0]] {[0 := 0; 1 := 0]} single_edge_start
    = (Ok tt, self')
    ∧ block_weight self' 0 0 = Ok (edges_between single_edge_start [1; 0] [1; 0])
    ∧ edges_between single_edge_start [1; 0] [1; 0] = 1%Z.
Proof.
  assert (∃ self',
    _rearrange_matrix_and_mappings [[1; 0]] {[0 := 0; 1 := 0]} single_edge_start
    = (Ok tt, self')) as (self' & Hrun).
  { eexists. vm_compute. reflexivity. }
  exists self'. split; [exact Hrun|]. split; [|reflexivity].
  exact (block_weights_count_edges [[1; 0]] {[0 := 0; 1 := 0]} single_edge_start self'
           0 0 [1; 0] [1; 0] single_edge_start_rows_ok eq_refl Hrun eq_refl eq_refl).
Defined.

(** Whatever way the construction ends on a graph with a 0/1 adjacency
    matrix, the caches of the object it leaves are in range: every cached
    weight lies between 0 and the size of its block, and every cached
    density is the smoothed one, strictly between 0 and 1. *)
Theorem construction_leaves_caches_in_range fuel gr level r wd i j :
  square gr → binary (graph_adjacency gr) →
  __init__ fuel gr level = Some (r, wd) →
  i < k (obj wd) → j < k (obj wd) →
  ∃ wt n p,
    block_weight (obj wd) i j = Ok wt ∧ block_size (obj wd) i j = Ok n
    ∧ block_density (obj wd) i j = Ok p
    ∧ (0 <= wt <= Z.of_nat n)%Z
    ∧ p = smoothed wt (Z.of_nat n) ∧ (0 < p)%Q ∧ (p < 1)%Q.
Proof.
  intros Hsq Hb Hrun Hi Hj. unfold __init__ in Hrun.
  destruct (initial_object_wf gr Hsq) as (self & Hinit & Hwf & _). rewrite Hinit in Hrun.
  assert (adj_matrix self = graph_adjacency gr) as Hadj.
  { unfold initial_object in Hinit.
    apply recalculate_inv in Hinit as (w' & P' & _ & _ & ->). done. }
  apply (run_stands_for self) in Hrun as ([Hrows Hpart] & Hsame & Hfresh).
  2:{ split; [done|]. split; [apply same_graph_refl|by eapply initial_object_fresh]. }
  assert (binary (adj_matrix (obj wd))) as Hb'.
  { apply (same_graph_binary self); [by destruct Hwf|done|done|by rewrite Hadj]. }
  destruct (up_to_date_blocks (obj wd) i j) as (wt & n & Hwt & Hn & Hp & Hbounds);
    [by destruct Hpart as (? & _)|done..|].
  exists wt, n, (smoothed wt (Z.of_nat n)).
  destruct (smoothed_bounds wt (Z.of_nat n) Hbounds) as [? ?]. done.
Qed.

Lemma construction_leaves_caches_in_range_witness :
  ∃ wd p, __init__ 2 single_edge ERROR = Some (Ok tt, wd)
          ∧ block_density (obj wd) 1 1 = Ok p ∧ (0 < p)%Q ∧ (p < 1)%Q.
Proof.
  destruct (single_edge_run ERROR) as (wd & Hrun & Hobj).
  destruct (construction_leaves_caches_in_range 2 single_edge ERROR (Ok tt) wd 1 1
              single_edge_square single_edge_binary Hrun)
    as (wt & n & p & _ & _ & Hp & _ & _ & Hp0 & Hp1).
  - rewrite Hobj. simpl. lia.
  - rewrite Hobj. simpl. lia.
  - exists wd, p. split; [exact Hrun|]. split; [exact Hp|]. split; [exact Hp0|exact Hp1].
Defined.

Lemma single_edge_start_rows_by_group : rows_by_group single_edge_start.
Proof.
  split; [|split; [vm_compute; reflexivity|]].
  - cbn. apply NoDup_cons. split; [set_solver|]. apply NoDup_singleton.
  - split; [reflexivity|]. repeat constructor.
Qed.

(** Where the rows are in the order of the groups, [row_weight] for the row
    of a node is the number of edges from the node to the nodes of the
    group, [col_weight] the number of edges from the nodes of the group to
    the node, and [cell] for the rows of two nodes the entry for the two. *)
Theorem line_weights_count_edges self a x j t :
  rows_by_group self →
  map_n_r self !! a = Some x → map_g_n self !! j = Some t →
  row_weight self x j = Ok (edges_between self [a] t)
  ∧ col_weight self x j = Ok (edges_between self t [a])
  ∧ ∀ b y, map_n_r self !! b = Some y → cell self x y = Ok (weight_of self a b).
Proof.
  intros Hrows Hx Hj.
  destruct (line_weights_count self Hrows a x j t Hx Hj) as [Hr Hc].
  split; [done|]. split; [done|]. intros b y Hy.
  destruct Hrows as (Hnd & Hmap & [Hlen Hsq]).
  assert (∀ c z, map_n_r self !! c = Some z → z < length (concat (map_g_n self))) as Hlt.
  { intros c z Hz. rewrite Hmap in Hz. apply enumerate_map_lookup in Hz; [|done].
    by eapply lookup_lt_Some. }
  destruct (lookup_lt_is_Some_2 (adj_matrix self) x) as [row Hrow];
    [rewrite Hlen; by eapply Hlt|].
  assert (length row = length (concat (map_g_n self))) as Hlrow
    by (eapply (Forall_lookup_1 _ _ _ _ Hsq Hrow)).
  destruct (lookup_lt_is_Some_2 row y) as [v Hv]; [rewrite Hlrow; by eapply Hlt|].
  unfold weight_of, adjacency, cell. rewrite Hx, Hy. simpl. rewrite Hrow. simpl.
  by rewrite Hv.
Qed.

Lemma line_weights_count_edges_witness :
  row_weight single_edge_start 0 0 = Ok 1%Z ∧ col_weight single_edge_start 0 0 = Ok 0%Z.
Proof.
  destruct (line_weights_count_edges single_edge_start 0 0 0 [0; 1]
              single_edge_start_rows_by_group eq_refl eq_refl) as (Hr & Hc & _).
  split; [exact Hr|exact Hc].
Defined.

(** The object of the graph with one edge after a group was added, and
    after one more was added. *)
Definition single_edge_added2 : Autopart :=
  Eval vm_compute in (_add_new_group single_edge_added).2.

Lemma single_edge_added_is_wf : wf single_edge_added.
Proof.
  destruct single_edge_added_wf as (self & Hadd & Hwf & _).
  assert (self = single_edge_added) as <-; [|done].
  apply (f_equal snd) in Hadd. simpl in Hadd. rewrite <- Hadd.
  vm_compute. reflexivity.
Qed.

Lemma single_edge_added_rows_by_group : rows_by_group single_edge_added.
Proof.
  split; [|split; [vm_compute; reflexivity|]].
  - cbn. apply NoDup_cons. split; [set_solver|]. apply NoDup_singleton.
  - split; [reflexivity|]. repeat constructor.
Qed.

Lemma single_edge_added_binary : binary (adj_matrix single_edge_added).
Proof. repeat constructor; simpl; lia. Qed.

Lemma single_edge_added2_wf : wf single_edge_added2.
Proof.
  destruct (add_new_group_wf single_edge_added single_edge_added_is_wf)
    as (self & Hadd & Hwf & _).
  assert (self = single_edge_added2) as <-; [|done].
  apply (f_equal snd) in Hadd. simpl in Hadd. rewrite <- Hadd.
  vm_compute. reflexivity.
Qed.

Lemma single_edge_added2_rows_by_group : rows_by_group single_edge_added2.
Proof.
  split; [|split; [vm_compute; reflexivity|]].
  - cbn. apply NoDup_cons. split; [set_solver|]. apply NoDup_singleton.
  - split; [reflexivity|]. repeat constructor.
Qed.

(** The prediction of [group_entropy_per_node_exclude] is exact where the
    node has no edge to itself and no other group is empty: for a node of
    a group with more nodes, not the newest group, it returns the value
    that [group_entropy_per_node] returns for the group after the node was
    moved to the newest group. *)
Theorem exclude_predicts_entropy_after_move self self' i nd s :
  wf self → rows_by_group self → up_to_date self → binary (adj_matrix self) →
  map_g_n self !! i = Some s → nd ∈ s → 1 < length s → i ≠ k self - 1 →
  (∀ j u, j ≠ i → j ≠ k self - 1 → map_g_n self !! j = Some u → u ≠ []) →
  weight_of self nd nd = 0%Z →
  _move_node_to_new_group nd self = (Ok tt, self') →
  ∃ e, group_entropy_per_node_exclude self i nd = Ok e
     ∧ group_entropy_per_node self' i = Ok e.
Proof.
  intros Hwf Hrbg Hutd Hbin Hi Hnd Hs Hik Hother Hloop Hmove.
  pose proof Hwf as [_ (Hkeys & _)].
  assert (i < k self) as Hlt by (rewrite <- Hkeys; by eapply lookup_lt_Some).
  destruct (lookup_lt_is_Some_2 (map_g_n self) (k self - 1)) as [t Ht]; [lia|].
  destruct (node_row self i s nd Hwf Hi Hnd) as [x Hx].
  destruct (moved_entropy_is_ok self self' i nd s t Hwf Hi Hnd Hs Hik Ht Hmove Hbin)
    as [e He].
  exists e. split; [|done]. rewrite <- He.
  exact (exclude_exact self self' i x nd s t Hwf Hrbg Hutd Hi Hnd Hs Hik Ht Hx Hloop
           Hother Hmove).
Qed.

Lemma exclude_predicts_entropy_after_move_witness :
  ∃ e, group_entropy_per_node_exclude single_edge_added 0 0 = Ok e
     ∧ group_entropy_per_node single_edge_moved0 0 = Ok e.
Proof.
  apply (exclude_predicts_entropy_after_move single_edge_added single_edge_moved0
           0 0 [0; 1]).
  - exact single_edge_added_is_wf.
  - exact single_edge_added_rows_by_group.
  - split; vm_compute; reflexivity.
  - exact single_edge_added_binary.
  - reflexivity.
  - set_solver.
  - simpl. lia.
  - simpl. lia.
  - intros [|[|j]] u; simpl; [done|done|]. intros _ _ Hj. discriminate Hj.
  - vm_compute. reflexivity.
  - vm_compute. reflexivity.
Defined.

(** [group_entropy_per_node_exclude] raises [ValueError] where a group other
    than the group of the node and the newest group is empty: the round for
    that group takes the logarithm of the density 0. *)
Theorem exclude_raises_when_a_group_is_empty self i j nd s :
  wf self → rows_by_group self → up_to_date self →
  map_g_n self !! i = Some s → nd ∈ s → 1 < length s →
  j ≠ i → j ≠ k self - 1 → map_g_n self !! j = Some [] →
  group_entropy_per_node_exclude self i nd = Raise ValueError.
Proof.
  intros Hwf Hrbg Hutd Hi Hnd Hs Hji Hjk Hj.
  destruct (node_row self i s nd Hwf Hi Hnd) as [x Hx].
  exact (exclude_raises_on_empty self i x nd s Hwf Hrbg Hutd Hi Hs Hx j Hji Hjk Hj).
Qed.

Lemma exclude_raises_when_a_group_is_empty_witness :
  group_entropy_per_node_exclude single_edge_added2 0 0 = Raise ValueError.
Proof.
  apply (exclude_raises_when_a_group_is_empty single_edge_added2 0 1 0 [0; 1]).
  - exact single_edge_added2_wf.
  - exact single_edge_added2_rows_by_group.
  - split; vm_compute; reflexivity.
  - reflexivity.
  - set_solver.
  - simpl. lia.
  - done.
  - simpl. lia.
  - reflexivity.
Defined.

(** On an object whose rows are in the order of the groups, whose caches
    are up to date and whose matrix has entries 0 and 1, [rearrange_cost]
    has a value for every node and every group, and the value is not
    negative. *)
Theorem rearrange_cost_is_defined_and_nonnegative self nd g :
  wf self → rows_by_group self → up_to_date self → binary (adj_matrix self) →
  nd ∈ graph self → g < k self →
  ∃ c, rearrange_cost self nd g = Ok c ∧ (0 <= c)%R.
Proof. apply rearrange_cost_defined. Qed.

Lemma rearrange_cost_is_defined_and_nonnegative_witness :
  ∃ c, rearrange_cost single_edge_added 0 1 = Ok c ∧ (0 <= c)%R.
Proof.
  apply (rearrange_cost_is_defined_and_nonnegative single_edge_added 0 1).
  - exact single_edge_added_is_wf.
  - exact single_edge_added_rows_by_group.
  - split; vm_compute; reflexivity.
  - exact single_edge_added_binary.
  - simpl. set_solver.
  - simpl. lia.
Defined.
